(** * macOS live video wallpaper: installation and conversion pipeline

    A shallow embedding of the wallpaper manager (selection, backup,
    install), of the downloader's conversion logic (duration gate,
    extender, HEVC transcoder, source clean-up) and of the permission
    normalizer of [Utils], followed by the properties of the
    specification that concern them.

    The JavaScript sources are asynchronous; the embedding runs them in
    a state monad over a [World] (file system, clock, pending user
    input), in the order in which a single-process run executes them.
    A promise is a computation whose outcome is [Resolved], [Rejected]
    or [Pending] (it never settles, because the user never answers). *)

From Stdlib Require Import ZArith QArith.QArith_base String Ascii List Lia.
From stdpp Require Import gmap strings list fin_maps pretty.

Local Open Scope string_scope.
Local Open Scope list_scope.
Local Open Scope Z_scope.

(** ** JavaScript strings and POSIX paths *)

Module JS.

Definition chars (s : string) : list ascii := list_ascii_of_string s.
Definition str (l : list ascii) : string := string_of_list_ascii l.

Definition ascii_eqb (a b : ascii) : bool := Ascii.eqb a b.

Definition dot : ascii := "."%char.
Definition slash : ascii := "/"%char.

(** [String.prototype.endsWith]. *)
Fixpoint prefix_of (p l : list ascii) : bool :=
  match p, l with
  | [], _ => true
  | a :: p', b :: l' => ascii_eqb a b && prefix_of p' l'
  | _ :: _, [] => false
  end.

Definition endsWith (s suffix : string) : bool :=
  prefix_of (rev (chars suffix)) (rev (chars s)).

Definition startsWith (s pre : string) : bool :=
  prefix_of (chars pre) (chars s).

(** [String.prototype.toLowerCase] on the ASCII letters; bytes above
    127 (UTF-8 sequences) are left as they are. The sources compare
    the result with [c], [cancel], [y], [yes] and [.mp4] only, and no
    letter outside ASCII becomes one of the letters of these words. *)
Definition lower_char (c : ascii) : ascii :=
  let n := nat_of_ascii c in
  if (Nat.leb 65 n && Nat.leb n 90)%bool then ascii_of_nat (n + 32) else c.

Definition toLowerCase (s : string) : string := str (map lower_char (chars s)).

(** [span p l]: the longest prefix of [l] whose elements satisfy [p],
    and the rest. *)
Fixpoint span (p : ascii -> bool) (l : list ascii) : list ascii * list ascii :=
  match l with
  | [] => ([], [])
  | a :: l' => if p a then let '(x, y) := span p l' in (a :: x, y) else ([], l)
  end.

Definition not_dot (c : ascii) : bool := negb (ascii_eqb c dot).
Definition not_slash (c : ascii) : bool := negb (ascii_eqb c slash).
Definition is_slash (c : ascii) : bool := ascii_eqb c slash.

(** The last segment of a path, reversed: trailing separators are
    skipped, as [path.extname] and [path.parse] do. *)
Definition rev_base (path : string) : list ascii :=
  fst (span not_slash (snd (span is_slash (rev (chars path))))).

(** [(name, ext)] of a reversed last segment, by the rule shared by
    [path.extname] and [path.parse]: the extension starts at the last
    dot of the segment, unless that dot is the segment's first
    character or the segment is [..]. *)
Definition split_ext (rbase : list ascii) : list ascii * list ascii :=
  match span not_dot rbase with
  | (_, []) => (rev rbase, [])
  | (_, [_]) => (rev rbase, [])
  | (rafter, _ :: rbefore) =>
      match rafter, rbefore with
      | [], [d] => if ascii_eqb d dot then (rev rbase, []) else (rev rbefore, dot :: rev rafter)
      | _, _ => (rev rbefore, dot :: rev rafter)
      end
  end.

(** [path.extname(p)]. *)
Definition extname (p : string) : string := str (snd (split_ext (rev_base p))).

(** [path.parse(p).name]. *)
Definition parse_name (p : string) : string := str (fst (split_ext (rev_base p))).

(** [path.basename(p)]. *)
Definition basename (p : string) : string := str (rev (rev_base p)).

(** [dir] with the separator that [path.join] puts after it: none
    after the root, which is the only absolute and normalized path that
    ends in a slash. *)
Definition dir_prefix (dir : string) : string :=
  if String.eqb dir "/" then dir else dir +:+ "/".

(** [path.join(dir, name)] for an absolute and normalized [dir] and a
    single segment [name] (the only way the sources use it). *)
Definition path_join (dir name : string) : string := dir_prefix dir +:+ name.

(** [s.replace(/\.[^.]+$/, ext)]: the last dot and what follows it are
    replaced when at least one character follows; otherwise [s] is
    returned as it is. *)
Definition replace_ext (s ext : string) : string :=
  match span not_dot (rev (chars s)) with
  | (_, []) => s
  | ([], _) => s
  | (_, _ :: rbefore) => str (rev rbefore) +:+ ext
  end.

(** [s.replace(/[:.]/g, '-')]. *)
Definition dash_char (c : ascii) : ascii :=
  if (ascii_eqb c ":"%char || ascii_eqb c dot)%bool then "-"%char else c.

Definition replace_colons_dots (s : string) : string := str (map dash_char (chars s)).

(** *** White space

    A string holds the UTF-8 encoding of the JavaScript string. The
    white space that [parseInt] skips (the WhiteSpace and LineTerminator
    of the language) is, in this encoding: the characters 9 to 13 and
    32; U+00A0 (C2 A0); U+1680 (E1 9A 80); U+2000 to U+200A, U+2028,
    U+2029 and U+202F (E2 80 followed by 80 to 8A, A8, A9 or AF);
    U+205F (E2 81 9F); U+3000 (E3 80 80); U+FEFF (EF BB BF). *)
Definition is_space (c : ascii) : bool :=
  let n := nat_of_ascii c in
  (Nat.eqb n 32 || (Nat.leb 9 n && Nat.leb n 13))%bool.

Definition is_space2 (a b : ascii) : bool :=
  (Nat.eqb (nat_of_ascii a) 194 && Nat.eqb (nat_of_ascii b) 160)%bool.

Definition is_space3 (a b c : ascii) : bool :=
  let x := nat_of_ascii a in
  let y := nat_of_ascii b in
  let z := nat_of_ascii c in
  ((Nat.eqb x 225 && Nat.eqb y 154 && Nat.eqb z 128)
   || (Nat.eqb x 226 && Nat.eqb y 128 &&
       ((Nat.leb 128 z && Nat.leb z 138) || Nat.eqb z 168 || Nat.eqb z 169 || Nat.eqb z 175))
   || (Nat.eqb x 226 && Nat.eqb y 129 && Nat.eqb z 159)
   || (Nat.eqb x 227 && Nat.eqb y 128 && Nat.eqb z 128)
   || (Nat.eqb x 239 && Nat.eqb y 187 && Nat.eqb z 191))%bool.

(** [l] without the white space it begins with. *)
Fixpoint skip_space (l : list ascii) : list ascii :=
  match l with
  | [] => []
  | a :: l1 =>
      if is_space a then skip_space l1
      else
        match l1 with
        | [] => l
        | b :: l2 =>
            if is_space2 a b then skip_space l2
            else
              match l2 with
              | [] => l
              | c :: l3 => if is_space3 a b c then skip_space l3 else l
              end
        end
  end.

(** *** [parseInt(s)] with no radix

    Leading white space is skipped, then an optional sign, then an
    optional [0x]/[0X] prefix (radix 16, otherwise 10), then the
    longest run of digits of the radix. [None] is [NaN]. The result is
    kept as a mathematical integer: it is only compared with array
    lengths, and rounding to a double cannot change such a comparison. *)
Definition digit_val (radix : Z) (c : ascii) : option Z :=
  let n := Z.of_nat (nat_of_ascii c) in
  let v := if (48 <=? n) && (n <=? 57) then Some (n - 48)
           else if (97 <=? n) && (n <=? 122) then Some (n - 87)
           else if (65 <=? n) && (n <=? 90) then Some (n - 55)
           else None in
  match v with
  | Some d => if d <? radix then Some d else None
  | None => None
  end.

(** The value of the longest run of digits at the head of [l], with
    the number of digits read. *)
Fixpoint digits (radix : Z) (acc : Z) (count : nat) (l : list ascii) : Z * nat :=
  match l with
  | [] => (acc, count)
  | c :: l' =>
      match digit_val radix c with
      | Some d => digits radix (radix * acc + d) (S count) l'
      | None => (acc, count)
      end
  end.

Definition strip_sign (l : list ascii) : Z * list ascii :=
  match l with
  | c :: l' =>
      if ascii_eqb c "-"%char then (-1, l')
      else if ascii_eqb c "+"%char then (1, l')
      else (1, l)
  | [] => (1, [])
  end.

Definition strip_radix (l : list ascii) : Z * list ascii :=
  match l with
  | z :: x :: l' =>
      if (ascii_eqb z "0"%char && (ascii_eqb x "x"%char || ascii_eqb x "X"%char))%bool
      then (16, l') else (10, l)
  | _ => (10, l)
  end.

Definition parseInt (s : string) : option Z :=
  let trimmed := skip_space (chars s) in
  let '(sign, l1) := strip_sign trimmed in
  let '(radix, l2) := strip_radix l1 in
  let '(v, n) := digits radix 0 0 l2 in
  match n with
  | O => None
  | S _ => Some (sign * v)
  end.

End JS.

(** ** The world: files, clock, user input *)

Inductive errno := EPERM | EACCES | ENOENT | EEXIST | EISDIR | ENOTDIR | EROFS | ENOSPC | EIO.

Inductive kind := RegularFile | Directory.

(** What [fs.statSync] reports of a path, with the content. Ownership is
    not tracked. *)
Record inode := mkInode {
  kind_of : kind;
  data : string;
  birthtime : Z;
  mtime : Z;
  mode : Z
}.

Definition stat_size (i : inode) : Z := Z.of_nat (String.length (data i)).

(** The calls of [fs] that change the file system. *)
Inductive fsop :=
| OpMkdir (p : string)                  (* fs.mkdirSync(p, { recursive: true }) *)
| OpWriteFile (p : string) (content : string)  (* fs.writeFileSync(p, content) *)
| OpUnlink (p : string)                 (* fs.unlinkSync(p) *)
| OpCopyFile (src dst : string)         (* fs.copyFileSync(src, dst) *)
| OpChmod (p : string) (m : Z).         (* fs.chmodSync(p, m) *)

(** The shell commands handed to [child_process.exec]. *)
Inductive command :=
| OpenWallpaperSettings        (* osascript: activate System Preferences, wallpaper pane *)
| OpenFinder (dir : string)    (* open "<dir>" *)
| LaunchctlUnload              (* sudo launchctl unload .../com.apple.idleassetsd.plist *)
| LaunchctlLoad                (* sudo launchctl load .../com.apple.idleassetsd.plist *)
| PictureRotation              (* osascript: toggle picture rotation of every desktop *)
| TouchMovFiles (dir : string). (* find "<dir>" -name "*.mov" -exec touch {} \; *)

(** What a child process reports. A process that ran reports the code
    of its [close] event ([None] when a signal ended it). A process that
    could not be started reports an [error] event with its message and
    then, at once, a [close] event whose code is the negative error
    number of the failed start (-2 for a program that is missing):
    [uv] is that number without its sign. The handlers of both events
    run, in this order. *)
Inductive proc_event :=
| ProcClose (code : option Z)
| ProcError (message : string) (uv : positive).

(** A JavaScript number as [parseFloat] returns it. *)
Inductive number := NaN | NegInfinity | Finite (q : Q) | PosInfinity.

Definition Qlt_bool (x y : Q) : bool := negb (Qle_bool y x).

(** [a < b] on numbers: false as soon as one side is [NaN]. *)
Definition number_lt (a b : number) : bool :=
  match a, b with
  | NaN, _ | _, NaN => false
  | _, NegInfinity => false
  | NegInfinity, _ => true
  | PosInfinity, _ => false
  | Finite _, PosInfinity => true
  | Finite x, Finite y => Qlt_bool x y
  end.

Definition number_of_Z (z : Z) : number := Finite (inject_Z z).

(** The values thrown or passed to [reject]. *)
Inductive error :=
| FsError (code : errno) (op : fsop)       (* an fs call that changes files failed; has [.code] *)
| StatError (code : errno) (path : string) (* statSync or readdirSync failed *)
| SeedTimeout                 (* 'Timeout waiting for wallpaper setup. ...' *)
| CannotAccess                (* 'Cannot access wallpaper directory. Please check permissions.' *)
| InstallVerificationFailed   (* 'Installation verification failed' *)
| ProbeParseFailed            (* 'Failed to parse video duration: ...' *)
| ProbeFailed (code : option Z)      (* 'ffprobe failed: ...' *)
| ProbeError (message : string)      (* 'ffprobe error: ...' *)
| ExtendedNotFound            (* 'Extended video file not found after processing' *)
| ExtensionFailed (code : option Z)  (* 'Video extension failed with code ...' *)
| ExtensionError (message : string)  (* 'FFmpeg extension error: ...' *)
| DurationFailed (cause : error)     (* 'Failed to get original video duration: ...' *)
| OutputNotFound              (* 'Conversion completed but output file not found' *)
| ConversionFailed (code : option Z) (* 'FFmpeg HEVC conversion failed with code ...' *)
| FFmpegError (message : string).    (* 'FFmpeg error: ...' *)

Inductive prompt :=
| SelectPrompt (n : nat)   (* 'Select wallpaper to replace (1-n) or 'c' to cancel: ' *)
| ConfirmPrompt.           (* 'Proceed with replacement? (y/N): ' *)

Inductive level := LvInfo | LvSuccess | LvWarning | LvError.

(** The log lines that tell which way the control went. Lines that only
    repeat sizes, settings or instructions are left out. *)
Inductive message :=
| CustomerDirNotFound
| TargetDirCreated
| DirectoryAccessible
| NoWritePermissions
| ErrorCheckingDirectory (e : error)
| ErrorReadingDirectory (e : error)
| DetectedWallpaper (name : string)
| BackupCreatedFixed (name : string)
| BackupCreated (name : string)
| BackupMayNeedSudo
| CouldNotCreateBackup (e : error)
| InstallingWallpaper (name : string)
| WallpaperInstalled
| FailedToInstall (e : error)
| DaemonNotRestarted
| DaemonRestarted
| RefreshNotForced
| FilesTouched
| RefreshTriggered
| SystemRefreshed
| SystemNotRefreshed (e : error)
| SettingsNotOpened
| SettingsOpened
| FinderNotOpened
| FinderOpened
| DirectoryEmpty
| NoVideoFiles
| FoundWallpapers (n : nat)
| AboutToReplace (name : string)
| InvalidChoice
| CancelledByUser
| SetupFailed (e : error)
| ExtendingVideo
| DurationOk
| VideoExtended
| TemporaryCleaned
| TemporaryNotCleaned (e : error)
| MovAlreadyExists
| HardwareEncoding
| SoftwareEncoding
| ConversionCompleted
| HardwareFailedRetrying
| AcceleratorMissingRetrying
| PermissionsFixed
| PermissionsNotFixed
| ConvertedNotFound
| ConvertedTooSmall
| CleaningSource
| SourceCleaned
| FixingBeforeCleanup
| SourceCleanedAfterFix
| CouldNotDelete (e : error)
| CleanupFailed (e : error).

(** What a run does that can be observed from outside, in order. *)
Inductive event :=
| EvFs (op : fsop) (failure : option errno)
| EvSpawn (cmd : string) (args : list string)
| EvExec (c : command)
| EvSleep (ms : Z)
| EvQuestion (q : prompt)
| EvAnswer (q : prompt) (answer : string)
| EvLog (l : level) (m : message).

Record World := mkWorld {
  fs : gmap string inode;
  clock : Z;               (* Date.now() *)
  tick : nat;              (* number of effects performed so far *)
  stdin : list string      (* the lines the user will type, in order *)
}.

(** The environment of a run: everything the sources leave to the
    operating system, to other programs and to the user's actions. *)
Record Env := mkEnv {
  (* the errno with which the operating system refuses [op], if it does *)
  fault : fsop -> World -> option errno;
  (* a run of ffmpeg with these arguments: what it reports and the files it leaves *)
  ffmpeg : list string -> World -> proc_event * gmap string inode;
  (* a run of ffprobe: what it reports and its standard output *)
  ffprobe : list string -> World -> proc_event * string;
  (* JSON.parse(stdout), then parseFloat(info.format.duration); None when this throws *)
  parseDuration : string -> option number;
  (* a run of chown *)
  chown : list string -> World -> proc_event;
  (* whether exec calls its callback with an error *)
  exec_error : command -> World -> bool;
  (* the files after what the user and the system did during one sleep *)
  external : World -> gmap string inode;
  (* process.env *)
  environ : gmap string string;
  (* process.cwd() *)
  cwd : string;
  (* new Date(ms).toISOString() *)
  toISOString : Z -> string
}.

(** ** Promises as runs *)

Inductive outcome (A : Type) :=
| Resolved (a : A)
| Rejected (e : error)
| Pending.
Arguments Resolved {A} a.
Arguments Rejected {A} e.
Arguments Pending {A}.

Record Run (A : Type) := mkRun {
  out : outcome A;
  final : World;
  trace : list event
}.
Arguments mkRun {A} out final trace.
Arguments out {A} r.
Arguments final {A} r.
Arguments trace {A} r.

Definition M (A : Type) : Type := World -> Run A.

Definition ret {A} (a : A) : M A := fun w => mkRun (Resolved a) w [].

Definition throw {A} (e : error) : M A := fun w => mkRun (Rejected e) w [].

Definition bind {A B} (m : M A) (k : A -> M B) : M B := fun w =>
  let r := m w in
  match out r with
  | Resolved a =>
      let r' := k a (final r) in
      mkRun (out r') (final r') (trace r ++ trace r')
  | Rejected e => mkRun (Rejected e) (final r) (trace r)
  | Pending => mkRun Pending (final r) (trace r)
  end.

(** [try { m } catch (e) { h e }]. *)
Definition try_catch {A} (m : M A) (h : error -> M A) : M A := fun w =>
  let r := m w in
  match out r with
  | Rejected e =>
      let r' := h e (final r) in
      mkRun (out r') (final r') (trace r ++ trace r')
  | _ => r
  end.

Notation "x <- m ;; k" := (bind m (fun x => k))
  (at level 100, m at next level, right associativity).
Notation "m ;; k" := (bind m (fun _ => k))
  (at level 100, right associativity).

Definition emit (ev : event) : M unit := fun w => mkRun (Resolved tt) w [ev].

Definition log (l : level) (m : message) : M unit := emit (EvLog l m).

Definition step (w : World) : World :=
  mkWorld (fs w) (clock w) (S (tick w)) (stdin w).

Definition with_fs (files : gmap string inode) (w : World) : World :=
  mkWorld files (clock w) (S (tick w)) (stdin w).

(** ** The file system calls *)

Definition present (o : option inode) : bool :=
  match o with Some _ => true | None => false end.

(** The prefixes of a path that end before a slash, the longest
    first: [seen] is what was read of the path, reversed. *)
Fixpoint above (seen rest : list ascii) (acc : list string) : list string :=
  match rest with
  | [] => acc
  | c :: rest' =>
      above (c :: seen) rest'
        (if Ascii.eqb c "/"
         then match seen with [] => acc | _ => JS.str (rev seen) :: acc end
         else acc)
  end.

(** The directories above the path [p], the nearest first: [/a/b] and
    [/a] for [/a/b/c]. The root is not among them: it always exists. *)
Definition ancestors (p : string) : list string := above [] (JS.chars p) [].

(** [mkdir -p] along a chain of paths, each the parent of the one
    before: the paths below the nearest one that exists are created. *)
Fixpoint make_dirs (now : Z) (chain : list string) (files : gmap string inode)
  : errno + gmap string inode :=
  match chain with
  | [] => inr files
  | q :: up =>
      match files !! q with
      | Some i => match kind_of i with
                  | Directory => inr files
                  | RegularFile => inl ENOTDIR
                  end
      | None =>
          match make_dirs now up files with
          | inl e => inl e
          | inr files' => inr (<[q := mkInode Directory EmptyString now now 493]> files')
          end
      end
  end.

(** What a call does to the files when the operating system lets it
    through, or the errno the files themselves give rise to. Modes are
    0o755 = 493, 0o644 = 420. Only [mkdir], which is recursive, looks at
    the directories above a path: the other calls take a path whose
    directory the sources have made sure of. *)
Definition apply_op (op : fsop) (now : Z) (files : gmap string inode)
  : errno + gmap string inode :=
  match op with
  | OpMkdir p =>
      match files !! p with
      | Some i => match kind_of i with
                  | Directory => inr files
                  | RegularFile => inl EEXIST
                  end
      | None => make_dirs now (p :: ancestors p) files
      end
  | OpWriteFile p content =>
      match files !! p with
      | Some i => match kind_of i with
                  | Directory => inl EISDIR
                  | RegularFile =>
                      inr (<[p := mkInode RegularFile content (birthtime i) now (mode i)]> files)
                  end
      | None => inr (<[p := mkInode RegularFile content now now 420]> files)
      end
  | OpUnlink p =>
      match files !! p with
      | Some i => match kind_of i with
                  | Directory => inl EPERM
                  | RegularFile => inr (delete p files)
                  end
      | None => inl ENOENT
      end
  | OpCopyFile src dst =>
      match files !! src with
      | Some s =>
          match kind_of s with
          | Directory => inl EISDIR
          | RegularFile =>
              match files !! dst with
              | Some d => match kind_of d with
                          | Directory => inl EISDIR
                          | RegularFile =>
                              inr (<[dst := mkInode RegularFile (data s) (birthtime d) now (mode d)]> files)
                          end
              | None => inr (<[dst := mkInode RegularFile (data s) now now (mode s)]> files)
              end
          end
      | None => inl ENOENT
      end
  | OpChmod p m =>
      match files !! p with
      | Some i => inr (<[p := mkInode (kind_of i) (data i) (birthtime i) (mtime i) m]> files)
      | None => inl ENOENT
      end
  end.

Fixpoint strip_prefix (pre s : string) : option string :=
  match pre with
  | EmptyString => Some s
  | String a pre' =>
      match s with
      | String b s' => if Ascii.eqb a b then strip_prefix pre' s' else None
      | EmptyString => None
      end
  end.

Fixpoint has_slash (s : string) : bool :=
  match s with
  | EmptyString => false
  | String a s' => Ascii.eqb a "/"%char || has_slash s'
  end.

(** [Some name] when [p] is the entry [name] of the directory [dir]. *)
Definition child_of (dir p : string) : option string :=
  match strip_prefix (JS.dir_prefix dir) p with
  | Some EmptyString => None
  | Some name => if has_slash name then None else Some name
  | None => None
  end.

Definition entries (dir : string) (files : gmap string inode) : list string :=
  omap (child_of dir) (map fst (map_to_list files)).

(** [touch] on every [*.mov] below [dir]. *)
Definition touch_movs (dir : string) (now : Z) (files : gmap string inode)
  : gmap string inode :=
  map_imap (fun p i =>
    if JS.startsWith p (JS.dir_prefix dir) && JS.endsWith p ".mov"
    then Some (mkInode (kind_of i) (data i) (birthtime i) now (mode i))
    else Some i) files.

Section Primitives.
Variable E : Env.

(** [fs.existsSync(p)]. *)
Definition existsSync (p : string) : M bool := fun w =>
  mkRun (Resolved (present (fs w !! p))) w [].

(** [fs.statSync(p)]: throws when [p] does not exist. The files of a
    world are plain files and directories, without links, and nothing
    happens to them during a call: a path that exists can be read. *)
Definition statSync (p : string) : M inode := fun w =>
  match fs w !! p with
  | Some i => mkRun (Resolved i) w []
  | None => mkRun (Rejected (StatError ENOENT p)) w []
  end.

(** [fs.readdirSync(dir)]. *)
Definition readdirSync (dir : string) : M (list string) := fun w =>
  match fs w !! dir with
  | Some i =>
      match kind_of i with
      | Directory => mkRun (Resolved (entries dir (fs w))) w []
      | RegularFile => mkRun (Rejected (StatError ENOTDIR dir)) w []
      end
  | None => mkRun (Rejected (StatError ENOENT dir)) w []
  end.

(** A call that changes files: refused by the operating system with
    the errno [fault] gives, or carried out on the files. *)
Definition mutate (op : fsop) : M unit := fun w =>
  match fault E op w with
  | Some e => mkRun (Rejected (FsError e op)) (step w) [EvFs op (Some e)]
  | None =>
      match apply_op op (clock w) (fs w) with
      | inl e => mkRun (Rejected (FsError e op)) (step w) [EvFs op (Some e)]
      | inr files => mkRun (Resolved tt) (with_fs files w) [EvFs op None]
      end
  end.

Definition mkdirSync (p : string) : M unit := mutate (OpMkdir p).
Definition writeFileSync (p content : string) : M unit := mutate (OpWriteFile p content).
Definition unlinkSync (p : string) : M unit := mutate (OpUnlink p).
Definition copyFileSync (src dst : string) : M unit := mutate (OpCopyFile src dst).
Definition chmodSync (p : string) (m : Z) : M unit := mutate (OpChmod p m).

(** [spawn('ffmpeg', args)], up to the event the process reports. *)
Definition spawn_ffmpeg (args : list string) : M proc_event := fun w =>
  let '(ev, files) := ffmpeg E args w in
  mkRun (Resolved ev) (with_fs files w) [EvSpawn "ffmpeg" args].

(** [spawn('ffprobe', args)]: the event and the collected stdout. *)
Definition spawn_ffprobe (args : list string) : M (proc_event * string) := fun w =>
  mkRun (Resolved (ffprobe E args w)) (step w) [EvSpawn "ffprobe" args].

(** [spawn('chown', args)]. *)
Definition spawn_chown (args : list string) : M proc_event := fun w =>
  mkRun (Resolved (chown E args w)) (step w) [EvSpawn "chown" args].

(** [exec(command, callback)], up to the callback: [true] when the
    callback receives an error. Only [touch] changes what the model
    tracks of the files, and only when it succeeds. *)
Definition exec (c : command) : M bool := fun w =>
  let failed := exec_error E c w in
  let files :=
    match c with
    | TouchMovFiles dir => if failed then fs w else touch_movs dir (clock w) (fs w)
    | _ => fs w
    end in
  mkRun (Resolved failed) (with_fs files w) [EvExec c].

(** [await new Promise(resolve => setTimeout(resolve, ms))]. *)
Definition sleep (ms : Z) : M unit := fun w =>
  mkRun (Resolved tt)
        (mkWorld (external E w) (clock w + ms) (S (tick w)) (stdin w))
        [EvSleep ms].

(** [rl.question(text, callback)], up to the callback: the promise
    around it stays pending when no line comes. *)
Definition question (q : prompt) : M string := fun w =>
  match stdin w with
  | [] => mkRun Pending w [EvQuestion q]
  | answer :: rest =>
      mkRun (Resolved answer)
            (mkWorld (fs w) (clock w) (S (tick w)) rest)
            [EvQuestion q; EvAnswer q answer]
  end.

(** [process.env[name]], with JavaScript's truthiness: an unset or
    empty variable is falsy. *)
Definition getenv (name : string) : option string :=
  match environ E !! name with
  | Some EmptyString => None
  | o => o
  end.

End Primitives.

(** ** [utils.js] *)

Module Utils.
Section Utils.
Variable E : Env.

Definition ensureDirectoryExists (dirPath : string) : M unit :=
found <- existsSync dirPath ;;
if negb found then mkdirSync E dirPath else ret tt.

Definition is_zero (code : option Z) : bool :=
match code with Some 0 => true | _ => false end.

(** [0o664] is 436. *)
Definition fixFilePermissions (filePath : string) : M bool :=
try_catch
  (let originalUser :=
     match getenv E "SUDO_USER" with Some u => Some u | None => getenv E "USER" end in
   let originalUid := getenv E "SUDO_UID" in
   let originalGid := getenv E "SUDO_GID" in
   match originalUser, originalUid, originalGid with
   | Some _, Some uid, Some gid =>
       ev <- spawn_chown E [uid +:+ ":" +:+ gid; filePath] ;;
       match ev with
       | ProcClose code =>
           if is_zero code
           then try_catch (chmodSync E filePath 436 ;; ret true) (fun _ => ret false)
           else ret false
       | ProcError _ _ => ret false
       end
   | _, _, _ =>
       try_catch (chmodSync E filePath 436 ;; ret true) (fun _ => ret false)
   end)
  (fun _ => ret false).

End Utils.
End Utils.

(** ** [config.js] *)

Module CONFIG.
(* WALLPAPER_SETTINGS.minRecommendedResolution: 4K *)
Definition minRecommendedResolution : Z := 2160.
(* WALLPAPER_SETTINGS.minRecommendedDuration: 1 minute in seconds *)
Definition minRecommendedDuration : Z := 60.
End CONFIG.

(** ** [downloader.js]: the conversion logic of [VideoDownloader] *)

Module VideoDownloader.
Section VideoDownloader.
Variable E : Env.

Definition is_zero (code : option Z) : bool :=
match code with Some 0 => true | _ => false end.

(** [code === 1 || code === 69]. *)
Definition is_fallback_code (code : option Z) : bool :=
match code with
| Some c => (c =? 1) || (c =? 69)
| None => false
end.

(** [error.code], for the errors that have one. *)
Definition error_code (e : error) : option errno :=
match e with
| FsError c _ => Some c
| StatError c _ => Some c
| _ => None
end.

(** [deleteError.code === 'EPERM' || deleteError.code === 'EACCES']. *)
Definition is_permission_error (e : error) : bool :=
match error_code e with
| Some EPERM | Some EACCES => true
| _ => false
end.

(** [s.includes(sub)]. *)
Fixpoint includes_chars (sub l : list ascii) : bool :=
JS.prefix_of sub l ||
match l with
| [] => false
| _ :: l' => includes_chars sub l'
end.

Definition includes (s sub : string) : bool :=
includes_chars (JS.chars sub) (JS.chars s).

Definition getVideoDuration (inputPath : string) : M number :=
r <- spawn_ffprobe E ["-v"; "quiet"; "-print_format"; "json"; "-show_format"; inputPath] ;;
match fst r with
| ProcClose code =>
    if is_zero code then
      match parseDuration E (snd r) with
      | Some duration => ret duration
      | None => throw ProbeParseFailed
      end
    else throw (ProbeFailed code)
| ProcError m _ => throw (ProbeError m)
end.

(** The arguments with which [extendVideo] runs ffmpeg.
  [minDuration.toString()] is the decimal numeral of an integer. *)
Definition extend_args (inputPath : string) (minDuration : Z) (outputPath : string)
: list string :=
[ "-stream_loop"; "-1";
  "-i"; inputPath;
  "-t"; pretty minDuration;
  "-c"; "copy";
  "-avoid_negative_ts"; "make_zero";
  "-fflags"; "+genpts";
  "-y";
  outputPath ].

Definition extendVideo (inputPath : string) (minDuration : Z) : M string :=
originalDuration <-
  try_catch (getVideoDuration inputPath) (fun e => throw (DurationFailed e)) ;;
let outputPath := JS.replace_ext inputPath "_extended.mp4" in
ev <- spawn_ffmpeg E (extend_args inputPath minDuration outputPath) ;;
match ev with
| ProcClose code =>
    if is_zero code then
      found <- existsSync outputPath ;;
      if found then
        stats <- statSync outputPath ;;
        log LvSuccess VideoExtended ;;
        ret outputPath
      else throw ExtendedNotFound
    else throw (ExtensionFailed code)
| ProcError m _ => throw (ExtensionError m)
end.

(** The method of the class, around [Utils.fixFilePermissions]. *)
Definition fixFilePermissions (filePath : string) : M unit :=
try_catch
  (success <- Utils.fixFilePermissions E filePath ;;
   if success then log LvSuccess PermissionsFixed
   else log LvWarning PermissionsNotFixed)
  (fun _ => log LvWarning PermissionsNotFixed).

(** The sizes are integers below 2^53, for which the comparison
  [convertedStats.size < sourceStats.size * 0.1] of doubles decides
  [10 * converted < source]. [0o666] is 438. *)
Definition cleanupSourceFile (sourcePath convertedPath : string) : M unit :=
try_catch
  (found <- existsSync convertedPath ;;
   if negb found then log LvWarning ConvertedNotFound
   else
     sourceStats <- statSync sourcePath ;;
     convertedStats <- statSync convertedPath ;;
     if 10 * stat_size convertedStats <? stat_size sourceStats then log LvWarning ConvertedTooSmall
     else if String.eqb (JS.toLowerCase (JS.extname sourcePath)) ".mp4" then
       log LvInfo CleaningSource ;;
       try_catch
         (unlinkSync E sourcePath ;;
          log LvSuccess SourceCleaned)
         (fun deleteError =>
            if is_permission_error deleteError then
              log LvInfo FixingBeforeCleanup ;;
              try_catch
                (chmodSync E sourcePath 438 ;;
                 unlinkSync E sourcePath ;;
                 log LvSuccess SourceCleanedAfterFix)
                (fun secondError => log LvWarning (CouldNotDelete secondError))
            else throw deleteError)
     else ret tt)
  (fun error => log LvWarning (CleanupFailed error)).

(** The arguments with which [convertWithHEVC] runs ffmpeg. *)
Definition hevc_args (inputPath outputPath : string) (useFallback : bool) : list string :=
let videoCodec := if useFallback then "libx265" else "hevc_videotoolbox" in
let pixelFormat := if useFallback then "yuv420p10le" else "yuv420p10le" in
[ "-i"; inputPath;
  "-c:v"; videoCodec;
  "-c:a"; "aac";
  "-tag:v"; "hvc1";
  "-movflags"; "+faststart";
  "-pix_fmt"; pixelFormat;
  "-r"; "60";
  "-vf"; "scale=3840:2160:flags=lanczos";
  "-b:v"; "50M";
  "-maxrate"; "60M";
  "-bufsize"; "100M" ]
++ (if useFallback
    then ["-profile:v"; "main10"; "-level"; "5.1"; "-preset"; "medium"]
    else [])
++ ["-progress"; "pipe:1"; "-y"; outputPath].

(** [convertWithHEVC] calls itself only from [useFallback = false],
  with [useFallback = true]: the recursion is on the number of
  retries left, and [useFallback] is "no retry left". The permission
  fix is not awaited by the source and its result is dropped; it is
  run here at the place where it is started.

  After an [error] event that names the accelerator, the handler
  starts the software conversion and leaves the promise to it; the
  handler of the [close] event, which follows at once with a code
  that is neither 0, 1 nor 69, rejects the promise before that
  conversion settles. The conversion so started is run here at the
  place where it is started, and what it settles with is dropped. *)
Fixpoint convertWithHEVC_from (retries : nat) (inputPath outputPath : string) : M string :=
let useFallback := match retries with O => true | S _ => false end in
log LvInfo (if useFallback then SoftwareEncoding else HardwareEncoding) ;;
ev <- spawn_ffmpeg E (hevc_args inputPath outputPath useFallback) ;;
match ev with
| ProcClose code =>
    if is_zero code then
      log LvSuccess ConversionCompleted ;;
      found <- existsSync outputPath ;;
      if found then
        stats <- statSync outputPath ;;
        fixFilePermissions outputPath ;;
        ret outputPath
      else throw OutputNotFound
    else
      match retries with
      | S remaining =>
          if is_fallback_code code then
            log LvWarning HardwareFailedRetrying ;;
            convertWithHEVC_from remaining inputPath outputPath
          else throw (ConversionFailed code)
      | O => throw (ConversionFailed code)
      end
| ProcError m uv =>
    match retries with
    | S remaining =>
        if includes m "videotoolbox" then
          log LvWarning AcceleratorMissingRetrying ;;
          try_catch
            (convertWithHEVC_from remaining inputPath outputPath ;; ret tt)
            (fun _ => ret tt) ;;
          throw (ConversionFailed (Some (Z.neg uv)))
        else throw (FFmpegError m)
    | O => throw (FFmpegError m)
    end
end.

Definition convertWithHEVC (inputPath outputPath : string) (useFallback : bool) : M string :=
convertWithHEVC_from (if useFallback then 0%nat else 1%nat) inputPath outputPath.

Definition convertToMov (inputPath : string) : M string :=
let outputPath := JS.replace_ext inputPath ".mov" in
found <- existsSync outputPath ;;
if found then
  log LvSuccess MovAlreadyExists ;;
  ret outputPath
else
  duration <- getVideoDuration inputPath ;;
  let minDuration := CONFIG.minRecommendedDuration in
  processedInputPath <-
    (if number_lt duration (number_of_Z minDuration) then
       log LvInfo ExtendingVideo ;;
       extendVideo inputPath minDuration
     else
       log LvInfo DurationOk ;;
       ret inputPath) ;;
  convertedPath <- convertWithHEVC processedInputPath outputPath false ;;
  (if negb (String.eqb processedInputPath inputPath) then
     try_catch
       (unlinkSync E processedInputPath ;;
        log LvInfo TemporaryCleaned)
       (fun e => log LvWarning (TemporaryNotCleaned e))
   else ret tt) ;;
  cleanupSourceFile inputPath convertedPath ;;
  ret convertedPath.

End VideoDownloader.
End VideoDownloader.

(** ** The wallpaper manager *)

Module WallpaperManager.

(** An entry of the list [getExistingWallpapers] returns. *)
Record wallpaper := mkWallpaper {
name : string;
path : string;
size : Z;
created : Z;
modified : Z
}.

Section WallpaperManager.
Variable E : Env.

Definition customerDir : string :=
"/Library/Application Support/com.apple.idleassetsd/Customer".
Definition targetDir : string := JS.path_join customerDir "4KSDR240FPS".
Definition backupDir : string :=
JS.path_join (JS.path_join (cwd E) "outputs") "wallpaper_backups".
(* 30 seconds of checking *)
Definition retryAttempts : nat := 30.
(* 1 second intervals *)
Definition retryInterval : Z := 1000.

Definition testFile : string := JS.path_join targetDir ".test_write".

Definition checkCustomerDirectory : M bool :=
try_catch
  (found <- existsSync customerDir ;;
   if negb found then
     log LvError CustomerDirNotFound ;;
     ret false
   else
     (foundTarget <- existsSync targetDir ;;
      if negb foundTarget then
        log LvWarning TargetDirCreated ;;
        mkdirSync E targetDir
      else ret tt) ;;
     try_catch
       (writeFileSync E testFile "test" ;;
        unlinkSync E testFile ;;
        log LvSuccess DirectoryAccessible ;;
        ret true)
       (fun _ =>
          log LvError NoWritePermissions ;;
          ret false))
  (fun e =>
     log LvError (ErrorCheckingDirectory e) ;;
     ret false).

Fixpoint mapM {A B} (f : A -> M B) (l : list A) : M (list B) :=
match l with
| [] => ret []
| a :: l' =>
    b <- f a ;;
    bs <- mapM f l' ;;
    ret (b :: bs)
end.

(** [list.sort((a, b) => b.modified - a.modified)]: most recently
  modified first; entries of equal date keep their order (the sort
  of an array is stable). *)
Fixpoint insert_by_modified (x : wallpaper) (l : list wallpaper) : list wallpaper :=
match l with
| [] => [x]
| y :: l' =>
    if modified y <=? modified x then x :: l
    else y :: insert_by_modified x l'
end.

Definition sort_by_modified (l : list wallpaper) : list wallpaper :=
foldr insert_by_modified [] l.

Definition is_video (file : string) : bool :=
JS.endsWith file ".mov" || JS.endsWith file ".mp4".

Definition describe (file : string) : M wallpaper :=
let filePath := JS.path_join targetDir file in
stats <- statSync filePath ;;
ret (mkWallpaper file filePath (stat_size stats) (birthtime stats) (mtime stats)).

Definition getExistingWallpapers : M (list wallpaper) :=
try_catch
  (found <- existsSync targetDir ;;
   if negb found then ret []
   else
     listed <- readdirSync targetDir ;;
     files <- mapM describe (List.filter is_video listed) ;;
     ret (sort_by_modified files))
  (fun e =>
     log LvError (ErrorReadingDirectory e) ;;
     ret []).

Definition isTargetDirectoryEmpty : M bool :=
wallpapers <- getExistingWallpapers ;;
ret (Nat.eqb (length wallpapers) 0).

Definition openWallpaperSettings : M bool :=
failed <- exec E OpenWallpaperSettings ;;
if failed then
  log LvWarning SettingsNotOpened ;;
  ret false
else
  log LvSuccess SettingsOpened ;;
  ret true.

Definition openFinderAtWallpaperDir : M bool :=
failed <- exec E (OpenFinder targetDir) ;;
if failed then
  log LvWarning FinderNotOpened ;;
  ret false
else
  log LvSuccess FinderOpened ;;
  ret true.

(** The loop of [waitForWallpaperSetup], on the attempts that remain
  ([retryAttempts - attempts]). *)
Fixpoint waitLoop (remaining : nat) : M wallpaper :=
match remaining with
| O => throw SeedTimeout
| S remaining' =>
    wallpapers <- getExistingWallpapers ;;
    match wallpapers with
    | first :: _ =>
        log LvSuccess (DetectedWallpaper (name first)) ;;
        ret first
    | [] =>
        sleep E retryInterval ;;
        waitLoop remaining'
    end
end.

Definition waitForWallpaperSetup : M wallpaper := waitLoop retryAttempts.

Definition now : M Z := fun w => mkRun (Resolved (clock w)) w [].

(** [None] is [null]. *)
Definition createBackup (wallpaperFile : wallpaper) : M (option string) :=
try_catch
  (Utils.ensureDirectoryExists E backupDir ;;
   date <- now ;;
   let timestamp := JS.replace_colons_dots (toISOString E date) in
   let backupName :=
     JS.parse_name (name wallpaperFile) +:+ "_backup_" +:+ timestamp +:+ ".mov" in
   let backupPath := JS.path_join backupDir backupName in
   copyFileSync E (path wallpaperFile) backupPath ;;
   permissionFixed <- Utils.fixFilePermissions E backupPath ;;
   (if permissionFixed then log LvSuccess (BackupCreatedFixed backupName)
    else
      log LvSuccess (BackupCreated backupName) ;;
      log LvWarning BackupMayNeedSudo) ;;
   ret (Some backupPath))
  (fun e =>
     log LvWarning (CouldNotCreateBackup e) ;;
     ret None).

(** The two commands are started together; the one that completes
  last is taken to be the one started last. *)
Definition restartWallpaperDaemon : M unit :=
exec E LaunchctlUnload ;;
failed <- exec E LaunchctlLoad ;;
if failed then log LvWarning DaemonNotRestarted
else log LvSuccess DaemonRestarted.

Definition forceWallpaperRefresh : M unit :=
failed <- exec E PictureRotation ;;
if failed then
  touchFailed <- exec E (TouchMovFiles targetDir) ;;
  if touchFailed then log LvWarning RefreshNotForced
  else log LvSuccess FilesTouched
else log LvSuccess RefreshTriggered.

Definition refreshWallpaperSystem : M unit :=
try_catch
  (restartWallpaperDaemon ;;
   forceWallpaperRefresh ;;
   log LvSuccess SystemRefreshed)
  (fun e => log LvWarning (SystemNotRefreshed e)).

Definition installWallpaper (videoPath targetWallpaperName : string) : M bool :=
try_catch
  (let targetPath := JS.path_join targetDir targetWallpaperName in
   log LvInfo (InstallingWallpaper targetWallpaperName) ;;
   copyFileSync E videoPath targetPath ;;
   found <- existsSync targetPath ;;
   if found then
     stats <- statSync targetPath ;;
     log LvSuccess WallpaperInstalled ;;
     refreshWallpaperSystem ;;
     ret true
   else throw InstallVerificationFailed)
  (fun e =>
     log LvError (FailedToInstall e) ;;
     ret false).

(** [answer.toLowerCase() === 'c' || answer.toLowerCase() === 'cancel']. *)
Definition is_cancel (answer : string) : bool :=
String.eqb (JS.toLowerCase answer) "c" || String.eqb (JS.toLowerCase answer) "cancel".

(** [answer.toLowerCase() === 'y' || answer.toLowerCase() === 'yes']. *)
Definition is_yes (answer : string) : bool :=
String.eqb (JS.toLowerCase answer) "y" || String.eqb (JS.toLowerCase answer) "yes".

(** The closure [promptUser] of [selectWallpaperFromList]. It calls
  itself after each invalid answer; every call consumes one line of
  input, so [fuel] above the number of lines left is never used up. *)
Fixpoint promptUser (fuel : nat) (wallpapers : list wallpaper) : M (option wallpaper) :=
match fuel with
| O => fun w => mkRun Pending w []
| S fuel' =>
    answer <- question (SelectPrompt (length wallpapers)) ;;
    if is_cancel answer then ret None
    else
      match JS.parseInt answer with
      | None =>
          log LvWarning InvalidChoice ;;
          promptUser fuel' wallpapers
      | Some choice =>
          if (choice <? 1) || (Z.of_nat (length wallpapers) <? choice) then
            log LvWarning InvalidChoice ;;
            promptUser fuel' wallpapers
          else ret (wallpapers !! Z.to_nat (choice - 1))
      end
end.

(** Finder is opened without waiting for it. *)
Definition selectWallpaperFromList (wallpapers : list wallpaper) : M (option wallpaper) :=
openFinderAtWallpaperDir ;;
fun w => promptUser (S (length (stdin w))) wallpapers w.

Definition getUserConfirmation (selectedWallpaper : wallpaper) (newVideoPath : string)
: M bool :=
log LvWarning (AboutToReplace (name selectedWallpaper)) ;;
newStats <- statSync newVideoPath ;;
answer <- question ConfirmPrompt ;;
ret (is_yes answer).

Definition setupWallpaper (videoPath : string) : M bool :=
try_catch
  (hasAccess <- checkCustomerDirectory ;;
   if negb hasAccess then throw CannotAccess
   else
     empty <- isTargetDirectoryEmpty ;;
     if empty then
       log LvWarning DirectoryEmpty ;;
       openWallpaperSettings ;;
       wallpaperFile <- waitForWallpaperSetup ;;
       createBackup wallpaperFile ;;
       success <- installWallpaper videoPath (name wallpaperFile) ;;
       ret success
     else
       existingWallpapers <- getExistingWallpapers ;;
       match existingWallpapers with
       | [] =>
           log LvWarning NoVideoFiles ;;
           openWallpaperSettings ;;
           wallpaperFile <- waitForWallpaperSetup ;;
           createBackup wallpaperFile ;;
           success <- installWallpaper videoPath (name wallpaperFile) ;;
           ret success
       | [targetWallpaper] =>
           confirmed <- getUserConfirmation targetWallpaper videoPath ;;
           if negb confirmed then
             log LvInfo CancelledByUser ;;
             ret false
           else
             createBackup targetWallpaper ;;
             success <- installWallpaper videoPath (name targetWallpaper) ;;
             ret success
       | _ =>
           log LvInfo (FoundWallpapers (length existingWallpapers)) ;;
           selected <- selectWallpaperFromList existingWallpapers ;;
           match selected with
           | None =>
               log LvInfo CancelledByUser ;;
               ret false
           | Some selectedWallpaper =>
               confirmed <- getUserConfirmation selectedWallpaper videoPath ;;
               if negb confirmed then
                 log LvInfo CancelledByUser ;;
                 ret false
               else
                 createBackup selectedWallpaper ;;
                 success <- installWallpaper videoPath (name selectedWallpaper) ;;
                 ret success
           end
       end)
  (fun e =>
     log LvError (SetupFailed e) ;;
     ret false).

End WallpaperManager.
End WallpaperManager.

(** * Vocabulary of the properties *)

(** The path a call of [fs] writes to. *)
Definition written (op : fsop) : string :=
  match op with
  | OpMkdir p | OpWriteFile p _ | OpUnlink p | OpChmod p _ => p
  | OpCopyFile _ dst => dst
  end.

(** The calls of [fs] of a trace that change files, with their results. *)
Definition fs_calls (t : list event) : list (fsop * option errno) :=
  omap (fun ev => match ev with EvFs op r => Some (op, r) | _ => None end) t.

(** The processes a trace starts, with their arguments. *)
Definition spawned (t : list event) : list (string * list string) :=
  omap (fun ev => match ev with EvSpawn c a => Some (c, a) | _ => None end) t.

(** The commands that a trace hands to [exec], in order. *)
Definition commands (t : list event) : list command :=
  omap (fun ev => match ev with EvExec c => Some c | _ => None end) t.

(** The only command a trace hands to [exec], if any, opens the target
    directory in Finder. *)
Definition finder_only (t : list event) : Prop :=
  Forall (fun ev => forall c, ev = EvExec c -> c = OpenFinder WallpaperManager.targetDir) t.

(** The questions a trace puts to the user and the answers it reads. *)
Definition dialogue (t : list event) : list event :=
  List.filter (fun ev => match ev with EvQuestion _ | EvAnswer _ _ => true | _ => false end) t.

Definition is_permission (e : errno) : bool :=
  match e with EPERM | EACCES => true | _ => false end.

(** What [cleanupSourceFile] requires before it deletes the source. *)
Definition safe_to_delete (w : World) (sourcePath convertedPath : string) : Prop :=
  exists src conv,
    fs w !! sourcePath = Some src /\ fs w !! convertedPath = Some conv /\
    stat_size src <= 10 * stat_size conv /\
    JS.toLowerCase (JS.extname sourcePath) = ".mp4".

(** The ways in which [cleanupSourceFile] can touch the files. *)
Definition cleanup_shape (w w' : World) (t : list event) (s : string) : Prop :=
  (fs_calls t = [] /\ fs w' = fs w) \/
  (fs_calls t = [(OpUnlink s, None)] /\ fs w' = delete s (fs w)) \/
  (exists e, is_permission e = false /\
     fs_calls t = [(OpUnlink s, Some e)] /\ fs w' = fs w) \/
  (exists e e', is_permission e = true /\
     fs_calls t = [(OpUnlink s, Some e); (OpChmod s 438, Some e')] /\ fs w' = fs w) \/
  (exists e res, is_permission e = true /\
     fs_calls t = [(OpUnlink s, Some e); (OpChmod s 438, None); (OpUnlink s, res)] /\
     (forall q, q <> s -> fs w' !! q = fs w !! q) /\
     (res = None -> fs w' !! s = None) /\
     (res <> None -> present (fs w' !! s) = true)).


(** The argument lists of the ffmpeg runs of a trace, in order. *)
Definition ffmpeg_runs (t : list event) : list (list string) :=
  omap (fun ev => match ev with
                  | EvSpawn c a => if String.eqb c "ffmpeg" then Some a else None
                  | _ => None
                  end) t.

(** [a <= b] on numbers. *)
Definition number_le (a b : number) : bool :=
  match a, b with
  | NaN, _ | _, NaN => false
  | NegInfinity, _ => true
  | _, PosInfinity => true
  | _, NegInfinity => false
  | PosInfinity, _ => false
  | Finite x, Finite y => Qle_bool x y
  end.


(** [f'] is [f], up to the mode bits of [p]. *)
Definition mode_only (p : string) (f f' : gmap string inode) : Prop :=
  f' = f \/
  exists i, f !! p = Some i /\
    f' = <[p := mkInode (kind_of i) (data i) (birthtime i) (mtime i) 436]> f.

(** An ffmpeg run with arguments [args] from [w] exits with code 0 and
    leaves a file at [outputPath]. *)
Definition attempt_ok (E : Env) (args : list string) (w : World) (outputPath : string) : Prop :=
  fst (ffmpeg E args w) = ProcClose (Some 0) /\
  present (snd (ffmpeg E args w) !! outputPath) = true.

(** The error with which one ffmpeg run of [convertWithHEVC] that is not
    followed by a retry ends the conversion. *)
Definition settle_error (ev : proc_event) : error :=
  match ev with
  | ProcClose code =>
      if VideoDownloader.is_zero code then OutputNotFound else ConversionFailed code
  | ProcError m _ => FFmpegError m
  end.

(** The arguments with which [getVideoDuration] runs ffprobe. *)
Definition probe_args (inputPath : string) : list string :=
  ["-v"; "quiet"; "-print_format"; "json"; "-show_format"; inputPath].

(** The path of the extended copy of [inputPath]. *)
Definition extended_path (inputPath : string) : string :=
  JS.replace_ext inputPath "_extended.mp4".

(** The inventory of the target directory as [getExistingWallpapers]
    reports it in the world [w]. *)
Definition scan (w : World) : list WallpaperManager.wallpaper :=
  match out (WallpaperManager.getExistingWallpapers w) with
  | Resolved l => l
  | _ => []
  end.

(** The world after [n] polling intervals of 1000 ms. *)
Fixpoint poll_world (E : Env) (n : nat) (w : World) : World :=
  match n with
  | O => w
  | S n' => poll_world E n' (final (sleep E 1000 w))
  end.

(** The durations of the sleeps of a trace, in order. *)
Definition sleeps (t : list event) : list Z :=
  omap (fun ev => match ev with EvSleep ms => Some ms | _ => None end) t.

(** A trace of log lines only. *)
Definition only_logs (t : list event) : Prop :=
  Forall (fun ev => exists l m, ev = EvLog l m) t.

(** ** The selection flow *)

(** The answer to the selection prompt over [n] entries names one of
    them: [parseInt] finds a number between 1 and [n]. *)
Definition valid_choice (n : nat) (answer : string) : bool :=
  match JS.parseInt answer with
  | Some choice => negb ((choice <? 1) || (Z.of_nat n <? choice))
  | None => false
  end.

(** The answers that cancel at the selection prompt: [c] or [cancel],
    in any case of letters. *)
Definition cancel_token (a : string) : bool :=
  String.eqb (JS.toLowerCase a) "c" || String.eqb (JS.toLowerCase a) "cancel".

(** The answers that confirm: [y] or [yes], in any case of letters. *)
Definition says_yes (a : string) : bool :=
  String.eqb (JS.toLowerCase a) "y" || String.eqb (JS.toLowerCase a) "yes".

(** The user gives up: a cancel token at the selection prompt, or
    anything but yes at the confirmation prompt. *)
Definition cancels (ev : event) : bool :=
  match ev with
  | EvAnswer (SelectPrompt _) a => cancel_token a
  | EvAnswer ConfirmPrompt a => negb (says_yes a)
  | _ => false
  end.

Definition user_cancelled (t : list event) : Prop :=
  exists ev, ev ∈ t /\ cancels ev = true.

(** The calls with which [checkCustomerDirectory] probes the target
    directory. *)
Definition is_probe (op : fsop) : Prop :=
  op = OpMkdir WallpaperManager.targetDir \/
  op = OpWriteFile WallpaperManager.testFile "test" \/
  op = OpUnlink WallpaperManager.testFile.

(** The events of the flow up to the choice of the wallpaper to
    replace: the probe, the helper applications, the polling, the
    dialogue and log lines. *)
Definition selection_event (ev : event) : Prop :=
  match ev with
  | EvFs op _ => is_probe op
  | EvSpawn _ _ => False
  | EvExec c => c = OpenWallpaperSettings \/ c = OpenFinder WallpaperManager.targetDir
  | EvSleep ms => ms = WallpaperManager.retryInterval
  | EvQuestion _ | EvAnswer _ _ => True
  | EvLog _ m =>
      match m with
      | CouldNotCreateBackup _ | BackupCreated _ | BackupCreatedFixed _
      | InstallingWallpaper _ | WallpaperInstalled | FailedToInstall _ => False
      | _ => True
      end
  end.

(** The events of a backup followed by an install. *)
Definition replace_event (E : Env) (videoPath : string) (target : WallpaperManager.wallpaper)
    (ev : event) : Prop :=
  match ev with
  | EvFs (OpMkdir p) _ => p = WallpaperManager.backupDir E
  | EvFs (OpCopyFile src dst) _ =>
      (src = WallpaperManager.path target /\
       exists n, dst = JS.path_join (WallpaperManager.backupDir E) n) \/
      (src = videoPath /\
       dst = JS.path_join WallpaperManager.targetDir (WallpaperManager.name target))
  | EvFs (OpChmod p m) _ =>
      m = 436 /\ exists n, p = JS.path_join (WallpaperManager.backupDir E) n
  | EvFs _ _ => False
  | EvSpawn c _ => c = "chown"
  | EvExec c =>
      c = LaunchctlUnload \/ c = LaunchctlLoad \/ c = PictureRotation \/
      c = TouchMovFiles WallpaperManager.targetDir
  | EvSleep _ | EvQuestion _ | EvAnswer _ _ => False
  | EvLog _ m =>
      match m with
      | CancelledByUser | InvalidChoice | AboutToReplace _ | DetectedWallpaper _ => False
      | _ => True
      end
  end.

(** The backup of [target] followed by the install of [videoPath] under
    its name, the way [setupWallpaper] ends on each of its branches. *)
Definition replace (E : Env) (videoPath : string) (target : WallpaperManager.wallpaper)
  : M bool :=
  WallpaperManager.createBackup E target ;;
  success <- WallpaperManager.installWallpaper E videoPath (WallpaperManager.name target) ;;
  ret success.

(** The flow of [setupWallpaper] up to the choice: [Some target] when a
    wallpaper was chosen and confirmed (or detected after seeding),
    [None] when the user cancelled. *)
Definition choose (E : Env) (videoPath : string) : M (option WallpaperManager.wallpaper) :=
  hasAccess <- WallpaperManager.checkCustomerDirectory E ;;
  if negb hasAccess then throw CannotAccess
  else
    empty <- WallpaperManager.isTargetDirectoryEmpty ;;
    if empty then
      log LvWarning DirectoryEmpty ;;
      WallpaperManager.openWallpaperSettings E ;;
      wallpaperFile <- WallpaperManager.waitForWallpaperSetup E ;;
      ret (Some wallpaperFile)
    else
      existingWallpapers <- WallpaperManager.getExistingWallpapers ;;
      match existingWallpapers with
      | [] =>
          log LvWarning NoVideoFiles ;;
          WallpaperManager.openWallpaperSettings E ;;
          wallpaperFile <- WallpaperManager.waitForWallpaperSetup E ;;
          ret (Some wallpaperFile)
      | [targetWallpaper] =>
          confirmed <- WallpaperManager.getUserConfirmation targetWallpaper videoPath ;;
          if negb confirmed then ret None else ret (Some targetWallpaper)
      | _ =>
          log LvInfo (FoundWallpapers (length existingWallpapers)) ;;
          selected <- WallpaperManager.selectWallpaperFromList E existingWallpapers ;;
          match selected with
          | None => ret None
          | Some selectedWallpaper =>
              confirmed <- WallpaperManager.getUserConfirmation selectedWallpaper videoPath ;;
              if negb confirmed then ret None else ret (Some selectedWallpaper)
          end
      end.

(** [setupWallpaper], as the choice followed by the replacement. *)
Definition setup_in_phases (E : Env) (videoPath : string) : M bool :=
  try_catch
    (chosen <- choose E videoPath ;;
     match chosen with
     | None =>
         log LvInfo CancelledByUser ;;
         ret false
     | Some target => replace E videoPath target
     end)
    (fun e =>
       log LvError (SetupFailed e) ;;
       ret false).

(** What a scan of the target directory can log. *)
Definition scan_trace (t : list event) : Prop :=
  t = [] \/ exists e, t = [EvLog LvError (ErrorReadingDirectory e)].

(** The rounds of the selection prompt over the lines the user types:
    the outcome, the lines left unread, and the dialogue. A line that
    neither cancels nor names an entry costs a warning and one more
    round. *)
Fixpoint prompt_rounds (wallpapers : list WallpaperManager.wallpaper) (answers : list string)
  : outcome (option WallpaperManager.wallpaper) * list string * list event :=
  let q := SelectPrompt (length wallpapers) in
  match answers with
  | [] => (Pending, [], [EvQuestion q])
  | a :: rest =>
      if WallpaperManager.is_cancel a then
        (Resolved None, rest, [EvQuestion q; EvAnswer q a])
      else if valid_choice (length wallpapers) a then
        (Resolved (wallpapers !! Z.to_nat (default 0 (JS.parseInt a) - 1)), rest,
         [EvQuestion q; EvAnswer q a])
      else
        let '(o, r, t) := prompt_rounds wallpapers rest in
        (o, r, EvQuestion q :: EvAnswer q a :: EvLog LvWarning InvalidChoice :: t)
  end.

(** A line of input that is a number written in decimal digits. *)
Definition is_numeral (s : string) : bool :=
  match JS.chars s with
  | [] => false
  | l => forallb (fun c => let n := nat_of_ascii c in Nat.leb 48 n && Nat.leb n 57) l
  end.

(** The events of the permission normalizer on [p]. *)
Definition perm_event (p : string) (ev : event) : Prop :=
  (exists args, ev = EvSpawn "chown" args) \/ (exists r, ev = EvFs (OpChmod p 436) r).

(** * Sample environments and worlds *)

Module Examples.
Import WallpaperManager.

Definition file (content : string) (date : Z) : inode :=
  mkInode RegularFile content date date 420.

Definition folder (date : Z) : inode := mkInode Directory "" date date 493.

Definition no_fault (op : fsop) (w : World) : option errno := None.

(** An operating system that lets nothing be written below
    [<cwd>/outputs/wallpaper_backups]: a backup root that is read-only. *)
Definition read_only_backups (cwd : string) (op : fsop) (w : World) : option errno :=
  if JS.startsWith (written op) (cwd +:+ "/outputs/wallpaper_backups") then Some EACCES
  else None.

(** The last argument of a command line: where ffmpeg writes. *)
Definition last_arg (args : list string) : string := List.last args "".

(** An ffmpeg that exits with [code] and leaves [content] at its
    output path. *)
Definition ffmpeg_writes (code : Z) (content : string) (args : list string) (w : World)
  : proc_event * gmap string inode :=
  (ProcClose (Some code), <[last_arg args := file content (clock w)]> (fs w)).

(** An ffmpeg that exits with [code] and writes nothing. *)
Definition ffmpeg_idle (code : Z) (args : list string) (w : World)
  : proc_event * gmap string inode :=
  (ProcClose (Some code), fs w).


(** An ffmpeg that loops its input well and fails every transcode with
    [code]. *)
Definition ffmpeg_loops_only (code : Z) (args : list string) (w : World)
  : proc_event * gmap string inode :=
  if existsb (String.eqb "-stream_loop") args then ffmpeg_writes 0 "looped" args w
  else ffmpeg_idle code args w.

(** An environment where ffprobe reports [duration] seconds, every
    command succeeds and nothing happens to the files during a sleep. *)
Definition calm (cwd : string) (fault : fsop -> World -> option errno)
    (ffmpeg : list string -> World -> proc_event * gmap string inode)
    (duration : Z) : Env :=
  mkEnv fault ffmpeg
        (fun _ _ => (ProcClose (Some 0), "{}"))
        (fun _ => Some (number_of_Z duration))
        (fun _ _ => ProcClose (Some 0))
        (fun _ _ => false)
        fs
        ∅
        cwd
        (fun _ => "2024-01-01T00:00:00.000Z").

Definition desk : Env := calm "/work" no_fault (ffmpeg_writes 0 "hevc") 90.

Definition locked_backups : Env :=
  calm "/work" (read_only_backups "/work") (ffmpeg_writes 0 "hevc") 90.

Definition horizon : string := JS.path_join targetDir "horizon.mov".
Definition sequoia : string := JS.path_join targetDir "sequoia.mov".
Definition clip : string := "/work/outputs/clip.mov".

(** A target directory with one wallpaper, and a backup directory. *)
Definition one_wallpaper : gmap string inode :=
  <[customerDir := folder 0]>
  (<[targetDir := folder 0]>
  (<[horizon := file "apple" 5]>
  (<["/work/outputs/wallpaper_backups" := folder 1]>
  (<[clip := file "mine" 9]> ∅)))).

Definition two_wallpapers : gmap string inode :=
  <[sequoia := file "trees" 7]> one_wallpaper.

Definition no_wallpaper : gmap string inode := delete horizon one_wallpaper.

Definition world (files : gmap string inode) (answers : list string) : World :=
  mkWorld files 100 0 answers.

Definition wp_horizon : wallpaper := mkWallpaper "horizon.mov" horizon 5 5 5.
Definition wp_sequoia : wallpaper := mkWallpaper "sequoia.mov" sequoia 5 7 7.

End Examples.

(** * Reasoning about runs *)

(** [wp m w Q]: the run of [m] from [w] ends in an outcome, a world and
    a trace that satisfy [Q]. *)
Definition wp {A} (m : M A) (w : World) (Q : outcome A -> World -> list event -> Prop) : Prop :=
  Q (out (m w)) (final (m w)) (trace (m w)).

(** The continuation of a postcondition through [bind]. *)
Definition after {A B} (k : A -> M B) (Q : outcome B -> World -> list event -> Prop)
  : outcome A -> World -> list event -> Prop :=
  fun o w1 t1 =>
    match o with
    | Resolved a => wp (k a) w1 (fun o' w' t2 => Q o' w' (t1 ++ t2)%list)
    | Rejected e => Q (Rejected e) w1 t1
    | Pending => Q Pending w1 t1
    end.

(** The continuation of a postcondition through [try_catch]. *)
Definition caught {A} (h : error -> M A) (Q : outcome A -> World -> list event -> Prop)
  : outcome A -> World -> list event -> Prop :=
  fun o w1 t1 =>
    match o with
    | Rejected e => wp (h e) w1 (fun o' w' t2 => Q o' w' (t1 ++ t2)%list)
    | _ => Q o w1 t1
    end.

Section Rules.
Variable E : Env.
Context {A B : Type}.
Implicit Types (Q : outcome A -> World -> list event -> Prop).

Lemma wp_bind (m : M B) (k : B -> M A) w Q :
  wp m w (after k Q) -> wp (bind m k) w Q.
Proof.
  unfold wp, after, bind. destruct (m w) as [[b|e|] w1 t1]; cbn; auto.
Qed.

Lemma wp_try_catch (m : M A) h w Q :
  wp m w (caught h Q) -> wp (try_catch m h) w Q.
Proof.
  unfold wp, caught, try_catch. destruct (m w) as [[b|e|] w1 t1]; cbn; auto.
Qed.

Lemma wp_mono (m : M A) w (Q Q' : outcome A -> World -> list event -> Prop) :
  wp m w Q -> (forall o w' t, Q o w' t -> Q' o w' t) -> wp m w Q'.
Proof. unfold wp. auto. Qed.

Lemma wp_ret (a : A) w Q : Q (Resolved a) w [] -> wp (ret a) w Q.
Proof. auto. Qed.

Lemma wp_throw e w Q : Q (Rejected e) w [] -> wp (throw e) w Q.
Proof. auto. Qed.

Lemma wp_run (m : M A) w Q :
  wp m w Q -> Q (out (m w)) (final (m w)) (trace (m w)).
Proof. auto. Qed.
End Rules.

Section PrimitiveRules.
Variable E : Env.

Lemma wp_log l m w (Q : outcome unit -> World -> list event -> Prop) :
  Q (Resolved tt) w [EvLog l m] -> wp (log l m) w Q.
Proof. auto. Qed.

Lemma wp_existsSync p w (Q : outcome bool -> World -> list event -> Prop) :
  Q (Resolved (present (fs w !! p))) w [] -> wp (existsSync p) w Q.
Proof. auto. Qed.

Lemma wp_statSync p w (Q : outcome inode -> World -> list event -> Prop) :
  (forall i, fs w !! p = Some i -> Q (Resolved i) w []) ->
  (fs w !! p = None -> Q (Rejected (StatError ENOENT p)) w []) ->
  wp (statSync p) w Q.
Proof.
  unfold wp, statSync. intros Hs Hn. destruct (fs w !! p); cbn; auto.
Qed.

(** A call that changes files either fails, leaving the files as they
    are, or applies [apply_op]. *)
Lemma wp_mutate op w (Q : outcome unit -> World -> list event -> Prop) :
  (forall e, fault E op w = Some e \/ (fault E op w = None /\ apply_op op (clock w) (fs w) = inl e) ->
             Q (Rejected (FsError e op)) (step w) [EvFs op (Some e)]) ->
  (forall files, fault E op w = None -> apply_op op (clock w) (fs w) = inr files ->
                 Q (Resolved tt) (with_fs files w) [EvFs op None]) ->
  wp (mutate E op) w Q.
Proof.
  unfold wp, mutate. intros Hf Hs.
  destruct (fault E op w) as [e|] eqn:Hfault; cbn; [auto |].
  destruct (apply_op op (clock w) (fs w)) as [e|files] eqn:Happly; cbn; auto.
Qed.

Lemma wp_spawn_chown args w (Q : outcome proc_event -> World -> list event -> Prop) :
  Q (Resolved (chown E args w)) (step w) [EvSpawn "chown" args] ->
  wp (spawn_chown E args) w Q.
Proof. auto. Qed.

Lemma wp_spawn_ffprobe args w (Q : outcome (proc_event * string) -> World -> list event -> Prop) :
  Q (Resolved (ffprobe E args w)) (step w) [EvSpawn "ffprobe" args] ->
  wp (spawn_ffprobe E args) w Q.
Proof. auto. Qed.

Lemma wp_spawn_ffmpeg args w (Q : outcome proc_event -> World -> list event -> Prop) :
  Q (Resolved (fst (ffmpeg E args w))) (with_fs (snd (ffmpeg E args w)) w)
    [EvSpawn "ffmpeg" args] ->
  wp (spawn_ffmpeg E args) w Q.
Proof. unfold wp, spawn_ffmpeg. destruct (ffmpeg E args w); auto. Qed.

Lemma wp_exec c w (Q : outcome bool -> World -> list event -> Prop) :
  Q (Resolved (exec_error E c w))
    (with_fs (match c with
              | TouchMovFiles dir =>
                  if exec_error E c w then fs w else touch_movs dir (clock w) (fs w)
              | _ => fs w
              end) w)
    [EvExec c] ->
  wp (exec E c) w Q.
Proof. auto. Qed.

Lemma wp_now w (Q : outcome Z -> World -> list event -> Prop) :
  Q (Resolved (clock w)) w [] -> wp WallpaperManager.now w Q.
Proof. auto. Qed.

Lemma wp_sleep ms w (Q : outcome unit -> World -> list event -> Prop) :
  Q (Resolved tt) (mkWorld (external E w) (clock w + ms) (S (tick w)) (stdin w)) [EvSleep ms] ->
  wp (sleep E ms) w Q.
Proof. auto. Qed.

Lemma wp_question q w (Q : outcome string -> World -> list event -> Prop) :
  (stdin w = [] -> Q Pending w [EvQuestion q]) ->
  (forall answer rest, stdin w = answer :: rest ->
     Q (Resolved answer) (mkWorld (fs w) (clock w) (S (tick w)) rest)
       [EvQuestion q; EvAnswer q answer]) ->
  wp (question q) w Q.
Proof.
  unfold wp, question. intros Hp Ha. destruct (stdin w); cbn; auto.
Qed.
End PrimitiveRules.

(** The specifications of the functions proved so far. *)
Ltac wp_spec := fail.

Ltac wp_rule :=
  first [ wp_spec | wp_prim ]
with wp_prim :=
  lazymatch goal with
  | |- wp (bind _ _) _ _ => apply wp_bind
  | |- wp (try_catch _ _) _ _ => apply wp_try_catch
  | |- wp (ret _) _ _ => apply wp_ret
  | |- wp (throw _) _ _ => apply wp_throw
  | |- wp (log _ _) _ _ => apply wp_log
  | |- wp (existsSync _) _ _ => apply wp_existsSync
  | |- wp (statSync ?p) _ _ =>
      apply wp_statSync; [intros ? ? | intros ?]
  | |- wp (mutate _ _) _ _ =>
      apply wp_mutate; [intros ? ? | intros ? ? ?]
  | |- wp (mkdirSync _ _) _ _ => unfold mkdirSync
  | |- wp (writeFileSync _ _ _) _ _ => unfold writeFileSync
  | |- wp (unlinkSync _ _) _ _ => unfold unlinkSync
  | |- wp (copyFileSync _ _ _) _ _ => unfold copyFileSync
  | |- wp (chmodSync _ _ _) _ _ => unfold chmodSync
  | |- wp (spawn_chown _ _) _ _ => apply wp_spawn_chown
  | |- wp (spawn_ffprobe _ _) _ _ => apply wp_spawn_ffprobe
  | |- wp (spawn_ffmpeg _ _) _ _ => apply wp_spawn_ffmpeg
  | |- wp (sleep _ _) _ _ => apply wp_sleep
  | |- wp WallpaperManager.now _ _ => apply wp_now
  | |- wp (exec _ _) _ _ => apply wp_exec; cbv beta iota
  | |- wp (question _) _ _ =>
      apply wp_question; [intros ? | intros ? ? ?]
  | |- wp (if ?b then _ else _) _ _ => destruct b eqn:?
  | |- wp (match ?x with _ => _ end) _ _ => destruct x eqn:?
  | |- after _ _ _ _ _ => unfold after at 1; cbv beta iota
  | |- caught _ _ _ _ _ => unfold caught at 1; cbv beta iota
  end.

Ltac wp_run := repeat wp_rule.

(** A sub-run kept by name. *)
Lemma wp_named {A} (m : M A) w (Q : outcome A -> World -> list event -> Prop) :
  Q (out (m w)) (final (m w)) (trace (m w)) -> wp m w Q.
Proof. auto. Qed.

(** * The file system calls *)

Section FileSystem.
Implicit Types (files : gmap string inode) (p q : string).

(** [mkdir -p] changes no path outside of the chain, and no path that
    exists. *)
Lemma make_dirs_frame now chain files files' q :
  make_dirs now chain files = inr files' -> q ∉ chain -> files' !! q = files !! q.
Proof.
  revert files'. induction chain as [|c chain IH]; intros files' H Hq; cbn in H.
  - by injection H as <-.
  - apply not_elem_of_cons in Hq as [Hqc Hq].
    destruct (files !! c) as [i|] eqn:Hc.
    + destruct (kind_of i); [discriminate|]. by injection H as <-.
    + destruct (make_dirs now chain files) as [e|files0]; [discriminate|].
      injection H as <-. rewrite lookup_insert_ne by done. by apply IH.
Qed.

Lemma make_dirs_keeps now chain files files' q i :
  make_dirs now chain files = inr files' -> files !! q = Some i -> files' !! q = Some i.
Proof.
  revert files'. induction chain as [|c chain IH]; intros files' H Hq; cbn in H.
  - by injection H as <-.
  - destruct (files !! c) as [j|] eqn:Hc.
    + destruct (kind_of j); [discriminate|]. by injection H as <-.
    + destruct (make_dirs now chain files) as [e|files0]; [discriminate|].
      injection H as <-. rewrite lookup_insert_ne by congruence. by apply IH.
Qed.

(** Below a directory that exists, [mkdir -p] creates one path. *)
Lemma make_dirs_below now p parent up files files' :
  make_dirs now (p :: parent :: up) files = inr files' ->
  files !! p = None -> present (files !! parent) = true ->
  files' = <[p := mkInode Directory EmptyString now now 493]> files.
Proof.
  intros H Hp Hparent. cbn in H. rewrite Hp in H.
  destruct (files !! parent) as [i|]; [|discriminate].
  destruct (kind_of i); [discriminate|]. by injection H as <-.
Qed.

Lemma apply_mkdir p now files files' :
  apply_op (OpMkdir p) now files = inr files' ->
  (forall q, q <> p -> q ∉ ancestors p -> files' !! q = files !! q) /\
  (forall q i, files !! q = Some i -> files' !! q = Some i) /\
  (forall parent, head (ancestors p) = Some parent -> present (files !! parent) = true ->
     forall q, q <> p -> files' !! q = files !! q).
Proof.
  cbn [apply_op]. intros H. destruct (files !! p) as [i|] eqn:Hp.
  { destruct (kind_of i); [discriminate|]. injection H as <-. auto. }
  split; [|split].
  - intros q Hq Hup. eapply make_dirs_frame; [exact H|].
    apply not_elem_of_cons. auto.
  - intros q i. by apply (make_dirs_keeps _ _ _ _ _ _ H).
  - intros parent Hchain Hparent q Hq.
    destruct (ancestors p) as [|parent' up]; [discriminate|]. injection Hchain as ->.
    rewrite (make_dirs_below _ _ _ _ _ _ H Hp Hparent). by rewrite lookup_insert_ne.
Qed.

(** What [mkdir -p] adds are directories. *)
Lemma make_dirs_lookup now chain files files' q s :
  make_dirs now chain files = inr files' -> files' !! q = Some s ->
  files !! q = Some s \/ kind_of s = Directory.
Proof.
  revert files'. induction chain as [|c chain IH]; intros files' H Hq; cbn in H.
  - injection H as <-. by left.
  - destruct (files !! c) as [j|] eqn:Hc.
    + destruct (kind_of j); [discriminate|]. injection H as <-. by left.
    + destruct (make_dirs now chain files) as [e|files0]; [discriminate|].
      injection H as <-. destruct (decide (q = c)) as [->|Hne].
      * rewrite lookup_insert_eq in Hq. injection Hq as <-. by right.
      * rewrite lookup_insert_ne in Hq by done. by eapply IH.
Qed.

Lemma apply_mkdir_file p now files files' q s :
  apply_op (OpMkdir p) now files = inr files' ->
  files' !! q = Some s -> kind_of s = RegularFile -> files !! q = Some s.
Proof.
  cbn [apply_op]. intros H Hq Hk. destruct (files !! p) as [i|] eqn:Hp.
  { destruct (kind_of i); [discriminate|]. by injection H as <-. }
  destruct (make_dirs_lookup _ _ _ _ _ _ H Hq) as [?|Hd]; [done|congruence].
Qed.

Lemma apply_mkdir_made p now files files' :
  apply_op (OpMkdir p) now files = inr files' ->
  exists d, files' !! p = Some d /\ kind_of d = Directory.
Proof.
  cbn [apply_op]. intros H. destruct (files !! p) as [i|] eqn:Hp.
  { destruct (kind_of i) eqn:Hk; [discriminate|]. injection H as <-. eauto. }
  cbn [make_dirs] in H. rewrite Hp in H.
  destruct (make_dirs now (ancestors p) files) as [e|files0]; [discriminate|].
  injection H as <-. rewrite lookup_insert_eq. eauto.
Qed.

(** A call changes no path but the one it writes to; [mkdir], which is
    recursive, may also create the directories above its path. *)
Lemma apply_op_frame op now files files' q :
  apply_op op now files = inr files' -> q <> written op ->
  (forall p, op = OpMkdir p -> q ∉ ancestors p) ->
  files' !! q = files !! q.
Proof.
  intros H Hq Hup. destruct op as [p| | | |].
  { by apply (apply_mkdir p now files files' H); [|apply Hup]. }
  all: cbn in *;
    repeat match type of H with
      | match ?x with _ => _ end = _ => destruct x eqn:?
      end; inversion H; subst; try reflexivity;
    first [ by rewrite lookup_insert_ne | by rewrite lookup_delete_ne ].
Qed.

Lemma apply_unlink p now files files' :
  apply_op (OpUnlink p) now files = inr files' ->
  files' = delete p files /\ exists i, files !! p = Some i.
Proof.
  cbn. destruct (files !! p) as [i|] eqn:Hp; [|discriminate].
  destruct (kind_of i); inversion 1; eauto.
Qed.

Lemma apply_chmod p m now files files' :
  apply_op (OpChmod p m) now files = inr files' ->
  exists i, files !! p = Some i /\
    files' = <[p := mkInode (kind_of i) (data i) (birthtime i) (mtime i) m]> files.
Proof.
  cbn. destruct (files !! p) as [i|] eqn:Hp; [|discriminate].
  inversion 1; eauto.
Qed.

Lemma apply_copy src dst now files files' :
  apply_op (OpCopyFile src dst) now files = inr files' ->
  exists s i, files !! src = Some s /\ kind_of s = RegularFile /\
    files' = <[dst := i]> files /\ data i = data s /\ mtime i = now /\
    kind_of i = RegularFile.
Proof.
  cbn. destruct (files !! src) as [s|] eqn:Hs; [|discriminate].
  destruct (kind_of s) eqn:Hk; [|discriminate].
  destruct (files !! dst) as [d|] eqn:Hd.
  - destruct (kind_of d); inversion 1; eauto 10.
  - inversion 1; eauto 10.
Qed.

(** No call but [unlink] removes a path. *)
Lemma apply_op_keeps op now files files' q :
  apply_op op now files = inr files' ->
  (forall p, op <> OpUnlink p) ->
  present (files !! q) = true -> present (files' !! q) = true.
Proof.
  intros H Hop Hq. destruct op as [p| | | |].
  { destruct (files !! q) as [i|] eqn:Hi; [|discriminate].
    by rewrite (proj1 (proj2 (apply_mkdir p now files files' H)) q i Hi). }
  all: match type of H with
       | apply_op ?op _ _ = _ =>
           destruct (decide (q = written op)) as [->|Hne];
           [|rewrite (apply_op_frame _ _ _ _ _ H Hne) by (intros ?; discriminate); exact Hq]
       end.
  all: cbn in *; try (exfalso; eapply Hop; reflexivity);
    repeat match type of H with
      | match ?x with _ => _ end = _ => destruct x eqn:?
      end; inversion H; subst;
    first [ assumption | by rewrite lookup_insert_eq
          | match goal with
            | H : ?f !! ?p = Some _ |- present (?f !! ?p) = true => by rewrite H
            end ].
Qed.

End FileSystem.

(** * Traces *)

Lemma fs_calls_app t1 t2 : fs_calls (t1 ++ t2) = fs_calls t1 ++ fs_calls t2.
Proof. apply omap_app. Qed.

Lemma ffmpeg_runs_app t1 t2 : ffmpeg_runs (t1 ++ t2) = ffmpeg_runs t1 ++ ffmpeg_runs t2.
Proof. apply omap_app. Qed.

Lemma spawned_app t1 t2 : spawned (t1 ++ t2) = spawned t1 ++ spawned t2.
Proof. apply omap_app. Qed.

Lemma dialogue_app t1 t2 : dialogue (t1 ++ t2) = dialogue t1 ++ dialogue t2.
Proof. apply List.filter_app. Qed.

Lemma fs_calls_cons ev t : fs_calls (ev :: t) = fs_calls [ev] ++ fs_calls t.
Proof. apply (fs_calls_app [ev] t). Qed.

Lemma ffmpeg_runs_cons ev t : ffmpeg_runs (ev :: t) = ffmpeg_runs [ev] ++ ffmpeg_runs t.
Proof. apply (ffmpeg_runs_app [ev] t). Qed.

Lemma dialogue_cons ev t : dialogue (ev :: t) = dialogue [ev] ++ dialogue t.
Proof. apply (dialogue_app [ev] t). Qed.

Lemma fs_calls_elem op r t : (op, r) ∈ fs_calls t <-> EvFs op r ∈ t.
Proof.
  unfold fs_calls. rewrite list_elem_of_omap. split.
  - intros (ev & Hin & Hev). destruct ev; inversion Hev; subst. exact Hin.
  - intros Hin. exists (EvFs op r). auto.
Qed.

(** Splits the projections of a trace along its concatenations and
    evaluates them on the events that are known. *)
Ltac norm_trace :=
  repeat rewrite ?fs_calls_app, ?ffmpeg_runs_app, ?dialogue_app, ?spawned_app in *;
  cbn [fs_calls ffmpeg_runs dialogue spawned omap list_omap List.filter app
       String.eqb Ascii.eqb Bool.eqb] in *;
  rewrite ?app_nil_r in *.

(** Goes through a trace whose only command opens Finder. *)
Ltac finder :=
  unfold finder_only in *;
  repeat lazymatch goal with
    | |- Forall _ [] => constructor
    | |- Forall _ (_ :: _) => constructor; [first [by intros ? [=]|by intros ? [= <-]]|]
    | |- Forall _ (_ ++ _) => apply Forall_app_2
    end; try assumption.

Lemma finder_only_commands t c :
  finder_only t -> EvExec c ∈ t -> c = OpenFinder WallpaperManager.targetDir.
Proof. intros Hall Hin. unfold finder_only in Hall. rewrite Forall_forall in Hall. by eapply Hall. Qed.

Lemma sleeps_app t1 t2 : sleeps (t1 ++ t2) = sleeps t1 ++ sleeps t2.
Proof. apply omap_app. Qed.

Lemma only_logs_nil : only_logs [].
Proof. constructor. Qed.

Lemma only_logs_one l m : only_logs [EvLog l m].
Proof. repeat constructor. eauto. Qed.

Lemma only_logs_app t1 t2 : only_logs t1 -> only_logs t2 -> only_logs (t1 ++ t2).
Proof. apply Forall_app_2. Qed.

Lemma only_logs_silent t :
  only_logs t ->
  fs_calls t = [] /\ dialogue t = [] /\ sleeps t = [] /\ spawned t = [] /\ ffmpeg_runs t = [].
Proof.
  induction 1 as [|ev t (l & m & ->) _ IH]; [done|].
  destruct IH as (? & ? & ? & ? & ?). cbn. auto.
Qed.

Create HintDb traces.
#[global] Hint Resolve only_logs_nil only_logs_one only_logs_app : traces.

(** * Strings and paths *)

Section Strings.

Lemma chars_str l : JS.chars (JS.str l) = l.
Proof. apply list_ascii_of_string_of_list_ascii. Qed.

Lemma str_chars s : JS.str (JS.chars s) = s.
Proof. apply string_of_list_ascii_of_string. Qed.

Lemma chars_append a b : JS.chars (a +:+ b) = JS.chars a ++ JS.chars b.
Proof.
  unfold JS.chars. induction a as [|c a IH]; [reflexivity|].
  simpl. f_equal. exact IH.
Qed.

Lemma chars_inj a b : JS.chars a = JS.chars b -> a = b.
Proof. intros H. rewrite <- (str_chars a), <- (str_chars b). by rewrite H. Qed.

Lemma span_app p l x y : JS.span p l = (x, y) -> l = x ++ y.
Proof.
  revert x y. induction l as [|a l IH]; cbn; intros x y H.
  - by inversion H.
  - destruct (p a).
    + destruct (JS.span p l) as [x' y']. inversion H; subst. cbn. f_equal. by apply IH.
    + by inversion H.
Qed.

Lemma span_head p l x d y : JS.span p l = (x, d :: y) -> p d = false.
Proof.
  revert x. induction l as [|a l IH]; cbn; intros x H; [discriminate|].
  destruct (p a) eqn:Hp.
  - destruct (JS.span p l) as [x' y'] eqn:Hs. inversion H; subst. by eapply IH.
  - inversion H; subst. exact Hp.
Qed.

Lemma not_dot_false d : JS.not_dot d = false -> d = JS.dot.
Proof.
  unfold JS.not_dot, JS.ascii_eqb. intros H. apply negb_false_iff in H.
  by apply Ascii.eqb_eq.
Qed.

(** A path either has no extension in the sense of [/\.[^.]+$/], and
    [replace_ext] returns it as it is, or it is [stem.rest] and
    [replace_ext] returns [stem] followed by the new ending. *)
Lemma replace_ext_cases s :
  (forall e, JS.replace_ext s e = s) \/
  (exists stem rest, JS.chars s = stem ++ JS.dot :: rest /\
     forall e, JS.chars (JS.replace_ext s e) = stem ++ JS.chars e).
Proof.
  unfold JS.replace_ext.
  destruct (JS.span JS.not_dot (rev (JS.chars s))) as [rafter rest] eqn:Hspan.
  destruct rest as [|d rbefore]; [left; intros e; by destruct rafter|].
  destruct rafter as [|a rafter]; [by left|].
  right. exists (rev rbefore), (rev (a :: rafter)).
  pose proof (span_head _ _ _ _ _ Hspan) as Hd. apply not_dot_false in Hd. subst d.
  apply span_app in Hspan.
  split.
  - rewrite <- (rev_involutive (JS.chars s)), Hspan.
    rewrite rev_app_distr. cbn [rev]. by rewrite <- app_assoc.
  - intros e. by rewrite chars_append, chars_str.
Qed.

(** When the [.mov] name of a path differs from the path, so does the
    name of its extended copy. *)
Lemma extended_path_differs s :
  JS.replace_ext s ".mov" <> s -> extended_path s <> s.
Proof.
  intros Hmov. unfold extended_path.
  destruct (replace_ext_cases s) as [Hsame|(stem & rest & Hs & Hrep)].
  - by rewrite Hsame in Hmov.
  - intros Heq. apply (f_equal JS.chars) in Heq.
    rewrite Hrep, Hs in Heq. apply app_inv_head in Heq. discriminate.
Qed.

Lemma path_join_inj dir a b : JS.path_join dir a = JS.path_join dir b -> a = b.
Proof.
  unfold JS.path_join. intros H. apply (f_equal JS.chars) in H.
  rewrite !chars_append in H. apply app_inv_head in H. by apply chars_inj.
Qed.

Lemma path_join_not_dir dir a : a <> "" -> JS.path_join dir a <> dir.
Proof.
  unfold JS.path_join, JS.dir_prefix. intros Ha H. apply (f_equal JS.chars) in H.
  destruct (String.eqb dir "/"); rewrite !chars_append in H;
    rewrite <- (app_nil_r (JS.chars dir)) in H at 2.
  - apply app_inv_head in H. destruct a; [done|discriminate].
  - rewrite <- app_assoc in H. apply app_inv_head in H. discriminate.
Qed.

End Strings.
Ltac in_trace :=
  cbn [app] in *;
  repeat (rewrite ?elem_of_app, ?elem_of_cons, ?elem_of_nil in * );
  intuition (try congruence; try discriminate).

Section PermissionNormalizer.
Variable E : Env.

Lemma getenv_absent name : environ E !! name = None -> getenv E name = None.
Proof. unfold getenv. intros ->. reflexivity. Qed.

Lemma is_zero_true code : Utils.is_zero code = true -> code = Some 0.
Proof. destruct code as [[| |]|]; cbn; congruence. Qed.

(** C9: for every path, [Utils.fixFilePermissions] resolves to a
    boolean and never rejects. When [SUDO_USER], [SUDO_UID] and
    [SUDO_GID] are absent from the environment the only step is the
    [chmod] of the file to [0o664] (436). It resolves to [true] exactly
    when that [chmod] succeeded; a [chmod] that throws, a [chown] that
    exits with another code than 0 and a [chown] that reports a spawn
    error all make it resolve to [false]. *)
Theorem fixFilePermissions_never_throws filePath w :
  let r := Utils.fixFilePermissions E filePath w in
  (exists b, out r = Resolved b) /\
  (environ E !! "SUDO_USER" = None -> environ E !! "SUDO_UID" = None ->
   environ E !! "SUDO_GID" = None ->
   exists res, trace r = [EvFs (OpChmod filePath 436) res]) /\
  (out r = Resolved true <-> EvFs (OpChmod filePath 436) None ∈ trace r) /\
  (forall e, EvFs (OpChmod filePath 436) (Some e) ∈ trace r -> out r = Resolved false) /\
  (forall cmd args, EvSpawn cmd args ∈ trace r ->
     cmd = "chown" /\
     (chown E args w <> ProcClose (Some 0) -> out r = Resolved false)).
Proof.
  apply (wp_run (Utils.fixFilePermissions E filePath) w
           (fun o _ t =>
              (exists b, o = Resolved b) /\
              (environ E !! "SUDO_USER" = None -> environ E !! "SUDO_UID" = None ->
               environ E !! "SUDO_GID" = None ->
               exists res, t = [EvFs (OpChmod filePath 436) res]) /\
              (o = Resolved true <-> EvFs (OpChmod filePath 436) None ∈ t) /\
              (forall e, EvFs (OpChmod filePath 436) (Some e) ∈ t -> o = Resolved false) /\
              (forall cmd args, EvSpawn cmd args ∈ t ->
                 cmd = "chown" /\
                 (chown E args w <> ProcClose (Some 0) -> o = Resolved false)))).
  unfold Utils.fixFilePermissions.
  wp_run.
  all: cbn [app].
  all: (split; [eauto|]).
  all: (split; [intros H1 H2 H3; apply getenv_absent in H1, H2, H3; first [congruence | eauto] |]).
  all: (split; [in_trace|]).
  all: (split; [intros e'; in_trace|]).
  all: intros cmd args; in_trace.
  match goal with H : EvSpawn _ _ = EvSpawn _ _ |- _ => injection H as -> -> end.
  apply is_zero_true in Heqb. subst code. contradiction.
Qed.
End PermissionNormalizer.

(** * Source clean-up after a conversion *)

Section Cleanup.
Variable E : Env.

Lemma is_permission_error_fs e op :
  VideoDownloader.is_permission_error (FsError e op) = is_permission e.
Proof. destruct e; reflexivity. Qed.

Lemma cleanupSourceFile_spec sourcePath convertedPath w :
  wp (VideoDownloader.cleanupSourceFile E sourcePath convertedPath) w
     (fun o w' t =>
        o = Resolved tt /\ ffmpeg_runs t = [] /\
        (fs_calls t <> [] -> safe_to_delete w sourcePath convertedPath) /\
        cleanup_shape w w' t sourcePath).
Proof.
  unfold VideoDownloader.cleanupSourceFile.
  wp_run.
  all: cbn [app fs_calls ffmpeg_runs omap list_omap fs with_fs step].
  all: try rewrite is_permission_error_fs in *.
  all: (split; [reflexivity|]).
  all: (split; [reflexivity|]).
  all: repeat match goal with
       | H : apply_op (OpUnlink _) _ _ = inr _ |- _ =>
           apply apply_unlink in H; destruct H as [-> [? ?]]
       | H : apply_op (OpChmod _ _) _ _ = inr _ |- _ =>
           apply apply_chmod in H; destruct H as (? & ? & ->)
       end.
  all: cbn [fs with_fs step] in *.
  all: split;
    [ first [ (intros Hne; by destruct Hne)
            | intros _;
              match goal with
              | Hs : fs _ !! _ = Some ?a,
                Hc : fs _ !! _ = Some ?b,
                Hlt : (10 * stat_size ?b <? stat_size ?a) = false |- _ =>
                  exists a, b; repeat split;
                  [ exact Hs | exact Hc | by apply Z.ltb_ge | by apply String.eqb_eq ]
              end ]
    | unfold cleanup_shape; cbn [fs with_fs step] ].
  all: first
    [ by left
    | by (right; left)
    | by (right; right; left; eexists; eauto)
    | by (right; right; right; left; do 2 eexists; eauto)
    | right; right; right; right; do 2 eexists;
      split; [eassumption|]; split; [reflexivity|];
      split; [intros q Hq; by rewrite ?lookup_delete_ne, ?lookup_insert_ne by done|];
      split; [intros Hres; first [discriminate Hres | by rewrite lookup_delete_eq]
             |intros Hres; first [by destruct Hres | by rewrite lookup_insert_eq]] ].
Qed.

Lemma cleanup_shape_frame w w' t s q :
  cleanup_shape w w' t s -> q <> s -> fs w' !! q = fs w !! q.
Proof.
  intros Hshape Hq.
  destruct Hshape as [[_ Hfs]|[[_ Hfs]|[(e & _ & _ & Hfs)|[(e & e' & _ & _ & Hfs)|(e & res & _ & _ & Hfs & _)]]]];
    try (by rewrite Hfs); try (by apply Hfs).
  rewrite Hfs. by rewrite lookup_delete_ne.
Qed.

(** C4: [cleanupSourceFile] always resolves. It calls the file system
    only when the converted file exists, its size is at least a tenth
    of the size of the source, and the extension of the source is
    [.mp4]; in particular a source that is gone afterwards met these
    conditions. No other path changes. Its calls are one [unlink]; after
    a failure with [EPERM] or [EACCES], one [chmod] to [0o666] and, when
    that succeeded, one more [unlink]; after any other failure nothing,
    and the source stays in place. *)
Theorem cleanupSourceFile_policy sourcePath convertedPath w :
  let r := VideoDownloader.cleanupSourceFile E sourcePath convertedPath w in
  out r = Resolved tt /\
  (fs_calls (trace r) <> [] -> safe_to_delete w sourcePath convertedPath) /\
  (present (fs w !! sourcePath) = true -> fs (final r) !! sourcePath = None ->
     safe_to_delete w sourcePath convertedPath) /\
  (forall q, q <> sourcePath -> fs (final r) !! q = fs w !! q) /\
  cleanup_shape w (final r) (trace r) sourcePath.
Proof.
  intros r.
  destruct (cleanupSourceFile_spec sourcePath convertedPath w) as (Ho & _ & Hsafe & Hshape).
  fold r in Ho, Hsafe, Hshape.
  repeat split; try assumption.
  - intros Hp Hgone. apply Hsafe. intros Hnone.
    destruct Hshape as [[_ Hfs]|[[Hc _]|[(e & _ & Hc & _)|[(e & e' & _ & Hc & _)|(e & res & _ & Hc & _)]]]];
      try (rewrite Hc in Hnone; discriminate).
    rewrite Hfs in Hgone. rewrite Hgone in Hp. discriminate.
  - intros q Hq. by eapply cleanup_shape_frame.
Qed.
End Cleanup.

(** * The transcoder *)

Section Transcoder.
Variable E : Env.

Lemma mode_only_frame p f f' q : mode_only p f f' -> q <> p -> f' !! q = f !! q.
Proof.
  intros [->|(i & _ & ->)] Hq; [reflexivity|]. by rewrite lookup_insert_ne.
Qed.

Lemma mode_only_present p f f' q : mode_only p f f' -> present (f' !! q) = present (f !! q).
Proof.
  intros [->|(i & Hi & ->)]; [reflexivity|].
  destruct (decide (p = q)) as [->|Hne].
  - by rewrite lookup_insert_eq, Hi.
  - by rewrite lookup_insert_ne.
Qed.

Lemma mode_only_data p f f' q i' :
  mode_only p f f' -> f' !! q = Some i' ->
  exists i, f !! q = Some i /\ data i' = data i /\ mtime i' = mtime i /\ kind_of i' = kind_of i.
Proof.
  intros [->|(i & Hi & ->)]; [eauto|].
  destruct (decide (p = q)) as [->|Hne].
  - rewrite lookup_insert_eq. intros [= <-]. eauto.
  - rewrite lookup_insert_ne by done. eauto.
Qed.

(** The permission normalizer settles with a boolean, starts nothing
    but [chown] and changes nothing but the mode of its file. *)
Lemma Utils_fixFilePermissions_spec p w :
  wp (Utils.fixFilePermissions E p) w
     (fun o w' t =>
        (exists b, o = Resolved b) /\
        ffmpeg_runs t = [] /\ dialogue t = [] /\
        (forall op r, (op, r) ∈ fs_calls t -> op = OpChmod p 436) /\
        mode_only p (fs w) (fs w') /\ stdin w' = stdin w /\ clock w' = clock w /\
        Forall (perm_event p) t).
Proof.
  unfold Utils.fixFilePermissions.
  wp_run.
  all: cbn [app fs_calls ffmpeg_runs dialogue List.filter omap list_omap fs with_fs step stdin clock
            String.eqb Ascii.eqb Bool.eqb].
  all: repeat match goal with
       | H : apply_op (OpChmod _ _) _ _ = inr _ |- _ =>
           apply apply_chmod in H; destruct H as (? & ? & ->)
       end.
  all: cbn [fs with_fs step] in *.
  all: repeat split; eauto.
  all: try solve [repeat first [apply Forall_nil_2
                               | apply List.Forall_cons; [unfold perm_event; eauto|]]].
  all: try (intros op r; rewrite ?elem_of_cons, ?elem_of_nil; intuition congruence).
  all: try (by left).
  all: right; eauto.
Qed.

Lemma fixFilePermissions_spec p w :
  wp (VideoDownloader.fixFilePermissions E p) w
     (fun o w' t =>
        o = Resolved tt /\ ffmpeg_runs t = [] /\
        (forall op r, (op, r) ∈ fs_calls t -> op = OpChmod p 436) /\
        mode_only p (fs w) (fs w')).
Proof.
  unfold VideoDownloader.fixFilePermissions.
  apply wp_try_catch, wp_bind.
  eapply wp_mono; [apply Utils_fixFilePermissions_spec|].
  intros o w' t ((b & ->) & Hff & _ & Hcalls & Hmode & _).
  wp_run.
  all: norm_trace; auto.
Qed.

Ltac wp_spec ::=
  lazymatch goal with
  | |- wp (VideoDownloader.fixFilePermissions _ _) _ _ =>
      eapply wp_mono; [apply fixFilePermissions_spec | intros ? ? ? (-> & ? & ? & ?)]
  end.

Lemma is_zero_Some code : VideoDownloader.is_zero code = true <-> code = Some 0.
Proof. destruct code as [[| |]|]; cbn; split; congruence. Qed.

(** A software attempt runs ffmpeg once and settles with its result. *)
Lemma software_attempt_spec i o w :
  let sw := VideoDownloader.hevc_args i o true in
  wp (VideoDownloader.convertWithHEVC E i o true) w
     (fun out w' t =>
        ffmpeg_runs t = [sw] /\
        ((attempt_ok E sw w o /\ out = Resolved o) \/
         (~ attempt_ok E sw w o /\
          out = Rejected (settle_error (fst (ffmpeg E sw w)))))).
Proof.
  intros sw. unfold VideoDownloader.convertWithHEVC, attempt_ok.
  cbn [VideoDownloader.convertWithHEVC_from]. fold sw.
  wp_run.
  all: norm_trace; cbn [fs with_fs settle_error] in *.
  all: repeat match goal with
       | H : VideoDownloader.is_zero _ = true |- _ => apply is_zero_Some in H; subst
       | H : ffmpeg_runs _ = [] |- _ => rewrite H
       end.
  all: (split; [reflexivity|]).
  all: try (left; by auto).
  all: try match goal with
       | Hp : present (?f !! ?o) = true, Hn : ?f !! ?o = None |- _ =>
           rewrite Hn in Hp; discriminate Hp
       end.
  all: right; cbn [VideoDownloader.is_zero]; rewrite ?Heqb; split; [|reflexivity].
  all: intros [Hc Hp]; try congruence.
  injection Hc as ->. discriminate.
Qed.

Ltac wp_spec ::=
  lazymatch goal with
  | |- wp (VideoDownloader.fixFilePermissions _ _) _ _ =>
      eapply wp_mono; [apply fixFilePermissions_spec | intros ? ? ? (-> & ? & ? & ?)]
  | |- wp (VideoDownloader.convertWithHEVC_from _ ?n _ _) _ _ =>
      subst n; eapply wp_mono; [apply software_attempt_spec | intros ? ? ? [? ?]]
  end.

Lemma fallback_not_zero code :
  VideoDownloader.is_fallback_code code = true -> VideoDownloader.is_zero code = false.
Proof. destruct code as [[|[]|]|]; cbn; congruence. Qed.





(** A conversion that starts on the hardware path: one run, or two when
    the first one asks for the software path. After an exit code 1 or
    69 the software attempt decides; after an error that names the
    accelerator the conversion fails with the code of the close event,
    whatever the software attempt does. *)
Lemma convertWithHEVC_spec i o w :
  let hw := VideoDownloader.hevc_args i o false in
  let sw := VideoDownloader.hevc_args i o true in
  let ev := fst (ffmpeg E hw w) in
  let w1 := with_fs (snd (ffmpeg E hw w)) w in
  wp (VideoDownloader.convertWithHEVC E i o false) w
     (fun out w' t =>
        (ev = ProcClose (Some 0) /\ ffmpeg_runs t = [hw] /\
         ((present (fs w1 !! o) = true /\ out = Resolved o) \/
          (present (fs w1 !! o) = false /\ out = Rejected OutputNotFound))) \/
        (exists code, ev = ProcClose code /\ VideoDownloader.is_fallback_code code = true /\
         ffmpeg_runs t = [hw; sw] /\
         ((attempt_ok E sw w1 o /\ out = Resolved o) \/
          (~ attempt_ok E sw w1 o /\
           out = Rejected (settle_error (fst (ffmpeg E sw w1)))))) \/
        (exists m uv, ev = ProcError m uv /\ VideoDownloader.includes m "videotoolbox" = true /\
         ffmpeg_runs t = [hw; sw] /\ out = Rejected (ConversionFailed (Some (Z.neg uv)))) \/
        (ev <> ProcClose (Some 0) /\
         (forall code, ev = ProcClose code -> VideoDownloader.is_fallback_code code = false) /\
         (forall m uv, ev = ProcError m uv -> VideoDownloader.includes m "videotoolbox" = false) /\
         ffmpeg_runs t = [hw] /\ out = Rejected (settle_error ev))).
Proof.
  intros hw sw ev w1. unfold VideoDownloader.convertWithHEVC.
  change 1%nat with (S 0). remember 0%nat as n eqn:Hn.
  cbn [VideoDownloader.convertWithHEVC_from]. fold hw. subst ev w1.
  wp_run.
  all: try match goal with
       | H : (_ /\ ?o0 = _) \/ (_ /\ ?o0 = _) |- match ?o0 with _ => _ end =>
           destruct H as [[? ->]|[? ->]]; wp_run
       end.
  all: norm_trace; cbn [fs with_fs settle_error] in *.
  all: repeat match goal with
       | H : VideoDownloader.is_zero _ = true |- _ => apply is_zero_Some in H; subst
       | H : ffmpeg_runs _ = [] |- _ => rewrite H
       | H : ffmpeg_runs _ = [_] |- _ => rewrite H
       end.
  all: try match goal with
       | Hp : present (?f !! ?o) = true, Hn : ?f !! ?o = None |- _ =>
           rewrite Hn in Hp; discriminate Hp
       end.
  all: first
    [ left; by (repeat split; auto)
    | right; left; eexists; by (repeat split; eauto)
    | right; right; left; do 2 eexists; by (repeat split; eauto)
    | right; right; right; repeat split; auto;
      first [ by (intros [= ->]) | discriminate | congruence
            | by (intros ? [= <-]) | by (intros ? ? [= <- <-])
            | match goal with H : VideoDownloader.is_zero _ = false |- _ => by rewrite H end ] ].
Qed.


(** The verification of the output after an exit code 0. *)
Lemma convertWithHEVC_output_check i o useFallback w :
  let run := ffmpeg E (VideoDownloader.hevc_args i o useFallback) w in
  let r := VideoDownloader.convertWithHEVC E i o useFallback w in
  fst run = ProcClose (Some 0) ->
  (present (snd run !! o) = true -> out r = Resolved o) /\
  (present (snd run !! o) = false -> out r = Rejected OutputNotFound).
Proof.
  intros run r Hzero. subst run r. destruct useFallback.
  - pose proof (software_attempt_spec i o w) as Hspec. unfold wp, attempt_ok in Hspec.
    cbv zeta in Hspec.
    destruct Hspec as [_ [[[_ Hp] Hout]|[Hnot Hout]]].
    + split; [done|]. intros Hn. rewrite Hn in Hp. discriminate.
    + rewrite Hzero in Hout. split; [|done].
      intros Hp. destruct Hnot. by split.
  - pose proof (convertWithHEVC_spec i o w) as Hspec. unfold wp in Hspec.
    cbv zeta in Hspec. cbn [fs with_fs] in Hspec.
    destruct Hspec as [(_ & _ & [[Hp Hout]|[Hp Hout]])
                      |[(c & Hc & Hfb & _)|[(m & uv & Hm & _)|(Hne & _)]]].
    + split; [done|]. intros Hn. rewrite Hn in Hp. discriminate.
    + split; [|done]. intros Hn. rewrite Hn in Hp. discriminate.
    + rewrite Hzero in Hc. injection Hc as <-. discriminate.
    + rewrite Hzero in Hm. discriminate.
    + contradiction.
Qed.

End Transcoder.

(** * The duration gate and the extender *)

Section Extender.
Variable E : Env.

Lemma getVideoDuration_spec inputPath w :
  wp (VideoDownloader.getVideoDuration E inputPath) w
     (fun o w' t =>
        w' = step w /\ t = [EvSpawn "ffprobe" (probe_args inputPath)] /\ o <> Pending).
Proof.
  unfold VideoDownloader.getVideoDuration.
  wp_run; norm_trace; repeat split; discriminate.
Qed.

Lemma extendVideo_spec inputPath minDuration w :
  let args := VideoDownloader.extend_args inputPath minDuration (extended_path inputPath) in
  let run := ffmpeg E args (step w) in
  wp (VideoDownloader.extendVideo E inputPath minDuration) w
     (fun o w' t =>
        match out (VideoDownloader.getVideoDuration E inputPath w) with
        | Resolved _ =>
            ffmpeg_runs t = [args] /\ fs_calls t = [] /\ fs w' = snd run /\
            match fst run with
            | ProcClose code =>
                if VideoDownloader.is_zero code then
                  (present (snd run !! extended_path inputPath) = true /\
                   o = Resolved (extended_path inputPath)) \/
                  (present (snd run !! extended_path inputPath) = false /\
                   o = Rejected ExtendedNotFound)
                else o = Rejected (ExtensionFailed code)
            | ProcError m _ => o = Rejected (ExtensionError m)
            end
        | Rejected e =>
            ffmpeg_runs t = [] /\ fs_calls t = [] /\ fs w' = fs w /\
            o = Rejected (DurationFailed e)
        | Pending => False
        end).
Proof.
  intros args run. subst run. unfold VideoDownloader.extendVideo.
  apply wp_bind, wp_try_catch, wp_named.
  pose proof (getVideoDuration_spec inputPath w) as (Hw & Ht & Hp). unfold wp in *.
  rewrite Hw, Ht.
  destruct (out (VideoDownloader.getVideoDuration E inputPath w)) as [d|e|]; [| |done].
  - unfold caught, after. fold (extended_path inputPath). fold args.
    wp_run.
    all: norm_trace; cbn [fs with_fs] in *.
    all: try match goal with
         | Hp : present (?f !! ?o) = true, Hn : ?f !! ?o = None |- _ =>
             rewrite Hn in Hp; discriminate Hp
         end.
    all: rewrite ?Heqb; auto.
    all: repeat split; auto.
  - unfold caught, after. wp_run. norm_trace. cbn [fs step]. auto.
Qed.

(** The arguments of the extender: an endless loop of the input, cut at
    the minimum duration, with every stream copied. *)
Lemma extend_args_stream_copy inputPath minDuration outputPath :
  VideoDownloader.extend_args inputPath minDuration outputPath =
  [ "-stream_loop"; "-1"; "-i"; inputPath; "-t"; pretty minDuration;
    "-c"; "copy"; "-avoid_negative_ts"; "make_zero"; "-fflags"; "+genpts";
    "-y"; outputPath ].
Proof. reflexivity. Qed.

Lemma extendVideo_output_check inputPath minDuration w d :
  let run := ffmpeg E (VideoDownloader.extend_args inputPath minDuration
                         (extended_path inputPath)) (step w) in
  let r := VideoDownloader.extendVideo E inputPath minDuration w in
  out (VideoDownloader.getVideoDuration E inputPath w) = Resolved d ->
  fst run = ProcClose (Some 0) ->
  (present (snd run !! extended_path inputPath) = true ->
   out r = Resolved (extended_path inputPath)) /\
  (present (snd run !! extended_path inputPath) = false ->
   out r = Rejected ExtendedNotFound).
Proof.
  intros run r Hd Hzero. subst run r.
  pose proof (extendVideo_spec inputPath minDuration w) as Hspec.
  unfold wp in Hspec. cbv zeta in Hspec. rewrite Hd, Hzero in Hspec.
  cbn [VideoDownloader.is_zero] in Hspec.
  destruct Hspec as (_ & _ & _ & [[Hp Ho]|[Hp Ho]]); split; intros Hq; congruence.
Qed.

Lemma number_le_not_lt a b : number_le a b = true -> number_lt b a = false.
Proof.
  destruct a, b; cbn; try congruence. unfold Qlt_bool. intros ->. reflexivity.
Qed.

Lemma hevc_args_not_extend i o u x m y :
  VideoDownloader.hevc_args i o u <> VideoDownloader.extend_args x m y.
Proof. destruct u; discriminate. Qed.

Ltac wp_spec ::=
  lazymatch goal with
  | |- wp (VideoDownloader.fixFilePermissions _ _) _ _ =>
      eapply wp_mono; [apply fixFilePermissions_spec | intros ? ? ? (-> & ? & ? & ?)]
  | |- wp (VideoDownloader.cleanupSourceFile _ _ _) _ _ =>
      eapply wp_mono; [apply cleanupSourceFile_spec | intros ? ? ? (-> & ? & ? & ?)]
  | |- wp (VideoDownloader.convertWithHEVC _ _ _ false) _ _ =>
      eapply wp_mono; [apply convertWithHEVC_spec | intros ? ? ? ?]
  end.

(** Every conversion that [convertWithHEVC] runs reads [i] and writes [o]. *)
Lemma convertWithHEVC_runs i o w args :
  args ∈ ffmpeg_runs (trace (VideoDownloader.convertWithHEVC E i o false w)) ->
  exists u, args = VideoDownloader.hevc_args i o u.
Proof.
  pose proof (convertWithHEVC_spec E i o w) as Hspec. unfold wp in Hspec. cbv zeta in Hspec.
  destruct Hspec as [(_ & -> & _)|[(c & _ & _ & -> & _)|[(m & uv & _ & _ & -> & _)
                                                         |(_ & _ & _ & -> & _)]]];
    rewrite ?elem_of_cons, elem_of_nil; intros H; intuition (subst; eauto).
Qed.

(** A source that is long enough is transcoded as it
    is; the extender is not run. *)
Lemma convertToMov_long_source inputPath w d :
  let r := VideoDownloader.convertToMov E inputPath w in
  out (VideoDownloader.getVideoDuration E inputPath w) = Resolved d ->
  number_le (number_of_Z CONFIG.minRecommendedDuration) d = true ->
  (forall args, args ∈ ffmpeg_runs (trace r) ->
     exists u, args = VideoDownloader.hevc_args inputPath (JS.replace_ext inputPath ".mov") u) /\
  (forall x m y, VideoDownloader.extend_args x m y ∉ ffmpeg_runs (trace r)).
Proof.
  intros r Hd Hle. apply number_le_not_lt in Hle.
  assert (forall args, args ∈ ffmpeg_runs (trace r) ->
     exists u, args = VideoDownloader.hevc_args inputPath (JS.replace_ext inputPath ".mov") u)
    as Hruns.
  { subst r.
    apply (wp_run (VideoDownloader.convertToMov E inputPath) w
             (fun _ _ t => forall args, args ∈ ffmpeg_runs t -> exists u,
                  args = VideoDownloader.hevc_args inputPath (JS.replace_ext inputPath ".mov") u)).
    unfold VideoDownloader.convertToMov.
    apply wp_bind, wp_existsSync. wp_rule.
    destruct (present (fs w !! JS.replace_ext inputPath ".mov")).
    { wp_run. norm_trace. intros args Hin. by apply elem_of_nil in Hin. }
    apply wp_bind, wp_named.
    pose proof (getVideoDuration_spec inputPath w) as (Hw & Ht & _). unfold wp in Hw, Ht.
    rewrite Hd, Hw, Ht. wp_rule. rewrite Hle.
    apply wp_bind. do 4 wp_rule.
    apply wp_bind, wp_named.
    pose proof (convertWithHEVC_runs inputPath (JS.replace_ext inputPath ".mov") (step w)) as Hc.
    destruct (out (VideoDownloader.convertWithHEVC E inputPath _ false (step w))) as [c| |];
      wp_rule.
    - rewrite String.eqb_refl. cbn [negb]. wp_run. norm_trace.
      match goal with H : ffmpeg_runs _ = [] |- _ => rewrite H end.
      rewrite app_nil_r. exact Hc.
    - norm_trace. exact Hc.
    - norm_trace. exact Hc. }
  split; [exact Hruns|].
  intros x m y Hin. destruct (Hruns _ Hin) as [u Hu].
  symmetry in Hu. by apply hevc_args_not_extend in Hu.
Qed.

(** A source shorter than the minimum goes through the
    extender, which loops it with stream copy up to the minimum
    duration; once the transcode of the extended copy has succeeded,
    [convertToMov] unlinks that copy; when the transcode fails,
    [convertToMov] ends with it. *)
Lemma convertToMov_short_source inputPath w d :
  let min := CONFIG.minRecommendedDuration in
  let output := JS.replace_ext inputPath ".mov" in
  let ext := extended_path inputPath in
  let r := VideoDownloader.convertToMov E inputPath w in
  let x := VideoDownloader.extendVideo E inputPath min (step w) in
  let c := VideoDownloader.convertWithHEVC E ext output false (final x) in
  present (fs w !! inputPath) = true ->
  present (fs w !! output) = false ->
  out (VideoDownloader.getVideoDuration E inputPath w) = Resolved d ->
  number_lt d (number_of_Z min) = true ->
  (exists rest,
     trace r = EvSpawn "ffprobe" (probe_args inputPath) :: EvLog LvInfo ExtendingVideo ::
               trace x ++ rest) /\
  (forall args, args ∈ ffmpeg_runs (trace x) ->
     args = VideoDownloader.extend_args inputPath min ext) /\
  (forall p, out x = Resolved p ->
     p = ext /\ ffmpeg_runs (trace x) = [VideoDownloader.extend_args inputPath min ext]) /\
  (out x = Resolved ext -> forall converted, out c = Resolved converted ->
     out r = Resolved converted /\
     exists res, EvFs (OpUnlink ext) res ∈ trace r /\
       (res = None -> fs (final r) !! ext = None)) /\
  (out x = Resolved ext -> forall e, out c = Rejected e ->
     out r = Rejected e /\ final r = final c /\
     trace r = EvSpawn "ffprobe" (probe_args inputPath) :: EvLog LvInfo ExtendingVideo ::
               trace x ++ trace c).
Proof.
  intros min output ext r x c Hin Hout Hd Hlt.
  assert (ext <> inputPath) as Hext.
  { apply extended_path_differs. fold output. intros Heq. rewrite Heq in Hout. congruence. }
  pose proof (extendVideo_spec inputPath min (step w)) as Hx.
  unfold wp in Hx. cbv zeta in Hx. fold x ext in Hx.
  assert (forall args, args ∈ ffmpeg_runs (trace x) ->
            args = VideoDownloader.extend_args inputPath min ext) as Hargs.
  { destruct (out (VideoDownloader.getVideoDuration E inputPath (step w)));
      [destruct Hx as (-> & _)|destruct Hx as (-> & _)|done];
      intros args; rewrite ?elem_of_cons, elem_of_nil; intuition. }
  assert (forall p, out x = Resolved p ->
            p = ext /\ ffmpeg_runs (trace x) = [VideoDownloader.extend_args inputPath min ext])
    as Hres.
  { intros p Hp. rewrite Hp in Hx.
    destruct (out (VideoDownloader.getVideoDuration E inputPath (step w)));
      [|destruct Hx as (_ & _ & _ & ?); discriminate|done].
    destruct Hx as (Hruns & _ & _ & Hx). split; [|exact Hruns].
    destruct (fst (ffmpeg E _ _)) as [code|m]; [|discriminate].
    destruct (VideoDownloader.is_zero code); [|discriminate].
    destruct Hx as [[_ Hx]|[_ Hx]]; congruence. }
  cut (wp (VideoDownloader.convertToMov E inputPath) w
         (fun o w' t =>
            (exists rest,
               t = EvSpawn "ffprobe" (probe_args inputPath) :: EvLog LvInfo ExtendingVideo ::
                   trace x ++ rest) /\
            (out x = Resolved ext -> forall converted, out c = Resolved converted ->
               o = Resolved converted /\
               exists res, EvFs (OpUnlink ext) res ∈ t /\
                 (res = None -> fs w' !! ext = None)) /\
            (out x = Resolved ext -> forall e, out c = Rejected e ->
               o = Rejected e /\ w' = final c /\
               t = EvSpawn "ffprobe" (probe_args inputPath) :: EvLog LvInfo ExtendingVideo ::
                   trace x ++ trace c))).
  { unfold wp. fold r. intros (H1 & H2 & H3). auto. }
  unfold VideoDownloader.convertToMov. fold output.
  apply wp_bind, wp_existsSync. rewrite Hout. wp_rule.
  apply wp_bind, wp_named.
  pose proof (getVideoDuration_spec inputPath w) as (Hw & Ht & _). unfold wp in Hw, Ht.
  rewrite Hd, Hw, Ht. wp_rule. fold min. rewrite Hlt.
  apply wp_bind, wp_bind, wp_log. wp_rule. apply wp_named. fold x.
  destruct (out x) as [p| |] eqn:Hp; wp_rule.
  2,3: split; [exists []; cbn [app]; by rewrite app_nil_r | split; discriminate].
  destruct (Hres p eq_refl) as [-> _].
  apply wp_bind, wp_named. fold c.
  destruct (out c) as [converted|e|] eqn:Hc; wp_rule.
  2: { split; [eexists; cbn [app]; reflexivity|].
       split; [intros _ ? ?; discriminate|]. intros _ ? [= <-]. by cbn [app]. }
  2: { split; [eexists; cbn [app]; reflexivity|]. split; intros _ ? ?; discriminate. }
  apply wp_bind.
  assert (negb (ext =? inputPath)%string = true) as ->.
  { apply negb_true_iff, String.eqb_neq, Hext. }
  apply wp_try_catch, wp_bind. unfold unlinkSync. apply wp_mutate.
  - intros e He. wp_run.
    split; [eexists; cbn [app]; reflexivity|]. split; [|intros _ ? ?; discriminate].
    intros _ ? [= <-]. split; [reflexivity|].
    exists (Some e). split; [|discriminate].
    cbn [app]. rewrite !elem_of_cons, !elem_of_app, !elem_of_cons. tauto.
  - intros files Hfault Happly. wp_run.
    split; [eexists; cbn [app]; reflexivity|]. split; [|intros _ ? ?; discriminate].
    intros _ ? [= <-]. split; [reflexivity|].
    exists None. split.
    + cbn [app]. rewrite !elem_of_cons, !elem_of_app, !elem_of_cons. tauto.
    + intros _.
      match goal with H : cleanup_shape _ _ _ _ |- _ =>
        rewrite (cleanup_shape_frame _ _ _ _ _ H Hext) end.
      cbn [fs with_fs].
      apply apply_unlink in Happly as [-> _]. apply lookup_delete_eq.
Qed.
End Extender.

(** * The inventory scanner *)

Section Scanner.
Import WallpaperManager.


Lemma append_assoc (a b c : string) : (a +:+ b) +:+ c = a +:+ b +:+ c.
Proof.
  induction a as [|x a IH]; [reflexivity|].
  change (String x (a +:+ b) +:+ c = String x (a +:+ b +:+ c)).
  change (String x ((a +:+ b) +:+ c) = String x (a +:+ b +:+ c)). by rewrite IH.
Qed.



Lemma insert_by_modified_elem x y l :
  y ∈ insert_by_modified x l <-> y = x \/ y ∈ l.
Proof.
  induction l as [|z l IH]; cbn.
  - rewrite elem_of_cons, elem_of_nil. tauto.
  - destruct (modified z <=? modified x); rewrite !elem_of_cons; [tauto|].
    rewrite IH. tauto.
Qed.

Lemma sort_by_modified_elem y l : y ∈ sort_by_modified l <-> y ∈ l.
Proof.
  unfold sort_by_modified. induction l as [|x l IH]; cbn; [reflexivity|].
  rewrite insert_by_modified_elem, IH, elem_of_cons. tauto.
Qed.

Lemma insert_by_modified_length x l : length (insert_by_modified x l) = S (length l).
Proof.
  induction l as [|z l IH]; cbn; [reflexivity|].
  destruct (modified z <=? modified x); cbn; [reflexivity|]. by rewrite IH.
Qed.

Lemma sort_by_modified_length l : length (sort_by_modified l) = length l.
Proof.
  unfold sort_by_modified. induction l as [|x l IH]; cbn; [reflexivity|].
  by rewrite insert_by_modified_length, IH.
Qed.

(** What the scanner says of an entry it lists in the world [w]. *)
Definition listed (w : World) (wp : wallpaper) : Prop :=
  path wp = JS.path_join targetDir (name wp) /\
  is_video (name wp) = true /\
  exists i, fs w !! path wp = Some i /\
    size wp = stat_size i /\ created wp = birthtime i /\ modified wp = mtime i.

Lemma mapM_describe_spec l w :
  wp (mapM describe l) w
     (fun o w' t =>
        w' = w /\ t = [] /\ o <> Pending /\
        forall ws, o = Resolved ws ->
          length ws = length l /\
          forall x, x ∈ ws ->
            name x ∈ l /\ path x = JS.path_join targetDir (name x) /\
            exists i, fs w !! path x = Some i /\
              size x = stat_size i /\ created x = birthtime i /\ modified x = mtime i).
Proof.
  induction l as [|file l IH]; cbn [mapM].
  - wp_run. split; [done|]. split; [done|]. split; [done|].
    intros ws [= <-]. split; [done|].
    intros x Hx. by apply elem_of_nil in Hx.
  - apply wp_bind. unfold describe at 1. apply wp_bind. wp_rule.
    + do 3 wp_rule. apply wp_bind.
      eapply wp_mono; [apply IH|]. intros o w' t (-> & -> & Hp & Htail).
      destruct o as [tail| |]; [|wp_rule|done].
      * do 2 wp_rule. split; [done|]. split; [done|]. split; [done|].
        intros ws' [= <-].
        destruct (Htail tail eq_refl) as [Hlen Hall]. split.
        { cbn. by f_equal. }
        intros x. rewrite elem_of_cons. intros [->|Hx].
        { cbn. rewrite elem_of_cons. eauto 10. }
        destruct (Hall x Hx) as (? & ? & ?).
        rewrite elem_of_cons. eauto.
      * split; [done|]. split; [done|]. split; [done|]. discriminate.
    + do 2 wp_rule. split; [done|]. split; [done|]. split; [done|]. discriminate.
Qed.

Lemma getExistingWallpapers_run w :
  wp getExistingWallpapers w
     (fun o w' t =>
        w' = w /\ scan_trace t /\
        exists l, o = Resolved l /\ forall x, x ∈ l -> listed w x).
Proof.
  unfold getExistingWallpapers.
  apply wp_try_catch, wp_bind. wp_rule. wp_rule. wp_rule.
  { wp_run. split; [done|]. split; [by left|]. exists []. split; [done|].
    intros x Hx. by apply elem_of_nil in Hx. }
  apply wp_bind. unfold readdirSync, wp.
  destruct (fs w !! targetDir) as [d|] eqn:Hd; [destruct (kind_of d)|]; cbn [out final trace].
  1,3: wp_run; (split; [done|]); (split; [right; by eexists|]); exists []; (split; [done|]);
       intros x Hx; by apply elem_of_nil in Hx.
  wp_rule. apply wp_bind.
  eapply wp_mono; [apply mapM_describe_spec|]. intros o w' t (-> & -> & Hp & Hws).
  destruct o as [ws| |]; [| |done].
  - wp_run. split; [done|]. split; [by left|]. eexists. split; [reflexivity|].
    intros x Hx. apply (proj1 (sort_by_modified_elem _ _)) in Hx.
    destruct (Hws ws eq_refl) as [_ Hall]. destruct (Hall x Hx) as (Hn & Hpath & Hi).
    split; [exact Hpath|]. split; [|exact Hi].
    apply list_elem_of_In, List.filter_In in Hn. apply Hn.
  - wp_run. split; [done|]. split; [right; by eexists|]. exists []. split; [done|].
    intros x Hx. by apply elem_of_nil in Hx.
Qed.

Lemma getExistingWallpapers_spec w :
  wp getExistingWallpapers w
     (fun o w' t => w' = w /\ scan_trace t /\ o = Resolved (scan w)).
Proof.
  pose proof (getExistingWallpapers_run w) as (Hw & Hl & l & Ho & _).
  unfold wp, scan. rewrite Ho. auto.
Qed.

Lemma scan_listed w x : x ∈ scan w -> listed w x.
Proof.
  pose proof (getExistingWallpapers_run w) as (_ & _ & l & Ho & Hall).
  unfold scan. rewrite Ho. apply Hall.
Qed.

Lemma scan_trace_silent t :
  scan_trace t ->
  fs_calls t = [] /\ dialogue t = [] /\ sleeps t = [] /\ spawned t = [] /\
  ffmpeg_runs t = [] /\ Forall selection_event t /\ forall ev, ev ∈ t -> cancels ev = false.
Proof.
  intros [->|(e & ->)]; repeat split; try by constructor.
  - intros ev Hev. by apply elem_of_nil in Hev.
  - intros ev Hev. apply list_elem_of_singleton in Hev. by subst.
Qed.

End Scanner.

(** * The phases of [setupWallpaper] *)

Section Phases.
Variable E : Env.
Import WallpaperManager.

Lemma run_eta {A} (r : Run A) : mkRun (out r) (final r) (trace r) = r.
Proof. by destruct r. Qed.

Lemma bind_ret_l {A B} (a : A) (k : A -> M B) w : bind (ret a) k w = k a w.
Proof. unfold bind, ret. cbn. apply run_eta. Qed.

Lemma bind_ret_r {A} (m : M A) w : bind m ret w = m w.
Proof.
  unfold bind, ret. destruct (m w) as [[a|e|] w1 t1]; cbn; by rewrite ?app_nil_r.
Qed.

Lemma bind_assoc {A B C} (m : M A) (f : A -> M B) (g : B -> M C) w :
  bind (bind m f) g w = bind m (fun a => bind (f a) g) w.
Proof.
  unfold bind. destruct (m w) as [[a|e|] w1 t1]; cbn; try reflexivity.
  destruct (f a w1) as [[b|e|] w2 t2]; cbn; try reflexivity.
  by rewrite app_assoc.
Qed.

Lemma bind_ext {A B} (m : M A) (k k' : A -> M B) w :
  (forall a w', k a w' = k' a w') -> bind m k w = bind m k' w.
Proof.
  intros H. unfold bind. destruct (m w) as [[a|e|] w1 t1]; cbn; try reflexivity.
  by rewrite H.
Qed.

Lemma try_catch_ext {A} (m m' : M A) h w :
  m w = m' w -> try_catch m h w = try_catch m' h w.
Proof. unfold try_catch. by intros ->. Qed.

(** The four branches of [setupWallpaper] end alike; the function is the
    choice of a target followed by its replacement. *)
Lemma setupWallpaper_phases videoPath w :
  setupWallpaper E videoPath w = setup_in_phases E videoPath w.
Proof.
  unfold setupWallpaper, setup_in_phases. apply try_catch_ext.
  unfold choose, replace. rewrite bind_assoc. apply bind_ext. intros hasAccess w1.
  destruct hasAccess; cbn [negb]; [|reflexivity].
  rewrite bind_assoc. apply bind_ext. intros empty w2.
  assert (forall w3,
    (log LvWarning DirectoryEmpty;; openWallpaperSettings E;;
       wallpaperFile <- waitForWallpaperSetup E;;
       createBackup E wallpaperFile;;
       success <- installWallpaper E videoPath (name wallpaperFile);; ret success) w3 =
    (chosen <- (log LvWarning DirectoryEmpty;; openWallpaperSettings E;;
                  wallpaperFile <- waitForWallpaperSetup E;; ret (Some wallpaperFile));;
     match chosen with
     | Some target =>
         createBackup E target;;
         success <- installWallpaper E videoPath (name target);; ret success
     | None => log LvInfo CancelledByUser;; ret false
     end) w3) as Hseed.
  { intros w3. rewrite bind_assoc. apply bind_ext. intros _ w4.
    rewrite bind_assoc. apply bind_ext. intros _ w5.
    rewrite bind_assoc. apply bind_ext. intros wallpaperFile w6.
    by rewrite bind_ret_l. }
  destruct empty; [apply Hseed|].
  rewrite bind_assoc. apply bind_ext. intros existing w3.
  destruct existing as [|target [|second others]].
  - rewrite bind_assoc. apply bind_ext. intros _ w4.
    rewrite bind_assoc. apply bind_ext. intros _ w5.
    rewrite bind_assoc. apply bind_ext. intros wallpaperFile w6.
    by rewrite bind_ret_l.
  - rewrite bind_assoc. apply bind_ext. intros confirmed w4.
    destruct confirmed; cbn [negb]; by rewrite bind_ret_l.
  - rewrite bind_assoc. apply bind_ext. intros _ w4.
    rewrite bind_assoc. apply bind_ext. intros selected w5.
    destruct selected as [selectedWallpaper|]; [|by rewrite bind_ret_l].
    rewrite bind_assoc. apply bind_ext. intros confirmed w6.
    destruct confirmed; cbn [negb]; by rewrite bind_ret_l.
Qed.
End Phases.

(** * The steps of the wallpaper manager *)

Section Steps.
Variable E : Env.
Import WallpaperManager.

Ltac events :=
  repeat lazymatch goal with
    | |- Forall _ [] => constructor
    | |- Forall _ (_ :: _) => constructor; [cbn; unfold is_probe; eauto 10 |]
    | |- Forall _ (_ ++ _) => apply Forall_app_2
    end.

Lemma checkCustomerDirectory_spec w :
  wp (checkCustomerDirectory E) w
     (fun o w' t =>
        (exists b, o = Resolved b) /\ Forall selection_event t /\ dialogue t = [] /\
        stdin w' = stdin w /\ clock w' = clock w /\
        (forall q, q <> testFile -> q <> targetDir -> fs w' !! q = fs w !! q) /\
        (forall q, q <> testFile -> present (fs w !! q) = true -> present (fs w' !! q) = true) /\
        finder_only t).
Proof.
  unfold checkCustomerDirectory.
  wp_run.
  all: norm_trace; cbn [fs with_fs step stdin clock] in *.
  all: (split; [eauto|]); (split; [by events|]).
  all: (split; [reflexivity|]);
       (split; [reflexivity|]); (split; [reflexivity|]).
  all: (split; [|split; [|by finder]]); intros q Hq1 Hq2.
  all: try match goal with
       | H : negb (present (fs _ !! customerDir)) = false |- _ => apply negb_false_iff in H
       end.
  all: repeat match goal with
       | H : apply_op (OpMkdir targetDir) _ _ = inr ?f |- context [?f !! ?q] =>
           rewrite (proj2 (proj2 (apply_mkdir _ _ _ _ H)) customerDir eq_refl) by assumption
       | H : apply_op ?op _ _ = inr ?f |- context [?f !! ?q] =>
           first [ rewrite (apply_op_frame _ _ _ _ q H)
                     by first [cbn [written]; congruence | intros ? [=]]
                 | idtac ]
       end.
  all: try reflexivity; try assumption.
  all: repeat match goal with
       | H : apply_op ?op _ _ = inr ?f |- present (?f !! ?q) = true =>
           apply (apply_op_keeps _ _ _ _ q H); [intros p; discriminate|]
       end; assumption.
Qed.

Lemma openWallpaperSettings_spec w :
  wp (openWallpaperSettings E) w
     (fun o w' t =>
        (exists b, o = Resolved b) /\ Forall selection_event t /\ dialogue t = [] /\
        fs_calls t = [] /\ sleeps t = [] /\
        fs w' = fs w /\ stdin w' = stdin w /\ clock w' = clock w /\
        exists l m, t = [EvExec OpenWallpaperSettings; EvLog l m]).
Proof.
  unfold openWallpaperSettings. wp_run.
  all: norm_trace; cbn [fs with_fs stdin clock sleeps omap list_omap].
  all: (split; [eauto|]); (split; [by events|]); eauto 12.
Qed.

Lemma openFinderAtWallpaperDir_spec w :
  wp (openFinderAtWallpaperDir E) w
     (fun o w' t =>
        (exists b, o = Resolved b) /\ Forall selection_event t /\ dialogue t = [] /\
        fs_calls t = [] /\ sleeps t = [] /\
        fs w' = fs w /\ stdin w' = stdin w /\ clock w' = clock w /\
        exists l m, t = [EvExec (OpenFinder targetDir); EvLog l m]).
Proof.
  unfold openFinderAtWallpaperDir. wp_run.
  all: norm_trace; cbn [fs with_fs stdin clock sleeps omap list_omap].
  all: (split; [eauto|]); (split; [by events|]); eauto 12.
Qed.

Lemma getUserConfirmation_spec selected videoPath w :
  wp (getUserConfirmation selected videoPath) w
     (fun o w' t =>
        fs w' = fs w /\ clock w' = clock w /\
        ((fs w !! videoPath = None /\ o = Rejected (StatError ENOENT videoPath) /\
          w' = w /\ t = [EvLog LvWarning (AboutToReplace (name selected))]) \/
         (present (fs w !! videoPath) = true /\ stdin w = [] /\ o = Pending /\ w' = w /\
          t = [EvLog LvWarning (AboutToReplace (name selected)); EvQuestion ConfirmPrompt]) \/
         (present (fs w !! videoPath) = true /\
          exists answer rest, stdin w = answer :: rest /\ stdin w' = rest /\
            o = Resolved (is_yes answer) /\
            t = [EvLog LvWarning (AboutToReplace (name selected));
                 EvQuestion ConfirmPrompt; EvAnswer ConfirmPrompt answer]))).
Proof.
  unfold getUserConfirmation. wp_run.
  all: cbn [app fs clock stdin]; (split; [reflexivity|]); (split; [reflexivity|]).
  - right; left. match goal with H : fs _ !! _ = Some _ |- _ => rewrite H end.
    repeat split; auto.
  - right; right. match goal with H : fs _ !! _ = Some _ |- _ => rewrite H end.
    split; [reflexivity|]. do 2 eexists. repeat split; eauto.
  - left. repeat split; auto.
Qed.

(** The polling loop scans the directory; when it is empty, it sleeps
    one interval and goes on with one attempt less. *)
Lemma waitLoop_spec n w :
  wp (waitLoop E n) w
     (fun o w' t =>
        ((o = Rejected SeedTimeout) \/ (exists x, o = Resolved x /\ x ∈ scan w')) /\
        Forall selection_event t /\ dialogue t = [] /\ fs_calls t = [] /\
        stdin w' = stdin w).
Proof.
  revert w. induction n as [|n IH]; intros w; cbn [waitLoop].
  - wp_run. split; [by left|]. split; [constructor|]. auto.
  - apply wp_bind. eapply wp_mono; [apply getExistingWallpapers_spec|].
    intros o w' t (-> & Hscan_t & ->). wp_rule.
    destruct (scan_trace_silent _ Hscan_t) as (Hfs & Hd & _ & _ & _ & Hsel & _).
    destruct (scan w) as [|first rest] eqn:Hscan.
    + do 3 wp_rule. eapply wp_mono; [apply IH|].
      intros o w' t' (Ho & Ht & Hd' & Hfs' & Hin).
      norm_trace. rewrite Hfs, Hd, Hd', Hfs'. cbn [app].
      split; [exact Ho|]. split; [|auto].
      apply Forall_app_2; [exact Hsel|]. constructor; [reflexivity|exact Ht].
    + wp_run. norm_trace. rewrite Hfs, Hd. split.
      { right. exists first. split; [reflexivity|]. rewrite Hscan. apply list_elem_of_here. }
      split; [|auto]. apply Forall_app_2; [exact Hsel|]. by events.
Qed.

Lemma waitLoop_found n w x rest :
  scan w = x :: rest ->
  let r := waitLoop E (S n) w in
  out r = Resolved x /\ final r = w /\ sleeps (trace r) = [].
Proof.
  intros Hscan r. subst r.
  apply (wp_run (waitLoop E (S n)) w
           (fun o w' t => o = Resolved x /\ w' = w /\ sleeps t = [])).
  cbn [waitLoop]. apply wp_bind. eapply wp_mono; [apply getExistingWallpapers_spec|].
  intros o w' t (-> & Hscan_t & ->). wp_rule. rewrite Hscan.
  destruct (scan_trace_silent _ Hscan_t) as (_ & _ & Hs & _).
  wp_run. rewrite sleeps_app, Hs. auto.
Qed.

Lemma waitLoop_empty n w :
  scan w = [] ->
  let w1 := final (sleep E retryInterval w) in
  let r := waitLoop E (S n) w in
  out r = out (waitLoop E n w1) /\ final r = final (waitLoop E n w1) /\
  sleeps (trace r) = retryInterval :: sleeps (trace (waitLoop E n w1)).
Proof.
  intros Hscan w1 r. subst r.
  apply (wp_run (waitLoop E (S n)) w
           (fun o w' t => o = out (waitLoop E n w1) /\ w' = final (waitLoop E n w1) /\
                          sleeps t = retryInterval :: sleeps (trace (waitLoop E n w1)))).
  cbn [waitLoop]. apply wp_bind. eapply wp_mono; [apply getExistingWallpapers_spec|].
  intros o w' t (-> & Hscan_t & ->). wp_rule. rewrite Hscan.
  destruct (scan_trace_silent _ Hscan_t) as (_ & _ & Hs & _).
  do 3 wp_rule. apply wp_named. fold w1.
  rewrite !sleeps_app, Hs. auto.
Qed.

(** The polling loop with [n] attempts: either every scan is empty, and
    it times out after [n] sleeps; or the first scan that finds something
    is the [k]-th, after [k] sleeps, and its first entry is returned. *)
Lemma waitLoop_run n w :
  let r := waitLoop E n w in
  ((forall i, (i < n)%nat -> scan (poll_world E i w) = []) /\
   out r = Rejected SeedTimeout /\
   sleeps (trace r) = replicate n retryInterval /\ final r = poll_world E n w) \/
  (exists k x rest, (k < n)%nat /\
     (forall i, (i < k)%nat -> scan (poll_world E i w) = []) /\
     scan (poll_world E k w) = x :: rest /\
     out r = Resolved x /\
     sleeps (trace r) = replicate k retryInterval /\ final r = poll_world E k w).
Proof.
  revert w. induction n as [|n IH]; intros w r; subst r.
  - left. split; [intros i Hi; lia|]. by cbn.
  - destruct (scan w) as [|x rest] eqn:Hscan.
    + destruct (waitLoop_empty n w Hscan) as (Ho & Hf & Hs).
      rewrite Ho, Hf, Hs.
      destruct (IH (final (sleep E retryInterval w)))
        as [(Hall & Hout & Hsl & Hfin)|(k & x & rest & Hk & Hall & Hk' & Hout & Hsl & Hfin)].
      * left. split; [|by rewrite Hout, Hsl, Hfin].
        intros [|i] Hi; [exact Hscan|]. apply Hall. lia.
      * right. exists (S k), x, rest. split; [lia|]. split.
        { intros [|i] Hi; [exact Hscan|]. apply Hall. lia. }
        by rewrite Hout, Hsl, Hfin.
    + destruct (waitLoop_found n w x rest Hscan) as (Ho & Hf & Hs).
      right. exists 0%nat, x, rest. split; [lia|]. split; [intros i Hi; lia|].
      by rewrite Ho, Hf, Hs.
Qed.
End Steps.

(** * The selection prompt *)

Section Selection.
Variable E : Env.
Import WallpaperManager.

(** With more fuel than lines of input, [promptUser] goes through the
    rounds of [prompt_rounds]: the fuel never runs out. *)
Lemma promptUser_rounds fuel wallpapers w :
  (length (stdin w) < fuel)%nat ->
  wp (promptUser fuel wallpapers) w
     (fun o w' t =>
        (o, stdin w', t) = prompt_rounds wallpapers (stdin w) /\
        fs w' = fs w /\ clock w' = clock w).
Proof.
  revert w. induction fuel as [|fuel IH]; intros w Hfuel; [lia|].
  cbn [promptUser]. apply wp_bind, wp_question.
  - intros Hin. wp_rule. rewrite Hin. cbn. auto.
  - intros a rest Hin. wp_rule. rewrite Hin. cbn [prompt_rounds]. unfold valid_choice.
    assert (wp (log LvWarning InvalidChoice;; promptUser fuel wallpapers)
              (mkWorld (fs w) (clock w) (S (tick w)) rest)
              (fun o' w' t2 =>
                 (o', stdin w', [EvQuestion (SelectPrompt (length wallpapers));
                                 EvAnswer (SelectPrompt (length wallpapers)) a] ++ t2) =
                 (let '(o, r, t) := prompt_rounds wallpapers rest in
                  (o, r, EvQuestion (SelectPrompt (length wallpapers))
                         :: EvAnswer (SelectPrompt (length wallpapers)) a
                         :: EvLog LvWarning InvalidChoice :: t)) /\
                 fs w' = fs w /\ clock w' = clock w)) as Hround.
    { do 3 wp_rule. eapply wp_mono; [apply IH; rewrite Hin in Hfuel; cbn in *; lia|].
      cbn [stdin fs clock]. intros o w' t (Hrun & Hfs & Hclock).
      destruct (prompt_rounds wallpapers rest) as [[o0 r0] t0].
      injection Hrun as -> -> ->. auto. }
    destruct (is_cancel a); [wp_run; cbn; auto|].
    destruct (JS.parseInt a) as [choice|]; [|exact Hround].
    destruct ((choice <? 1) || (Z.of_nat (length wallpapers) <? choice));
      cbn [negb default]; [exact Hround|].
    wp_run. cbn. auto.
Qed.

Lemma valid_choice_lookup (wallpapers : list wallpaper) a :
  valid_choice (length wallpapers) a = true ->
  exists c x, JS.parseInt a = Some c /\ 1 <= c <= Z.of_nat (length wallpapers) /\
    wallpapers !! Z.to_nat (c - 1) = Some x.
Proof.
  unfold valid_choice. destruct (JS.parseInt a) as [c|]; [|discriminate].
  intros H. apply negb_true_iff, orb_false_iff in H as [H1 H2].
  apply Z.ltb_ge in H1, H2.
  destruct (lookup_lt_is_Some_2 wallpapers (Z.to_nat (c - 1))) as [x Hx]; [lia|].
  exists c, x. auto.
Qed.

(** The outcome of the rounds. *)
Lemma prompt_rounds_outcome wallpapers answers o rest t :
  prompt_rounds wallpapers answers = (o, rest, t) ->
  let q := SelectPrompt (length wallpapers) in
  match o with
  | Pending => rest = [] /\ forall ev, ev ∈ t -> cancels ev = false
  | Resolved None => exists a, EvAnswer q a ∈ t /\ is_cancel a = true
  | Resolved (Some x) =>
      (exists a c, EvAnswer q a ∈ t /\ is_cancel a = false /\
         JS.parseInt a = Some c /\ 1 <= c <= Z.of_nat (length wallpapers) /\
         wallpapers !! Z.to_nat (c - 1) = Some x) /\
      forall ev, ev ∈ t -> cancels ev = false
  | Rejected _ => False
  end.
Proof.
  revert o rest t. induction answers as [|a answers IH]; intros o rest t; cbn [prompt_rounds].
  - intros [= <- <- <-]. split; [reflexivity|].
    intros ev Hev. apply list_elem_of_singleton in Hev. by subst.
  - destruct (is_cancel a) eqn:Hcancel.
    { intros [= <- <- <-]. exists a. split; [|exact Hcancel].
      rewrite !elem_of_cons. auto. }
    destruct (valid_choice (length wallpapers) a) eqn:Hvalid.
    { intros [= <- <- <-].
      destruct (valid_choice_lookup _ _ Hvalid) as (c & x & Hparse & Hrange & Hx).
      rewrite Hparse. cbn [default from_option id]. rewrite Hx. split.
      - exists a, c. rewrite !elem_of_cons. auto 10.
      - intros ev. rewrite !elem_of_cons, elem_of_nil.
        intros [->|[->|[]]]; [reflexivity|exact Hcancel]. }
    destruct (prompt_rounds wallpapers answers) as [[o0 r0] t0].
    intros [= <- <- <-]. specialize (IH o0 r0 t0 eq_refl). cbv zeta in IH.
    assert ((forall ev, ev ∈ t0 -> cancels ev = false) ->
            forall ev, ev ∈ EvQuestion (SelectPrompt (length wallpapers))
                           :: EvAnswer (SelectPrompt (length wallpapers)) a
                           :: EvLog LvWarning InvalidChoice :: t0 -> cancels ev = false)
      as Hnone.
    { intros H0 ev. rewrite !elem_of_cons.
      intros [->|[->|[->|Hev]]]; [reflexivity|exact Hcancel|reflexivity|by apply H0]. }
    destruct o0 as [[x|]| |].
    + destruct IH as [(a' & c & Hin & Hrest) Hno]. split; [|by apply Hnone].
      exists a', c. rewrite !elem_of_cons. auto 10.
    + destruct IH as (a' & Hin & Hc). exists a'. rewrite !elem_of_cons. auto.
    + exact IH.
    + destruct IH as [-> Hno]. split; [reflexivity|by apply Hnone].
Qed.

(** A line that neither cancels nor names an entry is followed by the
    warning and by the question again. *)
Lemma prompt_rounds_reprompt wallpapers answers :
  let q := SelectPrompt (length wallpapers) in
  let t := snd (prompt_rounds wallpapers answers) in
  (exists t', t = EvQuestion q :: t') /\
  Forall selection_event t /\ fs_calls t = [] /\ sleeps t = [] /\
  forall t1 a t2, t = t1 ++ EvAnswer q a :: t2 ->
    is_cancel a = false -> valid_choice (length wallpapers) a = false ->
    exists t3, t2 = EvLog LvWarning InvalidChoice :: EvQuestion q :: t3.
Proof.
  intros q. induction answers as [|a0 answers IH]; cbn [prompt_rounds].
  - cbn. split; [eauto|]. split; [by repeat constructor|]. split; [done|]. split; [done|].
    intros [|? [|? ?]] a t2; cbn; intros [=].
  - destruct (is_cancel a0) eqn:Hcancel; [|destruct (valid_choice _ a0) eqn:Hvalid].
    1,2: cbn; (split; [eauto|]); (split; [by repeat constructor|]);
         (split; [done|]); (split; [done|]);
         intros [|? [|? [|? ?]]] a t2; cbn; intros [=]; subst; congruence.
    destruct (prompt_rounds wallpapers answers) as [[o0 r0] t0]. cbn [snd] in *.
    destruct IH as ((t' & Ht') & Hsel & Hfs & Hsl & IH).
    split; [eauto|]. split; [by repeat constructor|].
    split; [by cbn|]. split; [by cbn|].
    intros t1 a t2 Heq Hc Hv.
    destruct t1 as [|e1 [|e2 [|e3 t1]]]; cbn in Heq.
    + discriminate.
    + injection Heq as _ _ <-. rewrite Ht'. fold q. eauto.
    + discriminate.
    + injection Heq as _ _ _ Heq. by eapply IH.
Qed.

(** The rounds run no command. *)
Lemma prompt_rounds_finder wallpapers answers :
  finder_only (snd (prompt_rounds wallpapers answers)).
Proof.
  induction answers as [|a0 answers IH]; cbn [prompt_rounds]; [cbn [snd]; by finder|].
  destruct (is_cancel a0); [cbn [snd]; by finder|].
  destruct (valid_choice _ a0); [cbn [snd]; by finder|].
  destruct (prompt_rounds wallpapers answers) as [[o0 r0] t0]. cbn [snd] in *. by finder.
Qed.

(** What [selectWallpaperFromList] settles with, and how it treats each
    answer. *)
Lemma selectWallpaperFromList_run wallpapers w :
  let q := SelectPrompt (length wallpapers) in
  wp (selectWallpaperFromList E wallpapers) w
     (fun o w' t =>
        fs w' = fs w /\ clock w' = clock w /\
        Forall selection_event t /\ fs_calls t = [] /\ sleeps t = [] /\
        match o with
        | Pending => stdin w' = [] /\ forall ev, ev ∈ t -> cancels ev = false
        | Resolved None => exists a, EvAnswer q a ∈ t /\ is_cancel a = true
        | Resolved (Some x) =>
            (exists a c, EvAnswer q a ∈ t /\ is_cancel a = false /\
               JS.parseInt a = Some c /\ 1 <= c <= Z.of_nat (length wallpapers) /\
               wallpapers !! Z.to_nat (c - 1) = Some x) /\
            forall ev, ev ∈ t -> cancels ev = false
        | Rejected _ => False
        end /\
        (exists t0, t = EvExec (OpenFinder targetDir) :: t0) /\
        (forall t1 a t2, t = t1 ++ EvAnswer q a :: t2 ->
           is_cancel a = false -> valid_choice (length wallpapers) a = false ->
           exists t3, t2 = EvLog LvWarning InvalidChoice :: EvQuestion q :: t3) /\
        finder_only t).
Proof.
  intros q. unfold selectWallpaperFromList.
  apply wp_bind. eapply wp_mono; [apply openFinderAtWallpaperDir_spec|].
  intros o w1 t ((b & ->) & Hsel & Hd & Hfs & Hsl & Hfs1 & Hin1 & Hclock1 & l & m & ->).
  wp_rule.
  pose proof (promptUser_rounds (S (length (stdin w1))) wallpapers w1 (Nat.lt_succ_diag_r _))
    as (Hrun & Hfs2 & Hclock2).
  unfold wp.
  destruct (promptUser (S (length (stdin w1))) wallpapers w1) as [o2 w2 t2].
  cbn [out final trace] in *.
  pose proof (prompt_rounds_outcome wallpapers (stdin w1) o2 (stdin w2) t2 (eq_sym Hrun))
    as Hout.
  pose proof (prompt_rounds_reprompt wallpapers (stdin w1)) as Hre.
  cbv zeta in Hout, Hre. rewrite <- Hrun in Hre. cbn [snd] in Hre. fold q in Hout, Hre.
  destruct Hre as ((t' & Ht') & Hsel2 & Hfs3 & Hsl3 & Hre).
  pose proof (prompt_rounds_finder wallpapers (stdin w1)) as Hfinder.
  rewrite <- Hrun in Hfinder. cbn [snd] in Hfinder.
  split; [congruence|]. split; [congruence|].
  split; [by apply Forall_app_2|].
  split; [by rewrite fs_calls_app, Hfs3|]. split; [by rewrite sleeps_app, Hsl3|].
  assert ((forall ev, ev ∈ t2 -> cancels ev = false) ->
          forall ev, ev ∈ [EvExec (OpenFinder targetDir); EvLog l m] ++ t2 ->
                     cancels ev = false) as Hnone.
  { intros H0 ev. cbn [app]. rewrite !elem_of_cons.
    intros [->|[->|Hev]]; [reflexivity|reflexivity|by apply H0]. }
  split; [|split; [cbn [app]; eauto|split; [|by finder]]].
  - destruct o2 as [[x|]| |]; try done.
    + destruct Hout as [(a & c & Hin & Hrest) Hno]. split; [|by apply Hnone].
      exists a, c. cbn [app]. rewrite !elem_of_cons. auto 10.
    + destruct Hout as (a & Hin & Hc). exists a. cbn [app]. rewrite !elem_of_cons. auto.
    + destruct Hout as [Hrest Hno]. split; [exact Hrest|by apply Hnone].
  - intros t1 a t2' Heq Hc Hv.
    destruct t1 as [|e1 [|e2 t1]]; cbn in Heq.
    + discriminate.
    + discriminate.
    + injection Heq as _ _ Heq. by eapply Hre.
Qed.
End Selection.

(** * Backup and install *)

Ltac split_in H :=
  rewrite ?elem_of_app, ?elem_of_cons, ?elem_of_nil in H;
  repeat match type of H with
    | _ \/ _ => destruct H as [H|H]
    | False => destruct H
    end.

Ltac not_perm :=
  match goal with
  | Hin : ?x ∈ ?t, Hall : Forall (perm_event _) ?t |- _ =>
      exfalso; rewrite Forall_forall in Hall;
      destruct (Hall _ Hin) as [(? & ?)|(? & ?)]; discriminate
  end.

Ltac elem :=
  rewrite ?elem_of_app, ?elem_of_cons, ?elem_of_nil; intuition (eauto; congruence).

Ltac revents :=
  repeat lazymatch goal with
    | |- Forall _ [] => constructor
    | |- Forall _ (_ :: _) => constructor; [cbn; eauto 10 |]
    | |- Forall _ (_ ++ _) => apply Forall_app_2
    end.

Section Replace.
Variable E : Env.
Import WallpaperManager.

(** The name under which [createBackup] copies [target] at time [date]. *)
Definition backup_name (target : wallpaper) (date : Z) : string :=
  JS.parse_name (name target) +:+ "_backup_" +:+
  JS.replace_colons_dots (toISOString E date) +:+ ".mov".

Ltac wp_spec ::=
  lazymatch goal with
  | |- wp (Utils.fixFilePermissions _ _) _ _ =>
      eapply wp_mono;
      [apply Utils_fixFilePermissions_spec
      |intros ? ? ? ((? & ->) & ? & ? & ? & ? & ? & ? & ?)]
  end.

Lemma perm_event_replace videoPath target n ev :
  perm_event (JS.path_join (backupDir E) n) ev -> replace_event E videoPath target ev.
Proof.
  intros [(args & ->)|(r & ->)]; cbn; eauto.
Qed.

(** [createBackup] never throws: a failure of the copy (or of the
    creation of the backup directory) is logged as a warning and [null]
    is returned. *)
Lemma createBackup_spec videoPath target w :
  let dst := JS.path_join (backupDir E) (backup_name target (clock w)) in
  wp (createBackup E target) w
     (fun o w' t =>
        (exists p, o = Resolved p) /\
        Forall (replace_event E videoPath target) t /\
        stdin w' = stdin w /\
        (forall e, EvFs (OpCopyFile (path target) dst) (Some e) ∈ t ->
           o = Resolved None /\
           EvLog LvWarning (CouldNotCreateBackup (FsError e (OpCopyFile (path target) dst))) ∈ t) /\
        (o = Resolved None <-> exists e, EvLog LvWarning (CouldNotCreateBackup e) ∈ t)).
Proof.
  intros dst. unfold createBackup, Utils.ensureDirectoryExists.
  fold (backup_name target (clock w)). fold dst.
  wp_run.
  all: cbn [fs with_fs step stdin clock] in *.
  all: (split; [eauto|]).
  all: (split; [revents; try (eapply Forall_impl; [eassumption|]; intros ?; apply perm_event_replace)|]).
  all: (split; [congruence|]).
  all: split;
    [intros e0 Hin; split_in Hin; try discriminate; try not_perm;
     inversion Hin; subst; (split; [reflexivity|]); elem
    |].
  all: split; [try discriminate; intros _; eexists; elem|].
  all: intros (e0 & Hin); split_in Hin; try discriminate; try not_perm; reflexivity.
Qed.
(** [touch] keeps every file and its bytes. *)
Lemma touch_movs_data dir date (files : gmap string inode) p i :
  files !! p = Some i ->
  exists i', touch_movs dir date files !! p = Some i' /\ data i' = data i.
Proof.
  intros Hp. unfold touch_movs. rewrite map_lookup_imap, Hp. cbn.
  destruct (_ && _); eauto.
Qed.

(** [installWallpaper] never throws. It copies the video to the target
    directory under the name it is given, and answers [true] only when
    that copy succeeded. *)
Lemma installWallpaper_spec videoPath target w :
  let targetPath := JS.path_join targetDir (name target) in
  wp (installWallpaper E videoPath (name target)) w
     (fun o w' t =>
        (exists b, o = Resolved b) /\
        Forall (replace_event E videoPath target) t /\
        stdin w' = stdin w /\
        EvLog LvInfo (InstallingWallpaper (name target)) ∈ t /\
        (exists r, EvFs (OpCopyFile videoPath targetPath) r ∈ t) /\
        (o = Resolved true ->
           EvFs (OpCopyFile videoPath targetPath) None ∈ t /\
           exists s i, fs w !! videoPath = Some s /\ fs w' !! targetPath = Some i /\
                       data i = data s) /\
        (o = Resolved false -> exists e, EvLog LvError (FailedToInstall e) ∈ t)).
Proof.
  intros targetPath. unfold installWallpaper, refreshWallpaperSystem,
    restartWallpaperDaemon, forceWallpaperRefresh.
  fold targetPath. wp_run.
  all: cbn [fs with_fs step stdin clock] in *.
  all: (split; [eauto|]).
  all: (split; [revents|]).
  all: (split; [congruence|]).
  all: (split; [elem|]).
  all: (split; [eexists; elem|]).
  all: (split; [try discriminate | try discriminate; intros _; eexists; elem]).
  all: intros _; (split; [elem|]).
  all: match goal with
       | H : apply_op (OpCopyFile _ _) _ _ = inr _ |- _ =>
           apply apply_copy in H; destruct H as (s & i' & Hs & _ & -> & Hd & _)
       end.
  all: exists s.
  all: try (destruct (touch_movs_data targetDir (clock w) (<[targetPath:=i']> (fs w)) targetPath i')
              as (i'' & Ht & Hd'); [apply lookup_insert_eq|];
            exists i''; rewrite Ht, Hd'; by auto).
  all: exists i'; rewrite lookup_insert_eq; auto.
Qed.
(** The replacement is the backup followed by the install, whatever
    the backup returned. *)
Lemma replace_run videoPath target w :
  let b := createBackup E target w in
  let i := installWallpaper E videoPath (name target) (final b) in
  replace E videoPath target w = mkRun (out i) (final i) (trace b ++ trace i).
Proof.
  intros b i. unfold replace.
  assert (Hb : exists p, out b = Resolved p).
  { apply (wp_run (createBackup E target) w (fun o _ _ => exists p, o = Resolved p)).
    eapply wp_mono; [apply (createBackup_spec videoPath)|]. by intros o w' t (Ho & _). }
  destruct Hb as (p & Hb). unfold bind at 1. fold b. rewrite Hb.
  by rewrite bind_ret_r.
Qed.

Lemma bind_run {A B} (m : M A) (k : A -> M B) w :
  bind m k w =
  match out (m w) with
  | Resolved a =>
      let r' := k a (final (m w)) in
      mkRun (out r') (final r') (trace (m w) ++ trace r')
  | Rejected e => mkRun (Rejected e) (final (m w)) (trace (m w))
  | Pending => mkRun Pending (final (m w)) (trace (m w))
  end.
Proof. reflexivity. Qed.

Lemma try_catch_run {A} (m : M A) (h : error -> M A) w :
  try_catch m h w =
  match out (m w) with
  | Rejected e =>
      let r' := h e (final (m w)) in
      mkRun (out r') (final r') (trace (m w) ++ trace r')
  | _ => m w
  end.
Proof. reflexivity. Qed.

Lemma log_run l msg w : log l msg w = mkRun (Resolved tt) w [EvLog l msg].
Proof. reflexivity. Qed.

(** What [setupWallpaper] does after the choice. *)
Lemma setupWallpaper_after_choice videoPath w :
  let c := choose E videoPath w in
  match out c with
  | Resolved (Some target) =>
      let b := createBackup E target (final c) in
      let i := installWallpaper E videoPath (name target) (final b) in
      setupWallpaper E videoPath w =
        mkRun (out i) (final i) (trace c ++ trace b ++ trace i) /\
      exists success, out i = Resolved success
  | Resolved None =>
      setupWallpaper E videoPath w =
        mkRun (Resolved false) (final c) (trace c ++ [EvLog LvInfo CancelledByUser])
  | Rejected e =>
      setupWallpaper E videoPath w =
        mkRun (Resolved false) (final c) (trace c ++ [EvLog LvError (SetupFailed e)])
  | Pending => setupWallpaper E videoPath w = mkRun Pending (final c) (trace c)
  end.
Proof.
  intros c. rewrite setupWallpaper_phases. unfold setup_in_phases.
  rewrite try_catch_run, bind_run. fold c.
  destruct (out c) as [[target|]|e|] eqn:Hc.
  - rewrite replace_run. cbv zeta. cbn [out final trace].
    assert (Hi : exists s, out (installWallpaper E videoPath (name target)
                                  (final (createBackup E target (final c)))) = Resolved s).
    { apply (wp_run (installWallpaper E videoPath (name target)) _
               (fun o _ _ => exists s, o = Resolved s)).
      eapply wp_mono; [apply installWallpaper_spec|]. by intros o w' t (Ho & _). }
    destruct Hi as (s & Hi). rewrite Hi. split; [reflexivity|eauto].
  - rewrite bind_run, log_run. cbv zeta. cbn [out final trace ret]. by rewrite app_nil_r.
  - cbv zeta. cbn [out final trace]. rewrite bind_run, log_run. cbv zeta.
    cbn [out final trace ret]. by rewrite app_nil_r.
  - reflexivity.
Qed.
End Replace.
(** * The choice of the wallpaper to replace *)

Section Choice.
Variable E : Env.
Import WallpaperManager.

Lemma listed_fs w w' x : fs w' = fs w -> listed w x -> listed w' x.
Proof. unfold listed. by intros ->. Qed.

Lemma silent_no_cancel t : dialogue t = [] -> forall ev, ev ∈ t -> cancels ev = false.
Proof.
  intros Hd ev Hev. destruct (cancels ev) eqn:Hc; [|reflexivity].
  assert (ev ∈ dialogue t) as Hin.
  { unfold dialogue. apply list_elem_of_In, filter_In. split; [by apply list_elem_of_In|].
    destruct ev; try discriminate; reflexivity. }
  rewrite Hd in Hin. by apply elem_of_nil in Hin.
Qed.

Lemma no_cancel_app t1 t2 :
  (forall ev, ev ∈ t1 -> cancels ev = false) ->
  (forall ev, ev ∈ t2 -> cancels ev = false) ->
  forall ev, ev ∈ t1 ++ t2 -> cancels ev = false.
Proof. intros H1 H2 ev. rewrite elem_of_app. intros [?|?]; auto. Qed.

Lemma scan_trace_finder t : scan_trace t -> finder_only t.
Proof. intros [->|(e & ->)]; by finder. Qed.

(** What a branch of the choice, started in the world [w0], ends with. *)
Definition chosen (w0 : World) (o : outcome (option wallpaper)) (w' : World)
    (t : list event) : Prop :=
  Forall selection_event t /\ fs_calls t = [] /\
  match o with
  | Resolved (Some x) => listed w' x /\ forall ev, ev ∈ t -> cancels ev = false
  | Resolved None => user_cancelled t /\ fs w' = fs w0 /\ sleeps t = [] /\ finder_only t
  | _ => forall ev, ev ∈ t -> cancels ev = false
  end.

(** The branch that waits for the user to seed the directory. *)
Lemma seed_branch_spec msg w :
  selection_event (EvLog LvWarning msg) ->
  wp (log LvWarning msg ;;
      openWallpaperSettings E ;;
      wallpaperFile <- waitForWallpaperSetup E ;;
      ret (Some wallpaperFile)) w (chosen w).
Proof.
  intros Hmsg. do 2 wp_rule. apply wp_bind.
  eapply wp_mono; [apply openWallpaperSettings_spec|].
  intros o w1 t1 ((b & ->) & Hsel1 & Hd1 & Hfs1 & _). wp_rule. apply wp_bind.
  eapply wp_mono; [apply waitLoop_spec|].
  intros o w2 t2 (Ho & Hsel2 & Hd2 & Hfs2 & _).
  assert (Hquiet : forall ev, ev ∈ [EvLog LvWarning msg] ++ t1 ++ t2 -> cancels ev = false).
  { apply silent_no_cancel. by rewrite !dialogue_app, Hd1, Hd2. }
  assert (Hsel : Forall selection_event ([EvLog LvWarning msg] ++ t1 ++ t2)).
  { apply Forall_app_2; [by constructor|by apply Forall_app_2]. }
  assert (Hfs : fs_calls ([EvLog LvWarning msg] ++ t1 ++ t2) = []).
  { by rewrite !fs_calls_app, Hfs1, Hfs2. }
  destruct Ho as [->|(x & -> & Hx)]; wp_run; unfold chosen; rewrite ?app_nil_r.
  - auto.
  - split; [exact Hsel|]. split; [exact Hfs|]. split; [by apply scan_listed|exact Hquiet].
Qed.

(** The branch that asks for confirmation of the target [x]. *)
Lemma confirm_branch_spec x videoPath w :
  listed w x ->
  wp (confirmed <- getUserConfirmation x videoPath ;;
      if negb confirmed then ret None else ret (Some x)) w (chosen w).
Proof.
  intros Hx. apply wp_bind. eapply wp_mono; [apply getUserConfirmation_spec|].
  intros o w1 t1 (Hfs & _ & Hcases).
  destruct Hcases as [(_ & -> & _ & ->)|[(_ & _ & -> & _ & ->)|(_ & a & rest & _ & _ & -> & ->)]].
  - wp_run. unfold chosen. split; [by repeat constructor|]. split; [reflexivity|].
    by apply silent_no_cancel.
  - wp_run. unfold chosen. split; [by repeat constructor|]. split; [reflexivity|].
    intros ev Hev. split_in Hev; by subst.
  - wp_rule. destruct (is_yes a) eqn:Hyes; cbn [negb]; wp_run; unfold chosen; rewrite app_nil_r.
    + split; [by repeat constructor|]. split; [reflexivity|].
      split; [by apply (listed_fs w)|].
      intros ev Hev. split_in Hev; subst; try reflexivity.
      change (negb (is_yes a) = false). by rewrite Hyes.
    + split; [by repeat constructor|]. split; [reflexivity|].
      split; [|split; [exact Hfs|split; [reflexivity|by finder]]].
      exists (EvAnswer ConfirmPrompt a). split; [elem|].
      change (negb (is_yes a) = true). by rewrite Hyes.
Qed.
(** The branch that asks which of several wallpapers to replace. *)
Lemma select_branch_spec wallpapers videoPath w :
  (forall x, x ∈ wallpapers -> listed w x) ->
  wp (log LvInfo (FoundWallpapers (length wallpapers)) ;;
      selected <- selectWallpaperFromList E wallpapers ;;
      match selected with
      | None => ret None
      | Some selectedWallpaper =>
          confirmed <- getUserConfirmation selectedWallpaper videoPath ;;
          if negb confirmed then ret None else ret (Some selectedWallpaper)
      end) w (chosen w).
Proof.
  intros Hall. do 2 wp_rule. apply wp_bind.
  eapply wp_mono; [apply selectWallpaperFromList_run|].
  intros o w1 t1 (Hfs1 & _ & Hsel1 & Hcalls1 & Hsl1 & Ho & _ & _ & Hfinder1). wp_rule.
  destruct o as [[x|]|e|]; [| |done|].
  - destruct Ho as [(a & c & _ & _ & _ & _ & Hx) Hquiet1].
    eapply wp_mono; [apply confirm_branch_spec|].
    { apply (listed_fs w); [exact Hfs1|]. apply Hall. by eapply list_elem_of_lookup_2. }
    intros o w2 t2 (Hsel2 & Hcalls2 & Ho2). unfold chosen.
    split; [apply Forall_app_2; [by constructor|by apply Forall_app_2]|].
    split; [by rewrite !fs_calls_app, Hcalls1, Hcalls2|].
    assert (forall ev, ev ∈ [EvLog LvInfo (FoundWallpapers (length wallpapers))] ++ t1 ->
              cancels ev = false) as Hquiet.
    { apply no_cancel_app; [|exact Hquiet1]. intros ev Hev. split_in Hev. by subst. }
    rewrite app_assoc.
    destruct o as [[y|]|e|].
    + destruct Ho2 as [Hy Hquiet2]. split; [exact Hy|by apply no_cancel_app].
    + destruct Ho2 as ((ev & Hev & Hc) & Hfs2 & Hsl2 & Hfinder2).
      split; [exists ev; split; [elem|exact Hc]|].
      split; [congruence|]. split; [by rewrite !sleeps_app, Hsl1, Hsl2|by finder].
    + by apply no_cancel_app.
    + by apply no_cancel_app.
  - destruct Ho as (a & Hin & Hc). wp_run. unfold chosen. rewrite app_nil_r.
    split; [apply Forall_app_2; [by constructor|exact Hsel1]|].
    split; [by rewrite fs_calls_app, Hcalls1|].
    split; [exists (EvAnswer (SelectPrompt (length wallpapers)) a); split; [elem|exact Hc]|].
    split; [exact Hfs1|]. split; [by rewrite sleeps_app, Hsl1|by finder].
  - destruct Ho as [_ Hquiet1]. wp_run. unfold chosen.
    split; [apply Forall_app_2; [by constructor|exact Hsel1]|].
    split; [by rewrite fs_calls_app, Hcalls1|].
    apply no_cancel_app; [|exact Hquiet1]. intros ev Hev. split_in Hev. by subst.
Qed.

(** The choice: only the events of the selection flow; a wallpaper that
    is chosen is in the target directory; the flow ends without a
    choice exactly when the user cancelled, and then nothing changed
    but what the probe of the directory touched. *)
Lemma choose_spec videoPath w :
  wp (choose E videoPath) w
     (fun o w' t =>
        Forall selection_event t /\
        match o with
        | Resolved (Some x) => listed w' x /\ forall ev, ev ∈ t -> cancels ev = false
        | Resolved None =>
            user_cancelled t /\
            (forall q, q <> testFile -> q <> targetDir -> fs w' !! q = fs w !! q) /\
            (forall q, q <> testFile -> present (fs w !! q) = true -> present (fs w' !! q) = true) /\
            finder_only t
        | _ => forall ev, ev ∈ t -> cancels ev = false
        end).
Proof.
  unfold choose. apply wp_bind.
  eapply wp_mono; [apply checkCustomerDirectory_spec|].
  intros o w1 t1 ((hasAccess & ->) & Hsel1 & Hd1 & _ & _ & Hframe & Hkeep & Hfinder1). wp_rule.
  pose proof (silent_no_cancel _ Hd1) as Hquiet1.
  destruct hasAccess; cbn [negb]; [|wp_run; by rewrite app_nil_r].
  set (Q := fun (o : outcome (option wallpaper)) (w' : World) (t : list event) =>
        Forall selection_event t /\
        match o with
        | Resolved (Some x) => listed w' x /\ forall ev, ev ∈ t -> cancels ev = false
        | Resolved None =>
            user_cancelled t /\
            (forall q, q <> testFile -> q <> targetDir -> fs w' !! q = fs w !! q) /\
            (forall q, q <> testFile -> present (fs w !! q) = true ->
                       present (fs w' !! q) = true) /\
            finder_only t
        | _ => forall ev, ev ∈ t -> cancels ev = false
        end).
  assert (forall ts o w2 t2,
            Forall selection_event ts -> (forall ev, ev ∈ ts -> cancels ev = false) ->
            finder_only ts ->
            chosen w1 o w2 t2 -> Q o w2 (t1 ++ ts ++ t2))
    as Hbranch.
  { intros ts o w2 t2 Hsels Hquiets Hfinders (Hsel2 & _ & Ho).
    split; [by repeat apply Forall_app_2|].
    destruct o as [[x|]|e|].
    - destruct Ho as [Hx Hquiet2]. split; [exact Hx|]. by repeat apply no_cancel_app.
    - destruct Ho as ((ev & Hev & Hc) & Hfs & _ & Hfinder2).
      split; [exists ev; split; [elem|exact Hc]|].
      rewrite Hfs. split; [exact Hframe|]. split; [exact Hkeep|]. by finder.
    - by repeat apply no_cancel_app.
    - by repeat apply no_cancel_app. }
  unfold isTargetDirectoryEmpty.
  apply wp_bind. apply wp_bind. eapply wp_mono; [apply getExistingWallpapers_spec|].
  intros o w2 ts1 (-> & Hts1 & ->). do 3 wp_rule.
  destruct (scan_trace_silent _ Hts1) as (_ & _ & _ & _ & _ & Hsels1 & Hquiets1).
  destruct (scan w1) as [|x l] eqn:Hscan; cbn [length Nat.eqb].
  - eapply wp_mono; [apply seed_branch_spec; exact I|].
    intros o w2 t2 Hch. rewrite app_nil_r. by apply (Hbranch ts1); [| |by apply scan_trace_finder|].
  - apply wp_bind. eapply wp_mono; [apply getExistingWallpapers_spec|].
    intros o w2 ts2 (-> & Hts2 & ->). wp_rule. rewrite Hscan.
    destruct (scan_trace_silent _ Hts2) as (_ & _ & _ & _ & _ & Hsels2 & Hquiets2).
    assert (Hl : forall y, y ∈ x :: l -> listed w1 y).
    { intros y Hy. apply scan_listed. by rewrite Hscan. }
    destruct l as [|x' l].
    + eapply wp_mono; [apply confirm_branch_spec; apply Hl, list_elem_of_here|].
      intros o w2 t2 Hch. rewrite app_nil_r, (app_assoc ts1).
      apply (Hbranch (ts1 ++ ts2));
        [by apply Forall_app_2|by apply no_cancel_app
        |by apply Forall_app_2; apply scan_trace_finder|exact Hch].
    + eapply wp_mono; [apply (select_branch_spec (x :: x' :: l)); exact Hl|].
      intros o w2 t2 Hch. rewrite app_nil_r, (app_assoc ts1).
      apply (Hbranch (ts1 ++ ts2));
        [by apply Forall_app_2|by apply no_cancel_app
        |by apply Forall_app_2; apply scan_trace_finder|exact Hch].
Qed.
End Choice.
(** * The replacement flow as a whole *)

Section Flow.
Variable E : Env.
Import WallpaperManager.

Lemma replace_event_quiet videoPath target t :
  Forall (replace_event E videoPath target) t ->
  dialogue t = [] /\ sleeps t = [] /\ forall ev, ev ∈ t -> cancels ev = false.
Proof.
  induction 1 as [|ev t Hev _ (IH1 & IH2 & IH3)]; [split; [done|split; [done|]]|].
  - intros ev Hev. by apply elem_of_nil in Hev.
  - destruct ev; try done; cbn; (split; [exact IH1|]); (split; [exact IH2|]);
      intros ev' Hin; apply elem_of_cons in Hin as [->|Hin]; auto.
Qed.

(** The copies among the events of a replacement. *)
Lemma replace_event_copy videoPath target src dst res t :
  Forall (replace_event E videoPath target) t ->
  EvFs (OpCopyFile src dst) res ∈ t ->
  dst = JS.path_join targetDir (name target) \/
  (src = path target /\ exists n, dst = JS.path_join (backupDir E) n).
Proof.
  intros Hall Hin. rewrite Forall_forall in Hall. apply Hall in Hin. cbn in Hin.
  destruct Hin as [?|[_ ?]]; auto.
Qed.

Lemma selection_event_no_copy src dst res t :
  Forall selection_event t -> EvFs (OpCopyFile src dst) res ∉ t.
Proof.
  intros Hall Hin. rewrite Forall_forall in Hall. apply Hall in Hin. cbn in Hin.
  destruct Hin as [?|[?|?]]; discriminate.
Qed.

(** A run of [setupWallpaper] that installs: the choice, the backup
    and the install, in this order. *)
Lemma setupWallpaper_installs videoPath w :
  let r := setupWallpaper E videoPath w in
  let c := choose E videoPath w in
  out r = Resolved true ->
  exists target,
    let b := createBackup E target (final c) in
    let i := installWallpaper E videoPath (name target) (final b) in
    out c = Resolved (Some target) /\ out i = Resolved true /\ final r = final i /\
    trace r = trace c ++ trace b ++ trace i.
Proof.
  intros r c Hr. subst r.
  pose proof (setupWallpaper_after_choice E videoPath w) as Hrun. cbv zeta in Hrun. fold c in Hrun.
  destruct (out c) as [[target|]|e|] eqn:Hc.
  - destruct Hrun as [Hrun _]. rewrite Hrun in Hr |- *. cbn [out final trace] in *.
    exists target. auto.
  - rewrite Hrun in Hr. discriminate.
  - rewrite Hrun in Hr. discriminate.
  - rewrite Hrun in Hr. discriminate.
Qed.

(** C2: when [setupWallpaper] succeeds, the file written into the
    target directory has the name of the wallpaper that was chosen for
    replacement before the install. [installWallpaper] copies the video
    to the target directory joined with that name: the chosen wallpaper
    was listed under this very path, every other copy of the run goes
    from it to the backup directory, no other file is written but the
    probe file, and after the run the path holds the bytes of the video. *)
Theorem install_keeps_the_name videoPath w :
  let r := setupWallpaper E videoPath w in
  let c := choose E videoPath w in
  out r = Resolved true ->
  exists target,
    let targetPath := JS.path_join targetDir (name target) in
    out c = Resolved (Some target) /\
    listed (final c) target /\
    path target = targetPath /\
    EvFs (OpCopyFile videoPath targetPath) None ∈ trace r /\
    (forall src dst res, EvFs (OpCopyFile src dst) res ∈ trace r ->
       dst = targetPath \/
       (src = path target /\ exists n, dst = JS.path_join (backupDir E) n)) /\
    (forall p content res, EvFs (OpWriteFile p content) res ∈ trace r -> p = testFile) /\
    exists source installed,
      fs (final (createBackup E target (final c))) !! videoPath = Some source /\
      fs (final r) !! targetPath = Some installed /\ data installed = data source.
Proof.
  intros r c Hr.
  destruct (setupWallpaper_installs videoPath w Hr) as (target & Hc & Hi & Hfinal & Htrace).
  fold r c in Hc, Hi, Hfinal, Htrace. cbv zeta in Hi, Hfinal, Htrace.
  exists target. cbv zeta.
  pose proof (choose_spec E videoPath w) as Hchoose. unfold wp in Hchoose. fold c in Hchoose.
  rewrite Hc in Hchoose. destruct Hchoose as (Hsel & Hlisted & _).
  pose proof (createBackup_spec E videoPath target (final c)) as Hb.
  unfold wp in Hb. cbv zeta in Hb. destruct Hb as (_ & Hrep_b & _).
  pose proof (installWallpaper_spec E videoPath target
                (final (createBackup E target (final c)))) as Hinst.
  unfold wp in Hinst. cbv zeta in Hinst.
  destruct Hinst as (_ & Hrep_i & _ & _ & _ & Hok & _).
  destruct (Hok Hi) as (Hcopy & source & installed & Hsrc & Hdst & Hdata).
  split; [exact Hc|]. split; [exact Hlisted|]. split; [apply Hlisted|].
  rewrite Htrace, Hfinal.
  split; [elem|]. split; [|split].
  - intros src dst res Hin. split_in Hin.
    + by apply selection_event_no_copy in Hin.
    + eapply replace_event_copy; [exact Hrep_b|exact Hin].
    + eapply replace_event_copy; [exact Hrep_i|exact Hin].
  - intros p content res Hin.
    assert (forall t, Forall (replace_event E videoPath target) t ->
                      EvFs (OpWriteFile p content) res ∉ t) as Hno.
    { intros t Hall Hin'. rewrite Forall_forall in Hall. by apply Hall in Hin'. }
    split_in Hin.
    + rewrite Forall_forall in Hsel. apply Hsel in Hin. cbn in Hin.
      destruct Hin as [?|[?|?]]; congruence.
    + by apply (Hno _ Hrep_b) in Hin.
    + by apply (Hno _ Hrep_i) in Hin.
  - eauto.
Qed.

(** C1, as the code has it: a backup copy that fails does not stop the
    replacement. [createBackup] catches the error of the copy, logs a
    warning and returns [null]; [setupWallpaper] does not look at what
    it returns and goes on with [installWallpaper] for the same
    wallpaper, which copies the video over the target, and when this
    succeeds the target holds the bytes of the video. *)
Theorem failed_backup_does_not_stop_install videoPath w target :
  let c := choose E videoPath w in
  let b := createBackup E target (final c) in
  let i := installWallpaper E videoPath (name target) (final b) in
  let r := setupWallpaper E videoPath w in
  let backupPath := JS.path_join (backupDir E) (backup_name E target (clock (final c))) in
  let targetPath := JS.path_join targetDir (name target) in
  out c = Resolved (Some target) ->
  (exists p, out b = Resolved p) /\
  (forall e, EvFs (OpCopyFile (path target) backupPath) (Some e) ∈ trace b ->
     out b = Resolved None /\
     EvLog LvWarning (CouldNotCreateBackup (FsError e (OpCopyFile (path target) backupPath)))
       ∈ trace b) /\
  trace r = trace c ++ trace b ++ trace i /\ out r = out i /\
  EvLog LvInfo (InstallingWallpaper (name target)) ∈ trace i /\
  (exists res, EvFs (OpCopyFile videoPath targetPath) res ∈ trace i) /\
  (out r = Resolved true ->
     exists source installed,
       fs (final b) !! videoPath = Some source /\
       fs (final r) !! targetPath = Some installed /\ data installed = data source).
Proof.
  intros c b i r backupPath targetPath Hc.
  pose proof (setupWallpaper_after_choice E videoPath w) as Hrun. cbv zeta in Hrun.
  fold c in Hrun. rewrite Hc in Hrun. fold b i r in Hrun. destruct Hrun as [Hrun _].
  pose proof (createBackup_spec E videoPath target (final c)) as Hb.
  unfold wp in Hb. cbv zeta in Hb. fold b backupPath in Hb.
  destruct Hb as (Hres & _ & _ & Hfail & _).
  pose proof (installWallpaper_spec E videoPath target (final b)) as Hinst.
  unfold wp in Hinst. cbv zeta in Hinst. fold i targetPath in Hinst.
  destruct Hinst as (_ & _ & _ & Hlog & Hcopy & Hok & _).
  rewrite Hrun. cbn [out final trace].
  split; [exact Hres|]. split; [exact Hfail|]. split; [reflexivity|]. split; [reflexivity|].
  split; [exact Hlog|]. split; [exact Hcopy|].
  intros Hi. by destruct (Hok Hi) as (_ & ?).
Qed.

(** The cancellations, by the words of the answers. *)
Lemma user_cancelled_tokens t :
  user_cancelled t <->
  (exists n a, EvAnswer (SelectPrompt n) a ∈ t /\
     (JS.toLowerCase a = "c" \/ JS.toLowerCase a = "cancel")) \/
  (exists a, EvAnswer ConfirmPrompt a ∈ t /\
     JS.toLowerCase a <> "y" /\ JS.toLowerCase a <> "yes").
Proof.
  unfold user_cancelled. split.
  - intros (ev & Hin & Hc). destruct ev as [| | | | |q a|]; try discriminate.
    destruct q as [n|]; cbn [cancels] in Hc.
    + left. exists n, a. split; [exact Hin|]. unfold cancel_token in Hc.
      apply orb_true_iff in Hc as [Hc|Hc]; apply String.eqb_eq in Hc; auto.
    + right. exists a. split; [exact Hin|]. unfold says_yes in Hc.
      apply negb_true_iff, orb_false_iff in Hc as [H1 H2].
      apply String.eqb_neq in H1, H2. auto.
  - intros [(n & a & Hin & Hc)|(a & Hin & H1 & H2)].
    + exists (EvAnswer (SelectPrompt n) a). split; [exact Hin|]. cbn [cancels].
      unfold cancel_token. apply orb_true_iff.
      destruct Hc as [Hc|Hc]; [left|right]; by apply String.eqb_eq.
    + exists (EvAnswer ConfirmPrompt a). split; [exact Hin|]. cbn [cancels].
      unfold says_yes. apply negb_true_iff, orb_false_iff.
      split; by apply String.eqb_neq.
Qed.

(** C6, as the code has it: when the user answers [c] or [cancel] at
    the selection prompt, or anything but [y] or [yes] at the
    confirmation (in any case of letters), [setupWallpaper] logs the
    cancellation and returns [false]. Nothing was copied and no
    program was started with [spawn]; the only command that was run
    with [exec], if any, is the one that opens the target directory in
    Finder before the selection prompt; the only calls that change
    files are those of the write-access probe of the target directory,
    and every other path is as it was. *)
Theorem cancellation_leaves_the_files videoPath w :
  let r := setupWallpaper E videoPath w in
  (exists n a, EvAnswer (SelectPrompt n) a ∈ trace r /\
     (JS.toLowerCase a = "c" \/ JS.toLowerCase a = "cancel")) \/
  (exists a, EvAnswer ConfirmPrompt a ∈ trace r /\
     JS.toLowerCase a <> "y" /\ JS.toLowerCase a <> "yes") ->
  out r = Resolved false /\
  EvLog LvInfo CancelledByUser ∈ trace r /\
  (forall op res, EvFs op res ∈ trace r -> is_probe op) /\
  (forall src dst res, EvFs (OpCopyFile src dst) res ∉ trace r) /\
  (forall cmd args, EvSpawn cmd args ∉ trace r) /\
  (forall c, EvExec c ∈ trace r -> c = OpenFinder targetDir) /\
  (forall q, q <> testFile -> q <> targetDir -> fs (final r) !! q = fs w !! q) /\
  (forall q, q <> testFile -> present (fs w !! q) = true ->
             present (fs (final r) !! q) = true).
Proof.
  intros r Hwords. apply user_cancelled_tokens in Hwords as (ev & Hev & Hcancel).
  pose proof (setupWallpaper_after_choice E videoPath w) as Hrun. cbv zeta in Hrun.
  pose proof (choose_spec E videoPath w) as Hchoose. unfold wp in Hchoose.
  fold r in Hrun.
  destruct (out (choose E videoPath w)) as [[target|]|e|] eqn:Hc.
  - exfalso. destruct Hrun as [Hrun _]. destruct Hchoose as (_ & _ & Hquiet).
    pose proof (createBackup_spec E videoPath target (final (choose E videoPath w))) as Hb.
    unfold wp in Hb. cbv zeta in Hb. destruct Hb as (_ & Hrep_b & _).
    pose proof (installWallpaper_spec E videoPath target
                  (final (createBackup E target (final (choose E videoPath w))))) as Hinst.
    unfold wp in Hinst. cbv zeta in Hinst. destruct Hinst as (_ & Hrep_i & _).
    apply replace_event_quiet in Hrep_b as (_ & _ & Hqb), Hrep_i as (_ & _ & Hqi).
    rewrite Hrun in Hev. cbn [trace] in Hev. split_in Hev.
    + apply Hquiet in Hev. congruence.
    + apply Hqb in Hev. congruence.
    + apply Hqi in Hev. congruence.
  - destruct Hchoose as (Hsel & _ & Hframe & Hkeep & Hfinder). rewrite Hrun.
    cbn [out final trace].
    split; [reflexivity|]. split; [elem|].
    rewrite Forall_forall in Hsel.
    split; [|split; [|split; [|split; [|split; [exact Hframe|exact Hkeep]]]]].
    + intros op res Hin. split_in Hin; [|discriminate]. by apply Hsel in Hin.
    + intros src dst res Hin. split_in Hin; [|discriminate]. apply Hsel in Hin. cbn in Hin.
      destruct Hin as [?|[?|?]]; discriminate.
    + intros cmd args Hin. split_in Hin; [|discriminate]. by apply Hsel in Hin.
    + intros c Hin. split_in Hin; [|discriminate]. by eapply finder_only_commands.
  - exfalso. destruct Hchoose as (_ & Hquiet). rewrite Hrun in Hev. cbn [trace] in Hev.
    split_in Hev; [|by subst]. apply Hquiet in Hev. congruence.
  - exfalso. destruct Hchoose as (_ & Hquiet). rewrite Hrun in Hev. cbn [trace] in Hev.
    apply Hquiet in Hev. congruence.
Qed.

End Flow.
(** * The branches of the selection flow *)

Section Cardinality.
Variable E : Env.
Import WallpaperManager.

Lemma checkCustomerDirectory_no_sleep w :
  sleeps (trace (checkCustomerDirectory E w)) = [].
Proof.
  apply (wp_run (checkCustomerDirectory E) w (fun _ _ t => sleeps t = [])).
  unfold checkCustomerDirectory. wp_run; reflexivity.
Qed.

Lemma silent_no_question t q : dialogue t = [] -> EvQuestion q ∉ t.
Proof.
  intros Hd Hin.
  assert (EvQuestion q ∈ dialogue t) as Hq.
  { unfold dialogue. apply list_elem_of_In, filter_In. split; [by apply list_elem_of_In|done]. }
  rewrite Hd in Hq. by apply elem_of_nil in Hq.
Qed.

(** What [setupWallpaper] adds to the trace of the choice: no
    question, no answer and no sleep. *)
Lemma setupWallpaper_tail videoPath w :
  exists tail,
    trace (setupWallpaper E videoPath w) = trace (choose E videoPath w) ++ tail /\
    dialogue tail = [] /\ sleeps tail = [].
Proof.
  pose proof (setupWallpaper_after_choice E videoPath w) as Hrun. cbv zeta in Hrun.
  destruct (out (choose E videoPath w)) as [[target|]|e|].
  - destruct Hrun as [-> _]. cbn [trace]. eexists. split; [reflexivity|].
    pose proof (createBackup_spec E videoPath target (final (choose E videoPath w))) as Hb.
    unfold wp in Hb. cbv zeta in Hb. destruct Hb as (_ & Hrep_b & _).
    pose proof (installWallpaper_spec E videoPath target
                  (final (createBackup E target (final (choose E videoPath w))))) as Hinst.
    unfold wp in Hinst. cbv zeta in Hinst. destruct Hinst as (_ & Hrep_i & _).
    apply replace_event_quiet in Hrep_b as (Hd1 & Hs1 & _), Hrep_i as (Hd2 & Hs2 & _).
    by rewrite dialogue_app, sleeps_app, Hd1, Hd2, Hs1, Hs2.
  - rewrite Hrun. cbn [trace]. by eexists.
  - rewrite Hrun. cbn [trace]. by eexists.
  - rewrite Hrun. cbn [trace]. exists []. by rewrite app_nil_r.
Qed.

(** The selection prompt is the rounds of [prompt_rounds], after
    Finder was opened. *)
Lemma selectWallpaperFromList_rounds wallpapers w :
  let r := selectWallpaperFromList E wallpapers w in
  exists l m,
    (out r, stdin (final r), trace r) =
    (let '(o, rest, t) := prompt_rounds wallpapers (stdin w) in
     (o, rest, EvExec (OpenFinder targetDir) :: EvLog l m :: t)).
Proof.
  apply (wp_run (selectWallpaperFromList E wallpapers) w
           (fun o w' t => exists l m,
              (o, stdin w', t) =
              (let '(o, rest, t) := prompt_rounds wallpapers (stdin w) in
               (o, rest, EvExec (OpenFinder targetDir) :: EvLog l m :: t)))).
  unfold selectWallpaperFromList.
  apply wp_bind. eapply wp_mono; [apply openFinderAtWallpaperDir_spec|].
  intros o w1 t ((b & ->) & _ & _ & _ & _ & _ & Hin & _ & l & m & ->). wp_rule.
  pose proof (promptUser_rounds (S (length (stdin w1))) wallpapers w1 (Nat.lt_succ_diag_r _))
    as Hp.
  unfold wp in Hp |- *. destruct Hp as (Hrun & _).
  exists l, m. rewrite <- Hin, <- Hrun. reflexivity.
Qed.

(** The rounds ask the selection question only, and begin with it. *)
Lemma prompt_rounds_questions wallpapers answers :
  let q := SelectPrompt (length wallpapers) in
  let t := snd (prompt_rounds wallpapers answers) in
  (exists t', t = EvQuestion q :: t') /\
  (forall ev, ev ∈ dialogue t -> ev = EvQuestion q \/ exists a, ev = EvAnswer q a) /\
  sleeps t = [].
Proof.
  intros q. induction answers as [|a answers IH]; cbn [prompt_rounds].
  - cbn. split; [eauto|]. split; [|done]. intros ev Hev. split_in Hev. auto.
  - destruct (is_cancel a); [|destruct (valid_choice _ a)].
    1,2: cbn; (split; [eauto|]); (split; [|done]); intros ev Hev; split_in Hev; eauto.
    destruct (prompt_rounds wallpapers answers) as [[o0 r0] t0]. cbn [snd] in *.
    destruct IH as (_ & IH & Hs). split; [eauto|]. split; [|exact Hs].
    intros ev Hev. cbn in Hev. split_in Hev; eauto.
Qed.

(** With an empty inventory the choice is the seed wait. *)
Lemma choose_seed_run videoPath w :
  let chk := checkCustomerDirectory E w in
  let settings := openWallpaperSettings E (final chk) in
  let seed := waitForWallpaperSetup E (final settings) in
  let c := choose E videoPath w in
  out chk = Resolved true -> scan (final chk) = [] ->
  (exists pre, trace c = pre ++ trace seed /\ dialogue pre = [] /\ sleeps pre = []) /\
  out c = match out seed with
          | Resolved x => Resolved (Some x)
          | Rejected e => Rejected e
          | Pending => Pending
          end.
Proof.
  intros chk settings seed c Hchk Hscan. subst c.
  apply (wp_run (choose E videoPath) w
           (fun o _ t =>
              (exists pre, t = pre ++ trace seed /\ dialogue pre = [] /\ sleeps pre = []) /\
              o = match out seed with
                  | Resolved x => Resolved (Some x)
                  | Rejected e => Rejected e
                  | Pending => Pending
                  end)).
  unfold choose. apply wp_bind, wp_named. fold chk. rewrite Hchk. wp_rule. cbn [negb].
  unfold isTargetDirectoryEmpty. apply wp_bind, wp_bind.
  eapply wp_mono; [apply getExistingWallpapers_spec|].
  intros o w2 ts (-> & Hts & ->). do 3 wp_rule. rewrite Hscan. cbn [length Nat.eqb].
  do 2 wp_rule. apply wp_bind, wp_named. fold settings.
  pose proof (openWallpaperSettings_spec E (final chk)) as Hset. unfold wp in Hset.
  fold settings in Hset. destruct Hset as ((b & Hb) & _ & Hd & _ & Hs & _).
  rewrite Hb. wp_rule. apply wp_bind, wp_named. fold seed.
  pose proof (checkCustomerDirectory_spec E w) as Hc. unfold wp in Hc. fold chk in Hc.
  destruct Hc as (_ & _ & Hdc & _).
  pose proof (checkCustomerDirectory_no_sleep w) as Hsc. fold chk in Hsc.
  destruct (scan_trace_silent _ Hts) as (_ & Hdt & Hst & _).
  assert (exists pre,
            trace chk ++ (ts ++ []) ++ [EvLog LvWarning DirectoryEmpty] ++
              trace settings ++ trace seed = pre ++ trace seed /\
            dialogue pre = [] /\ sleeps pre = []) as Hpre.
  { exists (trace chk ++ ts ++ [EvLog LvWarning DirectoryEmpty] ++ trace settings).
    split; [by rewrite app_nil_r, <- !app_assoc|].
    by rewrite !dialogue_app, !sleeps_app, Hdc, Hsc, Hdt, Hst, Hd, Hs. }
  rewrite app_nil_r in Hpre.
  destruct (out seed); wp_run; rewrite ?app_nil_r; auto.
Qed.

Lemma getUserConfirmation_no_sleep x videoPath w :
  sleeps (trace (getUserConfirmation x videoPath w)) = [].
Proof.
  pose proof (getUserConfirmation_spec x videoPath w) as H. unfold wp in H.
  destruct H as (_ & _ & [(_ & _ & _ & ->)|[(_ & _ & _ & _ & ->)|(_ & a & rest & _ & _ & _ & ->)]]);
    reflexivity.
Qed.

(** With one wallpaper the choice is its confirmation. *)
Lemma choose_confirm_run videoPath w x :
  let chk := checkCustomerDirectory E w in
  let q := getUserConfirmation x videoPath (final chk) in
  let c := choose E videoPath w in
  out chk = Resolved true -> scan (final chk) = [x] ->
  exists pre, trace c = pre ++ trace q /\ dialogue pre = [] /\ sleeps pre = [].
Proof.
  intros chk q c Hchk Hscan. subst c.
  apply (wp_run (choose E videoPath) w
           (fun o _ t => exists pre, t = pre ++ trace q /\ dialogue pre = [] /\ sleeps pre = [])).
  unfold choose. apply wp_bind, wp_named. fold chk. rewrite Hchk. wp_rule. cbn [negb].
  unfold isTargetDirectoryEmpty. apply wp_bind, wp_bind.
  eapply wp_mono; [apply getExistingWallpapers_spec|].
  intros o w2 ts (-> & Hts & ->). do 3 wp_rule. rewrite Hscan. cbn [length Nat.eqb].
  apply wp_bind. eapply wp_mono; [apply getExistingWallpapers_spec|].
  intros o w2 ts' (-> & Hts' & ->). wp_rule. rewrite Hscan.
  apply wp_bind, wp_named. fold q.
  pose proof (checkCustomerDirectory_spec E w) as Hc. unfold wp in Hc. fold chk in Hc.
  destruct Hc as (_ & _ & Hdc & _).
  pose proof (checkCustomerDirectory_no_sleep w) as Hsc. fold chk in Hsc.
  destruct (scan_trace_silent _ Hts) as (_ & Hdt & Hst & _).
  destruct (scan_trace_silent _ Hts') as (_ & Hdt' & Hst' & _).
  assert (exists pre,
            trace chk ++ (ts ++ []) ++ ts' ++ trace q = pre ++ trace q /\
            dialogue pre = [] /\ sleeps pre = []) as Hpre.
  { exists (trace chk ++ ts ++ ts').
    split; [by rewrite app_nil_r, <- !app_assoc|].
    by rewrite !dialogue_app, !sleeps_app, Hdc, Hsc, Hdt, Hst, Hdt', Hst'. }
  rewrite app_nil_r in Hpre.
  destruct (out q) as [[|]| |]; wp_run; rewrite ?app_nil_r; exact Hpre.
Qed.

Lemma choose_confirm_out videoPath w x :
  let chk := checkCustomerDirectory E w in
  let q := getUserConfirmation x videoPath (final chk) in
  let c := choose E videoPath w in
  out chk = Resolved true -> scan (final chk) = [x] ->
  out c = match out q with
          | Resolved confirmed => Resolved (if confirmed then Some x else None)
          | Rejected e => Rejected e
          | Pending => Pending
          end.
Proof.
  intros chk q c Hchk Hscan. subst c.
  apply (wp_run (choose E videoPath) w
           (fun o _ t => o = match out q with
                             | Resolved confirmed => Resolved (if confirmed then Some x else None)
                             | Rejected e => Rejected e
                             | Pending => Pending
                             end)).
  unfold choose. apply wp_bind, wp_named. fold chk. rewrite Hchk. wp_rule. cbn [negb].
  unfold isTargetDirectoryEmpty. apply wp_bind, wp_bind.
  eapply wp_mono; [apply getExistingWallpapers_spec|].
  intros o w2 ts (-> & Hts & ->). do 3 wp_rule. rewrite Hscan. cbn [length Nat.eqb].
  apply wp_bind. eapply wp_mono; [apply getExistingWallpapers_spec|].
  intros o w2 ts' (-> & Hts' & ->). wp_rule. rewrite Hscan.
  apply wp_bind, wp_named. fold q.
  destruct (out q) as [[|]| |]; wp_run; first [reflexivity|discriminate].
Qed.

(** With several wallpapers the choice is the selection prompt, then
    the confirmation of what was selected. *)
Lemma choose_select_run videoPath w x y l :
  let chk := checkCustomerDirectory E w in
  let sel := selectWallpaperFromList E (x :: y :: l) (final chk) in
  let c := choose E videoPath w in
  out chk = Resolved true -> scan (final chk) = x :: y :: l ->
  exists pre post,
    trace c = pre ++ trace sel ++ post /\
    dialogue pre = [] /\ sleeps pre = [] /\ sleeps post = [] /\
    (post <> [] -> exists z, out sel = Resolved (Some z)).
Proof.
  intros chk sel c Hchk Hscan. subst c.
  apply (wp_run (choose E videoPath) w
           (fun o _ t => exists pre post,
              t = pre ++ trace sel ++ post /\
              dialogue pre = [] /\ sleeps pre = [] /\ sleeps post = [] /\
              (post <> [] -> exists z, out sel = Resolved (Some z)))).
  unfold choose. apply wp_bind, wp_named. fold chk. rewrite Hchk. wp_rule. cbn [negb].
  unfold isTargetDirectoryEmpty. apply wp_bind, wp_bind.
  eapply wp_mono; [apply getExistingWallpapers_spec|].
  intros o w2 ts (-> & Hts & ->). do 3 wp_rule. rewrite Hscan. cbn [length Nat.eqb].
  apply wp_bind. eapply wp_mono; [apply getExistingWallpapers_spec|].
  intros o w2 ts' (-> & Hts' & ->). wp_rule. rewrite Hscan.
  do 2 wp_rule. apply wp_bind, wp_named. fold sel.
  pose proof (checkCustomerDirectory_spec E w) as Hc. unfold wp in Hc. fold chk in Hc.
  destruct Hc as (_ & _ & Hdc & _).
  pose proof (checkCustomerDirectory_no_sleep w) as Hsc. fold chk in Hsc.
  destruct (scan_trace_silent _ Hts) as (_ & Hdt & Hst & _).
  destruct (scan_trace_silent _ Hts') as (_ & Hdt' & Hst' & _).
  set (pre := trace chk ++ ts ++ ts' ++ [EvLog LvInfo (FoundWallpapers (length (x :: y :: l)))]).
  assert (dialogue pre = [] /\ sleeps pre = []) as [Hdp Hsp].
  { unfold pre. by rewrite !dialogue_app, !sleeps_app, Hdc, Hsc, Hdt, Hst, Hdt', Hst'. }
  destruct (out sel) as [[z|]| |] eqn:Hsel; wp_rule.
  - apply wp_bind, wp_named.
    set (q := getUserConfirmation z videoPath (final sel)).
    pose proof (getUserConfirmation_no_sleep z videoPath (final sel)) as Hsq. fold q in Hsq.
    destruct (out q) as [[|]| |]; wp_run.
    all: exists pre, (trace q);
         (split; [unfold pre; rewrite ?app_nil_r, <- ?app_assoc; reflexivity|]); eauto 10.
  - wp_run. exists pre, [].
    split; [unfold pre; rewrite ?app_nil_r, <- ?app_assoc; reflexivity|].
    repeat split; auto. congruence.
  - exists pre, [].
    split; [unfold pre; rewrite ?app_nil_r, <- ?app_assoc; reflexivity|].
    repeat split; auto. congruence.
  - exists pre, [].
    split; [unfold pre; rewrite ?app_nil_r, <- ?app_assoc; reflexivity|].
    repeat split; auto. congruence.
Qed.

Lemma question_in_dialogue q t : EvQuestion q ∈ t <-> EvQuestion q ∈ dialogue t.
Proof.
  unfold dialogue. rewrite !list_elem_of_In, filter_In. tauto.
Qed.

Lemma valid_choice_range n a c :
  JS.parseInt a = Some c -> 1 <= c <= Z.of_nat n -> valid_choice n a = true.
Proof.
  intros Hp [H1 H2]. unfold valid_choice. rewrite Hp.
  apply negb_true_iff, orb_false_iff. split; apply Z.ltb_ge; lia.
Qed.

Lemma is_cancel_false a :
  is_cancel a = false -> JS.toLowerCase a <> "c" /\ JS.toLowerCase a <> "cancel".
Proof.
  unfold is_cancel. intros H. apply orb_false_iff in H as [H1 H2].
  by apply String.eqb_neq in H1, H2.
Qed.

(** C7: the selection flow branches on the number of wallpapers that
    the scan of the target directory finds once the directory was found
    accessible. With none, the flow asks nothing and polls: it scans,
    sleeps 1000 ms and scans again, at most 30 times; it fails with the
    timeout exactly when all 30 scans find nothing, after 30 sleeps, and
    otherwise takes the first wallpaper of the first scan that finds
    one. With one, the flow goes straight into [getUserConfirmation] for
    it: nothing is asked before, no selection is asked for at all, and
    the confirmation is the first question when the video file is
    there; when it is not, the [statSync] of [getUserConfirmation]
    throws before the question and the flow fails. With two or more,
    the first question is the selection prompt, and a confirmation is
    only asked for after an answer other than [c] and [cancel] in which
    [parseInt] reads a number between 1 and the number of wallpapers. *)
Theorem selection_by_cardinality videoPath w :
  let chk := checkCustomerDirectory E w in
  let inventory := scan (final chk) in
  let c := choose E videoPath w in
  let r := setupWallpaper E videoPath w in
  out chk = Resolved true ->
  (inventory = [] ->
     let w2 := final (openWallpaperSettings E (final chk)) in
     let seed := waitForWallpaperSetup E w2 in
     dialogue (trace r) = [] /\
     sleeps (trace r) = sleeps (trace seed) /\
     (out seed = Rejected SeedTimeout <->
      (forall i, (i < 30)%nat -> scan (poll_world E i w2) = [])) /\
     (out seed = Rejected SeedTimeout ->
        sleeps (trace seed) = replicate 30 1000 /\
        out r = Resolved false /\ EvLog LvError (SetupFailed SeedTimeout) ∈ trace r) /\
     (out seed = Rejected SeedTimeout \/
      exists k x rest, (k < 30)%nat /\
        (forall i, (i < k)%nat -> scan (poll_world E i w2) = []) /\
        scan (poll_world E k w2) = x :: rest /\
        out seed = Resolved x /\ out c = Resolved (Some x) /\
        sleeps (trace seed) = replicate k 1000)) /\
  (forall x, inventory = [x] ->
     let q := getUserConfirmation x videoPath (final chk) in
     sleeps (trace r) = [] /\
     (forall n, EvQuestion (SelectPrompt n) ∉ trace r) /\
     (exists pre tail,
        trace r = pre ++ trace q ++ tail /\ dialogue pre = [] /\ dialogue tail = []) /\
     (present (fs (final chk) !! videoPath) = true ->
        exists rest, dialogue (trace r) = EvQuestion ConfirmPrompt :: rest) /\
     (present (fs (final chk) !! videoPath) = false ->
        dialogue (trace r) = [] /\ out r = Resolved false)) /\
  (forall x y l, inventory = x :: y :: l ->
     let n := length (x :: y :: l) in
     sleeps (trace r) = [] /\
     (exists rest, dialogue (trace r) = EvQuestion (SelectPrompt n) :: rest) /\
     (EvQuestion ConfirmPrompt ∈ trace r ->
      exists t1 t2 a choice,
        trace r = t1 ++ t2 /\ (EvQuestion ConfirmPrompt ∉ t1) /\
        EvAnswer (SelectPrompt n) a ∈ t1 /\
        JS.toLowerCase a <> "c" /\ JS.toLowerCase a <> "cancel" /\
        JS.parseInt a = Some choice /\ 1 <= choice <= Z.of_nat n)).
Proof.
  intros chk inventory c r Hchk.
  destruct (setupWallpaper_tail videoPath w) as (tail & Htail & Hdtail & Hstail).
  fold r c in Htail.
  split; [|split].
  - intros Hscan w2 seed.
    destruct (choose_seed_run videoPath w Hchk Hscan) as ((pre & Hc & Hdpre & Hspre) & Hout).
    fold chk w2 seed c in Hc, Hout.
    pose proof (waitLoop_spec E retryAttempts w2) as Hquiet. unfold wp in Hquiet.
    destruct Hquiet as (_ & _ & Hdseed & _).
    change (waitLoop E retryAttempts w2) with seed in Hdseed.
    pose proof (waitLoop_run E retryAttempts w2) as Hrun. cbv zeta in Hrun.
    change (waitLoop E retryAttempts w2) with seed in Hrun.
    split; [by rewrite Htail, Hc, !dialogue_app, Hdpre, Hdseed, Hdtail|].
    split; [by rewrite Htail, Hc, !sleeps_app, Hspre, Hstail, app_nil_r|].
    destruct Hrun as [(Hall & Hto & Hsl & _)|(k & x & rest & Hk & Hall & Hfound & Hres & Hsl & _)].
    + split; [by split|]. split; [|by left].
      intros _. split; [exact Hsl|].
      pose proof (setupWallpaper_after_choice E videoPath w) as Hafter. cbv zeta in Hafter.
      fold c r in Hafter. rewrite Hout, Hto in Hafter. rewrite Hafter. cbn [out trace].
      split; [reflexivity|elem].
    + split; [|split].
      * split; [congruence|]. intros Hnone. rewrite (Hnone k Hk) in Hfound. discriminate.
      * congruence.
      * right. exists k, x, rest. rewrite Hres in Hout. auto 10.
  - intros x Hscan q.
    destruct (choose_confirm_run videoPath w x Hchk Hscan) as (pre & Hc & Hdpre & Hspre).
    fold chk c q in Hc.
    pose proof (getUserConfirmation_spec x videoPath (final chk)) as Hq. unfold wp in Hq.
    fold q in Hq. destruct Hq as (_ & _ & Hq).
    assert (forall n, EvQuestion (SelectPrompt n) ∉ trace q) as Hnosel.
    { intros n Hin.
      destruct Hq as [(_ & _ & _ & Ht)|[(_ & _ & _ & _ & Ht)|(_ & a & ? & _ & _ & _ & Ht)]];
        rewrite Ht in Hin; split_in Hin; discriminate. }
    rewrite Htail, Hc.
    split; [rewrite !sleeps_app, Hspre, Hstail; unfold q;
            by rewrite getUserConfirmation_no_sleep|].
    split.
    { intros n Hin. split_in Hin.
      - by apply silent_no_question in Hin.
      - by apply Hnosel in Hin.
      - by apply silent_no_question in Hin. }
    split; [exists pre, tail; by rewrite <- app_assoc|].
    split.
    + intros Hvideo. rewrite !dialogue_app, Hdpre, Hdtail.
      destruct Hq as [(Hnone & _)|[(_ & _ & _ & _ & ->)|(_ & a & ? & _ & _ & _ & ->)]].
      * rewrite Hnone in Hvideo. discriminate.
      * cbn. eauto.
      * cbn. eauto.
    + intros Hvideo.
      destruct Hq as [(Hnone & Hrej & _ & Ht)|[(Hsome & _)|(Hsome & _)]];
        [|congruence|congruence].
      rewrite !dialogue_app, Hdpre, Hdtail, Ht. split; [reflexivity|].
      pose proof (setupWallpaper_after_choice E videoPath w) as Hafter. cbv zeta in Hafter.
      fold c r in Hafter.
      pose proof (choose_confirm_out videoPath w x Hchk Hscan) as Hout.
      fold chk c q in Hout. rewrite Hrej in Hout. rewrite Hout in Hafter.
      by rewrite Hafter.
  - intros x y l Hscan n.
    destruct (choose_select_run videoPath w x y l Hchk Hscan)
      as (pre & post & Hc & Hdpre & Hspre & Hspost & Hpost).
    fold chk c in Hc.
    set (sel := selectWallpaperFromList E (x :: y :: l) (final chk)) in *.
    destruct (selectWallpaperFromList_rounds (x :: y :: l) (final chk)) as (lv & m & Hrounds).
    fold sel in Hrounds.
    pose proof (prompt_rounds_questions (x :: y :: l) (stdin (final chk))) as Hquestions.
    cbv zeta in Hquestions. fold n in Hquestions.
    destruct (prompt_rounds (x :: y :: l) (stdin (final chk))) as [[o0 r0] t0].
    cbn [snd] in Hquestions. destruct Hquestions as ((t' & Ht0) & Hdia & Hst0).
    injection Hrounds as Ho Hr Htsel.
    assert (EvQuestion ConfirmPrompt ∉ trace sel) as Hnoconfirm.
    { intros Hin. rewrite Htsel in Hin. split_in Hin; try discriminate.
      apply question_in_dialogue, Hdia in Hin as [Hin|(a & Hin)]; discriminate. }
    split; [|split].
    + rewrite Htail, Hc, !sleeps_app, Hspre, Hspost, Hstail, Htsel.
      change (EvExec (OpenFinder targetDir) :: EvLog lv m :: t0)
        with ([EvExec (OpenFinder targetDir); EvLog lv m] ++ t0).
      by rewrite sleeps_app, Hst0.
    + rewrite Htail, Hc, !dialogue_app, Hdpre, Htsel, Ht0. cbn. eauto.
    + intros Hin. rewrite Htail, Hc in Hin.
      assert (post <> []) as Hne.
      { intros ->. split_in Hin.
        - by apply silent_no_question in Hin.
        - contradiction.
        - by apply silent_no_question in Hin. }
      destruct (Hpost Hne) as (z & Hz).
      pose proof (selectWallpaperFromList_run E (x :: y :: l) (final chk)) as Hsel.
      unfold wp in Hsel. cbv beta zeta in Hsel.
      change (selectWallpaperFromList E (x :: y :: l) (final chk)) with sel in Hsel.
      change (out sel = Resolved (Some z)) in Hz. rewrite Hz in Hsel.
      destruct Hsel as (_ & _ & _ & _ & _ & ((a & ch & Ha & Hcancel & Hparse & Hrange & _) & _) & _).
      apply is_cancel_false in Hcancel as [Hc1 Hc2].
      exists (pre ++ trace sel), (post ++ tail), a, ch.
      split; [by rewrite Htail, Hc, <- !app_assoc|].
      split; [|split; [elem|auto]].
      intros Hin'. split_in Hin'; [by apply silent_no_question in Hin'|contradiction].
Qed.

End Cardinality.
(** * The conversion as a whole *)

Section Conversion.
Variable E : Env.

(** C5, as the code has it: after an exit code 0 of the engine, the
    transcode and the extension succeed exactly when the expected output
    file exists, whatever its size; when it is missing they fail, the
    exit code notwithstanding. *)
Theorem exit_zero_needs_the_output inputPath outputPath useFallback minDuration w :
  let enc := ffmpeg E (VideoDownloader.hevc_args inputPath outputPath useFallback) w in
  let r := VideoDownloader.convertWithHEVC E inputPath outputPath useFallback w in
  let ext := extended_path inputPath in
  let loop := ffmpeg E (VideoDownloader.extend_args inputPath minDuration ext) (step w) in
  let x := VideoDownloader.extendVideo E inputPath minDuration w in
  (fst enc = ProcClose (Some 0) ->
     (present (snd enc !! outputPath) = true -> out r = Resolved outputPath) /\
     (present (snd enc !! outputPath) = false -> out r = Rejected OutputNotFound)) /\
  (forall d, out (VideoDownloader.getVideoDuration E inputPath w) = Resolved d ->
     fst loop = ProcClose (Some 0) ->
     (present (snd loop !! ext) = true -> out x = Resolved ext) /\
     (present (snd loop !! ext) = false -> out x = Rejected ExtendedNotFound)).
Proof.
  intros enc r ext loop x. split.
  - intros Hzero. by apply convertWithHEVC_output_check.
  - intros d Hd Hzero. by eapply extendVideo_output_check.
Qed.

(** C8, as the code has it: a source whose probed duration is at
    least the minimum goes to the transcoder as it is: every ffmpeg run
    of [convertToMov] is a transcode of the source itself, none is an
    extension. A shorter source goes through [extendVideo] first, whose
    one ffmpeg run loops the input with stream copy ([-stream_loop -1],
    [-c copy]), cut at the minimum duration ([-t 60]). The extended copy
    is unlinked only once its transcode has succeeded. When the
    transcode fails, [convertToMov] fails with its error and does
    nothing more: the unlink is not in a [finally], and the files are
    left as the transcode left them, the extended copy among them. *)
Theorem extension_only_when_short inputPath w d :
  let min := CONFIG.minRecommendedDuration in
  let output := JS.replace_ext inputPath ".mov" in
  let ext := extended_path inputPath in
  let r := VideoDownloader.convertToMov E inputPath w in
  let x := VideoDownloader.extendVideo E inputPath min (step w) in
  let c := VideoDownloader.convertWithHEVC E ext output false (final x) in
  out (VideoDownloader.getVideoDuration E inputPath w) = Resolved d ->
  (number_le (number_of_Z min) d = true ->
     (forall args, args ∈ ffmpeg_runs (trace r) ->
        exists u, args = VideoDownloader.hevc_args inputPath output u) /\
     (forall i m o, VideoDownloader.extend_args i m o ∉ ffmpeg_runs (trace r))) /\
  (number_lt d (number_of_Z min) = true ->
   present (fs w !! inputPath) = true -> present (fs w !! output) = false ->
     (exists rest,
        trace r = EvSpawn "ffprobe" (probe_args inputPath) :: EvLog LvInfo ExtendingVideo ::
                  trace x ++ rest) /\
     (forall args, args ∈ ffmpeg_runs (trace x) ->
        args = VideoDownloader.extend_args inputPath min ext) /\
     (forall p, out x = Resolved p ->
        p = ext /\ ffmpeg_runs (trace x) = [VideoDownloader.extend_args inputPath min ext]) /\
     (out x = Resolved ext -> forall converted, out c = Resolved converted ->
        out r = Resolved converted /\
        exists res, EvFs (OpUnlink ext) res ∈ trace r /\
          (res = None -> fs (final r) !! ext = None)) /\
     (out x = Resolved ext -> forall e, out c = Rejected e ->
        out r = Rejected e /\ final r = final c /\
        trace r = EvSpawn "ffprobe" (probe_args inputPath) :: EvLog LvInfo ExtendingVideo ::
                  trace x ++ trace c)) /\
  VideoDownloader.extend_args inputPath min ext =
    [ "-stream_loop"; "-1"; "-i"; inputPath; "-t"; "60";
      "-c"; "copy"; "-avoid_negative_ts"; "make_zero"; "-fflags"; "+genpts";
      "-y"; ext ].
Proof.
  intros min output ext r x c Hd. split; [|split].
  - intros Hle. by eapply convertToMov_long_source.
  - intros Hlt Hin Hout. by eapply convertToMov_short_source.
  - reflexivity.
Qed.

Import WallpaperManager.

(** C10, as the code has it: [selectWallpaperFromList] never rejects.
    It resolves to [null] after an answer that is [c] or [cancel] in any
    case of letters, or to the entry of the list whose number [parseInt]
    reads in the answer, between 1 and the length. An answer that is
    neither [c] nor [cancel] and in which [parseInt] reads no number, or
    a number outside this range, is followed by a warning and by the
    question again. The files are not touched. *)
Theorem selection_is_from_the_list wallpapers w :
  let q := SelectPrompt (length wallpapers) in
  let r := selectWallpaperFromList E wallpapers w in
  match out r with
  | Resolved None =>
      exists a, EvAnswer q a ∈ trace r /\
        (JS.toLowerCase a = "c" \/ JS.toLowerCase a = "cancel")
  | Resolved (Some x) =>
      x ∈ wallpapers /\
      exists a c, EvAnswer q a ∈ trace r /\
        JS.toLowerCase a <> "c" /\ JS.toLowerCase a <> "cancel" /\
        JS.parseInt a = Some c /\ 1 <= c <= Z.of_nat (length wallpapers) /\
        wallpapers !! Z.to_nat (c - 1) = Some x
  | Rejected _ => False
  | Pending => stdin (final r) = []
  end /\
  (forall t1 a t2, trace r = t1 ++ EvAnswer q a :: t2 ->
     JS.toLowerCase a <> "c" -> JS.toLowerCase a <> "cancel" ->
     (forall c, JS.parseInt a = Some c -> c < 1 \/ Z.of_nat (length wallpapers) < c) ->
     exists t3, t2 = EvLog LvWarning InvalidChoice :: EvQuestion q :: t3) /\
  fs (final r) = fs w.
Proof.
  intros q r.
  pose proof (selectWallpaperFromList_run E wallpapers w) as H. unfold wp in H.
  cbv beta zeta in H. fold q r in H.
  destruct H as (Hfs & _ & _ & _ & _ & Ho & _ & Hre & _).
  split; [|split; [|exact Hfs]].
  - destruct (out r) as [[x|]|e|]; [| |exact Ho|apply Ho].
    + destruct Ho as [(a & c & Hin & Hc & Hp & Hrange & Hx) _].
      apply is_cancel_false in Hc as [Hc1 Hc2].
      split; [by eapply list_elem_of_lookup_2|]. eauto 10.
    + destruct Ho as (a & Hin & Hc). exists a. split; [exact Hin|].
      unfold is_cancel in Hc. apply orb_true_iff in Hc as [Hc|Hc];
        apply String.eqb_eq in Hc; auto.
  - intros t1 a t2 Heq Hc1 Hc2 Hbad. apply (Hre t1 a t2 Heq).
    + unfold is_cancel. apply orb_false_iff. split; by apply String.eqb_neq.
    + unfold valid_choice. destruct (JS.parseInt a) as [c|]; [|reflexivity].
      apply negb_false_iff, orb_true_iff.
      destruct (Hbad c eq_refl) as [?|?]; [left|right]; apply Z.ltb_lt; lia.
Qed.

End Conversion.

(** * The replacement flow on sample runs *)

Section FlowSamples.
Import Examples WallpaperManager.

Ltac run := vm_compute; reflexivity.

(** The backup root is read-only: the copy of the wallpaper to its
    backup fails with [EACCES]; the run goes on, copies the video over
    the wallpaper and reports success. The wallpaper held "apple",
    modified at 5; it now holds "mine", modified at 100. *)
Lemma install_without_backup :
  let w := world one_wallpaper ["y"] in
  let r := setupWallpaper locked_backups clip w in
  let backupPath := "/work/outputs/wallpaper_backups/horizon_backup_2024-01-01T00-00-00-000Z.mov" in
  fs w !! horizon = Some (file "apple" 5) /\
  out r = Resolved true /\
  fs_calls (trace r) =
    [ (OpWriteFile testFile "test", None); (OpUnlink testFile, None);
      (OpCopyFile horizon backupPath, Some EACCES);
      (OpCopyFile clip horizon, None) ] /\
  fs (final r) !! horizon = Some (mkInode RegularFile "mine" 5 100 420) /\
  fs (final r) !! backupPath = None.
Proof. cbv zeta. repeat split; run. Qed.

Lemma failed_backup_does_not_stop_install_sample :
  let w := world one_wallpaper ["y"] in
  let c := choose locked_backups clip w in
  out c = Resolved (Some wp_horizon) /\
  out (createBackup locked_backups wp_horizon (final c)) = Resolved None /\
  out (setupWallpaper locked_backups clip w) =
    out (installWallpaper locked_backups clip "horizon.mov"
           (final (createBackup locked_backups wp_horizon (final c)))).
Proof.
  cbv zeta.
  assert (out (choose locked_backups clip (world one_wallpaper ["y"])) =
          Resolved (Some wp_horizon)) as Hc by run.
  pose proof (failed_backup_does_not_stop_install locked_backups clip
                (world one_wallpaper ["y"]) wp_horizon Hc) as (_ & _ & _ & Hout & _).
  split; [exact Hc|]. split; [run|exact Hout].
Defined.

Lemma install_keeps_the_name_sample :
  let w := world two_wallpapers ["7"; "1"; "yes"] in
  let r := setupWallpaper desk clip w in
  out r = Resolved true /\
  exists target,
    out (choose desk clip w) = Resolved (Some target) /\
    path target = JS.path_join targetDir (name target) /\
    EvFs (OpCopyFile clip (JS.path_join targetDir (name target))) None ∈ trace r.
Proof.
  cbv zeta.
  assert (out (setupWallpaper desk clip (world two_wallpapers ["7"; "1"; "yes"])) =
          Resolved true) as Hr by run.
  split; [exact Hr|].
  destruct (install_keeps_the_name desk clip _ Hr) as (target & Hc & _ & Hpath & Hcopy & _).
  exists target. auto.
Defined.

(** A run that the user cancels and a run that fails (the video does
    not exist) return the same value. *)
Lemma cancelled_and_failed_alike :
  let cancelled := setupWallpaper desk clip (world one_wallpaper ["n"]) in
  let failed := setupWallpaper desk "/work/outputs/none.mov" (world one_wallpaper ["y"]) in
  out cancelled = Resolved false /\ out failed = Resolved false /\
  List.last (trace cancelled) (EvSleep 0) = EvLog LvInfo CancelledByUser /\
  List.last (trace failed) (EvSleep 0) =
    EvLog LvError (SetupFailed (StatError ENOENT "/work/outputs/none.mov")).
Proof. cbv zeta. repeat split; run. Qed.

Lemma cancellation_leaves_the_files_sample :
  let r := setupWallpaper desk clip (world two_wallpapers ["Cancel"]) in
  EvAnswer (SelectPrompt 2) "Cancel" ∈ trace r /\ out r = Resolved false /\
  commands (trace r) = [OpenFinder targetDir] /\
  (forall c, EvExec c ∈ trace r -> c = OpenFinder targetDir) /\
  forall q, q <> testFile -> q <> targetDir -> fs (final r) !! q = two_wallpapers !! q.
Proof.
  cbv zeta.
  assert (EvAnswer (SelectPrompt 2) "Cancel" ∈
            trace (setupWallpaper desk clip (world two_wallpapers ["Cancel"]))) as Hin.
  { apply list_elem_of_In. vm_compute. tauto. }
  split; [exact Hin|].
  destruct (cancellation_leaves_the_files desk clip (world two_wallpapers ["Cancel"]))
    as (Hout & _ & _ & _ & _ & Hcmd & Hfs & _).
  { left. exists 2%nat, "Cancel". split; [exact Hin|]. right. reflexivity. }
  split; [exact Hout|]. split; [run|]. split; [exact Hcmd|exact Hfs].
Defined.

End FlowSamples.
Section CardinalitySamples.
Import Examples WallpaperManager.

Ltac run := vm_compute; reflexivity.

(** The three branches on sample directories: none, one and two
    wallpapers. *)
Lemma selection_by_cardinality_sample :
  let none := world no_wallpaper ["y"] in
  let one := world one_wallpaper ["y"] in
  let two := world two_wallpapers ["2"; "y"] in
  (out (checkCustomerDirectory desk none) = Resolved true /\
   scan (final (checkCustomerDirectory desk none)) = [] /\
   dialogue (trace (setupWallpaper desk clip none)) = []) /\
  (out (checkCustomerDirectory desk one) = Resolved true /\
   scan (final (checkCustomerDirectory desk one)) = [wp_horizon] /\
   exists rest,
     dialogue (trace (setupWallpaper desk clip one)) = EvQuestion ConfirmPrompt :: rest) /\
  (out (checkCustomerDirectory desk two) = Resolved true /\
   scan (final (checkCustomerDirectory desk two)) = [wp_sequoia; wp_horizon] /\
   exists rest,
     dialogue (trace (setupWallpaper desk clip two)) = EvQuestion (SelectPrompt 2) :: rest).
Proof.
  cbv zeta.
  assert (out (checkCustomerDirectory desk (world no_wallpaper ["y"])) = Resolved true)
    as Hnone by run.
  assert (out (checkCustomerDirectory desk (world one_wallpaper ["y"])) = Resolved true)
    as Hone by run.
  assert (out (checkCustomerDirectory desk (world two_wallpapers ["2"; "y"])) = Resolved true)
    as Htwo by run.
  assert (scan (final (checkCustomerDirectory desk (world no_wallpaper ["y"]))) = [])
    as Hscan0 by run.
  assert (scan (final (checkCustomerDirectory desk (world one_wallpaper ["y"]))) = [wp_horizon])
    as Hscan1 by run.
  assert (scan (final (checkCustomerDirectory desk (world two_wallpapers ["2"; "y"]))) =
          [wp_sequoia; wp_horizon]) as Hscan2 by run.
  split; [|split].
  - destruct (selection_by_cardinality desk clip _ Hnone) as (H0 & _ & _).
    destruct (H0 Hscan0) as (Hd & _). auto.
  - destruct (selection_by_cardinality desk clip _ Hone) as (_ & H1 & _).
    destruct (H1 _ Hscan1) as (_ & _ & _ & Hd & _). split; [exact Hone|].
    split; [exact Hscan1|]. apply Hd. run.
  - destruct (selection_by_cardinality desk clip _ Htwo) as (_ & _ & H2).
    destruct (H2 _ _ _ Hscan2) as (_ & Hd & _). auto.
Defined.

End CardinalitySamples.

Section ConversionSamples.
Import Examples WallpaperManager.

Ltac run := vm_compute; reflexivity.

(** An engine that exits with 0 and leaves an empty file: the
    conversion succeeds, with an output of 0 bytes. *)
Lemma empty_output_is_accepted :
  let E := calm "/work" no_fault (ffmpeg_writes 0 "") 90 in
  let w := world (<["/work/in.mp4" := file "source" 3]> ∅) [] in
  let r := VideoDownloader.convertWithHEVC E "/work/in.mp4" "/work/in.mov" false w in
  fst (ffmpeg E (VideoDownloader.hevc_args "/work/in.mp4" "/work/in.mov" false) w) =
    ProcClose (Some 0) /\
  out r = Resolved "/work/in.mov" /\
  (stat_size <$> fs (final r) !! "/work/in.mov") = Some 0.
Proof. cbv zeta. repeat split; run. Qed.

(** [2abc] is no numeral, and [parseInt] reads 2 in it: the second
    entry is selected, without another round. *)
Lemma numeric_prefix_selects :
  let r := selectWallpaperFromList desk [wp_sequoia; wp_horizon]
             (world two_wallpapers ["2abc"]) in
  is_numeral "2abc" = false /\
  out r = Resolved (Some wp_horizon) /\
  dialogue (trace r) = [EvQuestion (SelectPrompt 2); EvAnswer (SelectPrompt 2) "2abc"].
Proof. cbv zeta. repeat split; run. Qed.

(** A no-break space before the number is white space to [parseInt]:
    the answer selects the second entry. *)
Lemma no_break_space_is_skipped :
  let answer := String (ascii_of_nat 194) (String (ascii_of_nat 160) "2") in
  let r := selectWallpaperFromList desk [wp_sequoia; wp_horizon]
             (world two_wallpapers [answer]) in
  JS.parseInt answer = Some 2 /\ out r = Resolved (Some wp_horizon).
Proof. cbv zeta. split; run. Qed.

(** A clip of 20 seconds: extended, transcoded, and the extended copy
    removed. *)
Lemma extension_only_when_short_sample :
  let E := calm "/work" no_fault (ffmpeg_writes 0 "hevc") 20 in
  let w := world (<["/work/in.mp4" := file "source" 3]> ∅) [] in
  let r := VideoDownloader.convertToMov E "/work/in.mp4" w in
  out (VideoDownloader.getVideoDuration E "/work/in.mp4" w) = Resolved (number_of_Z 20) /\
  ffmpeg_runs (trace (VideoDownloader.extendVideo E "/work/in.mp4" 60 (step w))) =
    [VideoDownloader.extend_args "/work/in.mp4" 60 "/work/in_extended.mp4"] /\
  out r = Resolved "/work/in.mov" /\
  fs (final r) !! "/work/in_extended.mp4" = None.
Proof.
  cbv zeta.
  set (E := calm "/work" no_fault (ffmpeg_writes 0 "hevc") 20).
  set (w := world (<["/work/in.mp4" := file "source" 3]> ∅) []).
  assert (out (VideoDownloader.getVideoDuration E "/work/in.mp4" w) =
          Resolved (number_of_Z 20)) as Hd by run.
  destruct (extension_only_when_short E "/work/in.mp4" w _ Hd) as (_ & Hshort & _).
  destruct Hshort as (_ & _ & Hx & Hdone & _); [run|run|run|].
  split; [exact Hd|].
  destruct (Hx "/work/in_extended.mp4") as (_ & Hruns); [run|].
  split; [exact Hruns|].
  destruct (Hdone ltac:(run) "/work/in.mov" ltac:(run)) as (Hout & _).
  split; [exact Hout|run].
Defined.

(** A clip of 20 seconds whose extension succeeds and whose transcode
    exits with 2: [convertToMov] fails, nothing is unlinked, and the
    extended copy stays next to the source. *)
Lemma extended_copy_left_behind :
  let E := calm "/work" no_fault (ffmpeg_loops_only 2) 20 in
  let w := world (<["/work/in.mp4" := file "source" 3]> ∅) [] in
  let r := VideoDownloader.convertToMov E "/work/in.mp4" w in
  out (VideoDownloader.extendVideo E "/work/in.mp4" 60 (step w)) =
    Resolved "/work/in_extended.mp4" /\
  out r = Rejected (ConversionFailed (Some 2)) /\
  fs_calls (trace r) = [] /\
  fs (final r) !! "/work/in_extended.mp4" = Some (file "looped" 100) /\
  fs (final r) !! "/work/in.mov" = None.
Proof. cbv zeta. repeat split; run. Qed.



End ConversionSamples.
(** * More on the inventory scanner *)

From Stdlib Require Import Sorted.

Section ScannerMore.
Import WallpaperManager.












End ScannerMore.
(** * More on the steps of the wallpaper manager *)

Section ManagerMore.
Variable E : Env.
Import WallpaperManager.

Lemma testFile_not_dir : testFile <> targetDir.
Proof. by apply path_join_not_dir. Qed.

(** [checkCustomerDirectory] never throws. Without the Customer
    directory it answers [false] and calls nothing. When it answers
    [true], the probe file was written and removed again, so it does not
    exist afterwards, and the target directory exists. Whatever it
    answers, its only calls are the creation of the target directory and
    the write and removal of the probe file, and every other path is as
    before. *)
Theorem checkCustomerDirectory_probe w :
  let r := checkCustomerDirectory E w in
  (exists b, out r = Resolved b) /\
  (present (fs w !! customerDir) = false ->
     out r = Resolved false /\ fs_calls (trace r) = [] /\ fs (final r) = fs w) /\
  (out r = Resolved true ->
     present (fs w !! customerDir) = true /\
     EvFs (OpWriteFile testFile "test") None ∈ trace r /\
     EvFs (OpUnlink testFile) None ∈ trace r /\
     fs (final r) !! testFile = None /\
     present (fs (final r) !! targetDir) = true) /\
  (forall op res, EvFs op res ∈ trace r -> is_probe op) /\
  (forall q, q <> testFile -> q <> targetDir -> fs (final r) !! q = fs w !! q).
Proof.
  intros r.
  pose proof (checkCustomerDirectory_spec E w) as Hspec. unfold wp in Hspec. fold r in Hspec.
  destruct Hspec as (Hres & Hsel & _ & _ & _ & Hframe & _).
  split; [exact Hres|].
  assert ((present (fs w !! customerDir) = false ->
             out r = Resolved false /\ fs_calls (trace r) = [] /\ fs (final r) = fs w) /\
          (out r = Resolved true ->
             present (fs w !! customerDir) = true /\
             EvFs (OpWriteFile testFile "test") None ∈ trace r /\
             EvFs (OpUnlink testFile) None ∈ trace r /\
             fs (final r) !! testFile = None /\
             present (fs (final r) !! targetDir) = true)) as [Hmissing Hok].
  { subst r.
    apply (wp_run (checkCustomerDirectory E) w
             (fun o w' t =>
                (present (fs w !! customerDir) = false ->
                   o = Resolved false /\ fs_calls t = [] /\ fs w' = fs w) /\
                (o = Resolved true ->
                   present (fs w !! customerDir) = true /\
                   EvFs (OpWriteFile testFile "test") None ∈ t /\
                   EvFs (OpUnlink testFile) None ∈ t /\
                   fs w' !! testFile = None /\
                   present (fs w' !! targetDir) = true))).
    unfold checkCustomerDirectory. wp_run.
    all: cbn [fs with_fs step stdin clock] in *.
    all: split;
      [intros Hmiss;
       first [ by (repeat split)
             | rewrite Hmiss in *; discriminate ]
      |intros Htrue; try discriminate].
    all: match goal with
         | H : negb (present (fs _ !! customerDir)) = false |- _ =>
             apply negb_false_iff in H
         end.
    all: (split; [assumption|]); (split; [elem|]); (split; [elem|]).
    all: match goal with
         | H : apply_op (OpUnlink _) _ _ = inr _ |- _ =>
             apply apply_unlink in H as [-> _]
         end.
    all: (split; [apply lookup_delete_eq|]).
    all: rewrite lookup_delete_ne by (exact testFile_not_dir).
    all: match goal with
         | H : apply_op (OpWriteFile _ _) _ _ = inr _ |- _ =>
             rewrite (apply_op_frame _ _ _ _ targetDir H)
               by first [cbn [written]; exact (not_eq_sym testFile_not_dir) | intros ? [=]]
         end.
    - match goal with
      | H : apply_op (OpMkdir _) _ _ = inr _ |- _ =>
          apply apply_mkdir_made in H as (d & -> & _)
      end.
      reflexivity.
    - match goal with
      | H : negb (present (fs w !! targetDir)) = false |- _ =>
          by apply negb_false_iff in H
      end. }
  split; [exact Hmissing|]. split; [exact Hok|]. split; [|exact Hframe].
  intros op res Hin. rewrite Forall_forall in Hsel. by apply Hsel in Hin.
Qed.
Ltac wp_spec ::=
  lazymatch goal with
  | |- wp (Utils.fixFilePermissions _ _) _ _ =>
      eapply wp_mono;
      [apply Utils_fixFilePermissions_spec
      |intros ? ? ? ((? & ->) & ? & ? & ? & ? & ? & ? & ?)]
  end.

(** [createBackup] answers the path of the backup, or [null]. When it
    answers a path, this is the backup directory joined with
    [<name>_backup_<timestamp>.mov], and the copy at this path holds the
    bytes that the wallpaper held. When it answers [null], a warning was
    logged. In both cases every file that existed is as it was, but for
    the one at the path of the backup; and the paths that did not exist
    still do not, but for this one, the backup directory and the
    directories above it, which the recursive [mkdir] creates when they
    are missing. *)
Theorem createBackup_keeps_the_bytes target w :
  let r := createBackup E target w in
  let p := JS.path_join (backupDir E) (backup_name E target (clock w)) in
  (out r = Resolved (Some p) \/ out r = Resolved None) /\
  (out r = Resolved (Some p) ->
     EvFs (OpCopyFile (path target) p) None ∈ trace r /\
     exists src copy,
       fs w !! path target = Some src /\ fs (final r) !! p = Some copy /\
       data copy = data src) /\
  (out r = Resolved None -> exists e, EvLog LvWarning (CouldNotCreateBackup e) ∈ trace r) /\
  (forall q i, q <> p -> fs w !! q = Some i -> fs (final r) !! q = Some i) /\
  (forall q, q <> p -> q <> backupDir E -> q ∉ ancestors (backupDir E) ->
     fs (final r) !! q = fs w !! q).
Proof.
  intros r p. subst r.
  apply (wp_run (createBackup E target) w
           (fun o w' t =>
              (o = Resolved (Some p) \/ o = Resolved None) /\
              (o = Resolved (Some p) ->
                 EvFs (OpCopyFile (path target) p) None ∈ t /\
                 exists src copy,
                   fs w !! path target = Some src /\ fs w' !! p = Some copy /\
                   data copy = data src) /\
              (o = Resolved None -> exists e, EvLog LvWarning (CouldNotCreateBackup e) ∈ t) /\
              (forall q i, q <> p -> fs w !! q = Some i -> fs w' !! q = Some i) /\
              (forall q, q <> p -> q <> backupDir E -> q ∉ ancestors (backupDir E) ->
                 fs w' !! q = fs w !! q))).
  unfold createBackup, Utils.ensureDirectoryExists.
  fold (backup_name E target (clock w)). fold p.
  wp_run.
  all: cbn [fs with_fs step stdin clock] in *.
  all: (split; [auto|]).
  all: split; [intros Hsome; try discriminate|].
  all: try (split; [intros Hnone; try discriminate; eexists; elem|]).
  all: try (split;
            [intros q iq Hqp Hq;
             repeat match goal with
             | H : mode_only _ ?f ?f' |- context [?f' !! q] =>
                 rewrite (mode_only_frame _ f f' q H Hqp)
             | H : apply_op (OpCopyFile _ _) _ ?f = inr ?f' |- context [?f' !! q] =>
                 rewrite (apply_op_frame _ _ f f' q H)
                   by first [cbn [written]; assumption | intros ? [=]]
             | H : apply_op (OpMkdir _) _ ?f = inr ?f' |- context [?f' !! q] =>
                 rewrite (proj1 (proj2 (apply_mkdir _ _ _ _ H)) q iq Hq)
             end; first [reflexivity | assumption]
            |intros q Hqp Hqd Hup;
             repeat match goal with
             | H : mode_only _ ?f ?f' |- context [?f' !! q] =>
                 rewrite (mode_only_frame _ f f' q H Hqp)
             | H : apply_op ?op _ ?f = inr ?f' |- context [?f' !! q] =>
                 rewrite (apply_op_frame op _ f f' q H)
                   by first [cbn [written]; assumption | by intros ? [= <-]]
             end; reflexivity]).
  all: (split; [elem|]).
  all: match goal with
       | H : apply_op (OpCopyFile _ _) _ _ = inr _ |- _ =>
           apply apply_copy in H; destruct H as (s & i & Hs & Hk & -> & Hd & _)
       end.
  all: exists s.
  all: match goal with
       | H : mode_only _ _ (fs ?w') |- _ =>
           assert (exists copy, fs w' !! p = Some copy /\ data copy = data s) as (copy & Hc & Hdc)
       end.
  1,3,5,7: match goal with
       | H : mode_only _ _ _ |- _ =>
           destruct H as [->|(i0 & Hi0 & ->)];
           [|rewrite lookup_insert_eq in Hi0; injection Hi0 as <-];
           rewrite lookup_insert_eq; eauto
       end.
  all: exists copy; (split; [|by split]).
  all: try exact Hs.
  all: match goal with
       | H : apply_op (OpMkdir _) _ _ = inr _ |- _ => by eapply apply_mkdir_file
       end.
Qed.
Lemma touch_movs_keeps dir date (files : gmap string inode) p i :
  files !! p = Some i ->
  exists i', touch_movs dir date files !! p = Some i' /\
    data i' = data i /\ kind_of i' = kind_of i.
Proof.
  intros Hp. unfold touch_movs. rewrite map_lookup_imap, Hp. cbn.
  destruct (_ && _); eauto.
Qed.

(** [installWallpaper] never throws: it answers [true] or [false]. It
    answers [false] only when the copy of the video failed, which it
    logs. When it answers [true] the target holds the bytes of the
    video. In both cases every file other than the target is still there
    with the bytes it had (the refresh of the wallpaper system can only
    touch modification times). *)
Theorem installWallpaper_spares_the_rest videoPath targetWallpaperName w :
  let r := installWallpaper E videoPath targetWallpaperName w in
  let targetPath := JS.path_join targetDir targetWallpaperName in
  (out r = Resolved true \/ out r = Resolved false) /\
  (out r = Resolved false ->
     exists e, EvFs (OpCopyFile videoPath targetPath) (Some e) ∈ trace r /\
       EvLog LvError (FailedToInstall (FsError e (OpCopyFile videoPath targetPath))) ∈ trace r) /\
  (out r = Resolved true ->
     EvFs (OpCopyFile videoPath targetPath) None ∈ trace r /\
     exists source installed,
       fs w !! videoPath = Some source /\ fs (final r) !! targetPath = Some installed /\
       data installed = data source) /\
  (forall q i, q <> targetPath -> fs w !! q = Some i ->
     exists i', fs (final r) !! q = Some i' /\ data i' = data i /\ kind_of i' = kind_of i).
Proof.
  intros r targetPath. subst r.
  apply (wp_run (installWallpaper E videoPath targetWallpaperName) w
           (fun o w' t =>
              (o = Resolved true \/ o = Resolved false) /\
              (o = Resolved false ->
                 exists e, EvFs (OpCopyFile videoPath targetPath) (Some e) ∈ t /\
                   EvLog LvError (FailedToInstall (FsError e (OpCopyFile videoPath targetPath)))
                     ∈ t) /\
              (o = Resolved true ->
                 EvFs (OpCopyFile videoPath targetPath) None ∈ t /\
                 exists source installed,
                   fs w !! videoPath = Some source /\ fs w' !! targetPath = Some installed /\
                   data installed = data source) /\
              (forall q i, q <> targetPath -> fs w !! q = Some i ->
                 exists i', fs w' !! q = Some i' /\ data i' = data i /\
                            kind_of i' = kind_of i))).
  unfold installWallpaper, refreshWallpaperSystem, restartWallpaperDaemon,
    forceWallpaperRefresh.
  fold targetPath. wp_run.
  all: cbn [fs with_fs step stdin clock] in *.
  all: try match goal with
       | H : apply_op (OpCopyFile _ _) _ _ = inr _ |- _ =>
           apply apply_copy in H; destruct H as (s & i' & Hs & _ & -> & Hd & _)
       end.
  all: try match goal with
       | H : present (<[?p:=_]> _ !! ?p) = false |- _ =>
           rewrite lookup_insert_eq in H; discriminate H
       | H : <[?p:=_]> _ !! ?p = None |- _ =>
           rewrite lookup_insert_eq in H; discriminate H
       end.
  all: (split; [auto|]).
  all: split; [intros Hfalse; try discriminate; eexists; split; elem|].
  all: split; [intros Htrue; try discriminate|].
  all: try (intros q iq Hq Hi; eauto; fail).
  all: try (intros q iq Hq Hi;
            apply not_eq_sym in Hq;
            first [ apply touch_movs_keeps; by rewrite lookup_insert_ne
                  | rewrite lookup_insert_ne by done; eauto ]).
  all: (split; [elem|]).
  all: exists s.
  all: try (destruct (touch_movs_keeps targetDir (clock w) (<[targetPath:=i']> (fs w))
                        targetPath i') as (i'' & Ht & Hd' & _); [apply lookup_insert_eq|];
            exists i''; rewrite Ht, Hd'; by auto).
  all: exists i'; rewrite lookup_insert_eq; auto.
Qed.
End ManagerMore.
(** * Settling *)

Section Settling.
Variable E : Env.
Import WallpaperManager.

(** A run that stays pending has read every line of input and ends on
    a question. *)
Definition awaiting {A} (o : outcome A) (w' : World) (t : list event) : Prop :=
  o = Pending -> stdin w' = [] /\ exists pre q, t = pre ++ [EvQuestion q].

Lemma awaiting_prefix {A} (o : outcome A) w' t1 t :
  awaiting o w' t -> awaiting o w' (t1 ++ t).
Proof.
  intros H Ho. destruct (H Ho) as (Hin & pre & q & ->).
  split; [exact Hin|]. exists (t1 ++ pre), q. by rewrite app_assoc.
Qed.

Lemma prompt_rounds_awaiting wallpapers answers :
  let '(o, rest, t) := prompt_rounds wallpapers answers in
  o = Pending -> rest = [] /\ exists pre q, t = pre ++ [EvQuestion q].
Proof.
  induction answers as [|a answers IH]; cbn [prompt_rounds].
  - intros _. split; [reflexivity|]. by exists [], (SelectPrompt (length wallpapers)).
  - destruct (is_cancel a); [discriminate|].
    destruct (valid_choice _ a) eqn:Hv.
    { destruct (valid_choice_lookup _ _ Hv) as (c & x & Hp & _ & Hx).
      rewrite Hp. cbn [default from_option id]. rewrite Hx. discriminate. }
    destruct (prompt_rounds wallpapers answers) as [[o0 r0] t0].
    intros Ho. destruct (IH Ho) as (-> & pre & q & ->). split; [reflexivity|].
    eexists (_ :: _ :: _ :: pre), q. reflexivity.
Qed.

Lemma confirm_branch_awaiting x videoPath w :
  wp (confirmed <- getUserConfirmation x videoPath ;;
      if negb confirmed then ret None else ret (Some x)) w awaiting.
Proof.
  apply wp_bind. eapply wp_mono; [apply getUserConfirmation_spec|].
  intros o w1 t1 (_ & _ & Hcases).
  destruct Hcases as [(_ & -> & _ & ->)|[(_ & Hin & -> & -> & ->)|(_ & a & rest & _ & _ & -> & ->)]].
  - wp_run. discriminate.
  - wp_run. intros _. split; [exact Hin|]. by exists [EvLog LvWarning (AboutToReplace (name x))], ConfirmPrompt.
  - wp_run; discriminate.
Qed.

Lemma choose_awaiting videoPath w : wp (choose E videoPath) w awaiting.
Proof.
  unfold choose. apply wp_bind.
  eapply wp_mono; [apply checkCustomerDirectory_spec|].
  intros o w1 t1 ((hasAccess & ->) & _). wp_rule.
  destruct hasAccess; cbn [negb]; [|wp_run; discriminate].
  unfold isTargetDirectoryEmpty.
  apply wp_bind. apply wp_bind. eapply wp_mono; [apply getExistingWallpapers_spec|].
  intros o w2 ts1 (-> & _ & ->). do 3 wp_rule.
  assert (forall msg,
    wp (log LvWarning msg;; openWallpaperSettings E;;
        wallpaperFile <- waitForWallpaperSetup E;; ret (Some wallpaperFile)) w1 awaiting)
    as Hseed.
  { intros msg. do 2 wp_rule. apply wp_bind.
    eapply wp_mono; [apply openWallpaperSettings_spec|].
    intros o w3 t3 ((b & ->) & _). wp_rule. apply wp_bind.
    eapply wp_mono; [apply waitLoop_spec|].
    intros o w4 t4 ([->|(x & -> & _)] & _); wp_run; discriminate. }
  destruct (scan w1) as [|x l] eqn:Hscan; cbn [length Nat.eqb].
  - eapply wp_mono; [apply Hseed|]. intros o w2 t2 H. by do 2 apply awaiting_prefix.
  - apply wp_bind. eapply wp_mono; [apply getExistingWallpapers_spec|].
    intros o w2 ts2 (-> & _ & ->). wp_rule. rewrite Hscan.
    destruct l as [|y l].
    + eapply wp_mono; [apply confirm_branch_awaiting|].
      intros o w2 t2 H. by do 3 apply awaiting_prefix.
    + do 2 wp_rule. apply wp_bind.
      pose proof (selectWallpaperFromList_rounds E (x :: y :: l) w1) as (lv & m & Hrounds).
      pose proof (prompt_rounds_awaiting (x :: y :: l) (stdin w1)) as Hw.
      unfold wp. destruct (prompt_rounds (x :: y :: l) (stdin w1)) as [[o0 r0] t0].
      injection Hrounds as Ho Hr Ht. rewrite Ho, Ht.
      destruct o0 as [[z|]|e|]; cbn [after].
      * eapply wp_mono; [apply confirm_branch_awaiting|].
        intros o w2 t2 H. by do 5 apply awaiting_prefix.
      * wp_run. discriminate.
      * discriminate.
      * do 4 apply awaiting_prefix. intros _.
        destruct (Hw eq_refl) as (-> & pre & q & ->). split; [exact Hr|].
        by exists (EvExec (OpenFinder targetDir) :: EvLog lv m :: pre), q.
Qed.

(** [setupWallpaper] never throws: it resolves to a boolean, or stays
    pending. It stays pending only on a question that is not answered,
    every line of input being read. When the flow before the backup
    throws, the error is logged and the result is [false]. *)
Theorem setupWallpaper_never_throws videoPath w :
  let r := setupWallpaper E videoPath w in
  ((exists b, out r = Resolved b) \/ out r = Pending) /\
  (out r = Pending -> stdin (final r) = [] /\ exists pre q, trace r = pre ++ [EvQuestion q]) /\
  (forall e, out (choose E videoPath w) = Rejected e ->
     out r = Resolved false /\ EvLog LvError (SetupFailed e) ∈ trace r).
Proof.
  intros r.
  pose proof (setupWallpaper_after_choice E videoPath w) as Hrun. cbv zeta in Hrun.
  pose proof (choose_awaiting videoPath w) as Hwait. unfold wp, awaiting in Hwait.
  fold r in Hrun.
  destruct (out (choose E videoPath w)) as [[target|]|e|] eqn:Hc.
  - destruct Hrun as [Hrun (b & Hb)]. rewrite Hrun. cbn [out final trace].
    split; [left; eauto|]. split; [congruence|discriminate].
  - rewrite Hrun. cbn [out final trace]. split; [left; eauto|]. split; discriminate.
  - rewrite Hrun. cbn [out final trace]. split; [left; eauto|]. split; [discriminate|].
    intros e' [= <-]. split; [reflexivity|elem].
  - rewrite Hrun. cbn [out final trace]. split; [by right|]. split; [|discriminate].
    intros _. by apply Hwait.
Qed.
End Settling.
(** * The dialogue *)

Section Dialogue.
Variable E : Env.
Import WallpaperManager.

(** A line that ends the selection prompt: it is [c] or [cancel] in any
    case of letters, or [parseInt] reads in it a number between 1 and
    [n]. *)
Definition decisive (n : nat) (a : string) : bool :=
  String.eqb (JS.toLowerCase a) "c" || String.eqb (JS.toLowerCase a) "cancel" ||
  match JS.parseInt a with
  | Some choice => (1 <=? choice) && (choice <=? Z.of_nat n)
  | None => false
  end.

(** What the selection prompt resolves to on a decisive line: nothing
    after [c] or [cancel], and otherwise the entry with the number read,
    counted from 1. *)
Definition decision (wallpapers : list wallpaper) (a : string) : option wallpaper :=
  if String.eqb (JS.toLowerCase a) "c" || String.eqb (JS.toLowerCase a) "cancel" then None
  else
    match JS.parseInt a with
    | Some choice => wallpapers !! Z.to_nat (choice - 1)
    | None => None
    end.

Lemma decisive_eq n a : decisive n a = is_cancel a || valid_choice n a.
Proof.
  unfold decisive, is_cancel, valid_choice. f_equal.
  destruct (JS.parseInt a) as [c|]; [|reflexivity].
  rewrite negb_orb. f_equal; apply Z.leb_antisym.
Qed.

Lemma decision_eq wallpapers a :
  decisive (length wallpapers) a = true ->
  decision wallpapers a =
  if is_cancel a then None else wallpapers !! Z.to_nat (default 0 (JS.parseInt a) - 1).
Proof.
  rewrite decisive_eq. unfold decision. fold (is_cancel a).
  destruct (is_cancel a); [reflexivity|]. cbn [orb]. unfold valid_choice.
  by destruct (JS.parseInt a).
Qed.

Lemma prompt_rounds_find wallpapers answers :
  fst (prompt_rounds wallpapers answers) =
  match list_find (fun a => decisive (length wallpapers) a = true) answers with
  | Some (k, a) => (Resolved (decision wallpapers a), drop (S k) answers)
  | None => (Pending, [])
  end.
Proof.
  induction answers as [|a answers IH]; [reflexivity|].
  cbn [prompt_rounds list_find].
  destruct (decide (decisive (length wallpapers) a = true)) as [Hd|Hd].
  - rewrite (decision_eq _ _ Hd). rewrite decisive_eq in Hd.
    destruct (is_cancel a); [reflexivity|]. cbn in Hd. by rewrite Hd.
  - rewrite decisive_eq in Hd.
    destruct (is_cancel a); [by destruct Hd|]. cbn in Hd.
    destruct (valid_choice (length wallpapers) a); [by destruct Hd|].
    destruct (prompt_rounds wallpapers answers) as [[o0 r0] t0]. cbn [fst] in *.
    destruct (list_find _ answers) as [[k b]|]; cbn; exact IH.
Qed.

(** [selectWallpaperFromList] reads the lines of input in order, up to
    the first that is [c] or [cancel] (in any case of letters) or in
    which [parseInt] reads a number between 1 and the length, and
    resolves with what this line says: [null], or the entry with that
    number. The lines after it are left unread. When no line is
    decisive, all are read and the promise stays pending. *)
Theorem selection_reads_to_the_first_decision wallpapers w :
  let r := selectWallpaperFromList E wallpapers w in
  match list_find (fun a => decisive (length wallpapers) a = true) (stdin w) with
  | Some (k, a) =>
      out r = Resolved (decision wallpapers a) /\ stdin (final r) = drop (S k) (stdin w)
  | None => out r = Pending /\ stdin (final r) = []
  end.
Proof.
  intros r.
  destruct (selectWallpaperFromList_rounds E wallpapers w) as (l & m & Hrounds).
  fold r in Hrounds.
  pose proof (prompt_rounds_find wallpapers (stdin w)) as Hfind.
  destruct (prompt_rounds wallpapers (stdin w)) as [[o0 r0] t0]. cbn [fst] in Hfind.
  injection Hrounds as -> -> _.
  destruct (list_find _ (stdin w)) as [[k a]|]; by injection Hfind as -> ->.
Qed.

(** [getUserConfirmation] reads nothing and asks nothing when the
    video does not exist: it throws. Otherwise it asks once and reads
    one line: the answer is a yes exactly when the line is [y] or [yes],
    in any case of letters. It changes no file. *)
Theorem getUserConfirmation_asks_once selected videoPath w :
  let r := getUserConfirmation selected videoPath w in
  fs (final r) = fs w /\
  match fs w !! videoPath, stdin w with
  | None, _ =>
      out r = Rejected (StatError ENOENT videoPath) /\ dialogue (trace r) = [] /\
      stdin (final r) = stdin w
  | Some _, [] => out r = Pending /\ dialogue (trace r) = [EvQuestion ConfirmPrompt]
  | Some _, a :: rest =>
      out r = Resolved (String.eqb (JS.toLowerCase a) "y" || String.eqb (JS.toLowerCase a) "yes") /\
      stdin (final r) = rest /\
      dialogue (trace r) = [EvQuestion ConfirmPrompt; EvAnswer ConfirmPrompt a]
  end.
Proof.
  intros r. subst r.
  apply (wp_run (getUserConfirmation selected videoPath) w
           (fun o w' t =>
              fs w' = fs w /\
              match fs w !! videoPath, stdin w with
              | None, _ =>
                  o = Rejected (StatError ENOENT videoPath) /\ dialogue t = [] /\
                  stdin w' = stdin w
              | Some _, [] => o = Pending /\ dialogue t = [EvQuestion ConfirmPrompt]
              | Some _, a :: rest =>
                  o = Resolved (String.eqb (JS.toLowerCase a) "y" ||
                                String.eqb (JS.toLowerCase a) "yes") /\
                  stdin w' = rest /\
                  dialogue t = [EvQuestion ConfirmPrompt; EvAnswer ConfirmPrompt a]
              end)).
  unfold getUserConfirmation. wp_run.
  all: cbn [app fs clock stdin]; (split; [reflexivity|]).
  all: repeat match goal with
       | H : fs _ !! _ = _ |- _ => rewrite H
       | H : stdin _ = _ |- _ => rewrite H
       end; by repeat split.
Qed.

(** Without access to the Customer directory, [setupWallpaper] stops
    after the check: it logs the error and returns [false], having
    asked, copied and started nothing. *)
Theorem setupWallpaper_without_access videoPath w :
  let chk := checkCustomerDirectory E w in
  let r := setupWallpaper E videoPath w in
  out chk = Resolved false ->
  out r = Resolved false /\ final r = final chk /\
  trace r = trace chk ++ [EvLog LvError (SetupFailed CannotAccess)].
Proof.
  intros chk r Hchk.
  assert (choose E videoPath w = mkRun (Rejected CannotAccess) (final chk) (trace chk)) as Hc.
  { unfold choose. rewrite bind_run. fold chk. rewrite Hchk. cbv zeta. cbn [negb].
    unfold throw. cbn [out final trace]. by rewrite app_nil_r. }
  pose proof (setupWallpaper_after_choice E videoPath w) as Hrun. cbv zeta in Hrun.
  rewrite Hc in Hrun. cbn [out final trace] in Hrun. subst r. by rewrite Hrun.
Qed.

End Dialogue.
(** * More on the conversion *)

Section ConversionMore.
Variable E : Env.

(** The outcome of a transcode, on what it leaves behind. *)
Definition leaves_output (outputPath : string) (o : outcome string) (w' : World)
    (t : list event) : Prop :=
  (forall p, o = Resolved p -> p = outputPath /\ present (fs w' !! outputPath) = true) /\
  (forall op res, (op, res) ∈ fs_calls t -> op = OpChmod outputPath 436) /\
  o <> Pending.

Ltac wp_spec ::=
  lazymatch goal with
  | |- wp (VideoDownloader.fixFilePermissions _ _) _ _ =>
      eapply wp_mono; [apply fixFilePermissions_spec | intros ? ? ? (-> & ? & ? & ?)]
  end.

Ltac settle_output :=
  norm_trace; cbn [fs with_fs] in *; unfold leaves_output;
  (split; [intros p Hp; try discriminate; injection Hp as <-; (split; [reflexivity|]);
           match goal with
           | H : mode_only _ _ _ |- _ => by rewrite (mode_only_present _ _ _ _ H)
           end
          |split; [|discriminate]]);
  intros op res Hin;
  first [ by apply elem_of_nil in Hin
        | match goal with H : forall _ _, _ -> _ = OpChmod _ _ |- _ => by eapply H end ].

Lemma software_attempt_leaves_output i o w :
  wp (VideoDownloader.convertWithHEVC_from E 0 i o) w (leaves_output o).
Proof.
  cbn [VideoDownloader.convertWithHEVC_from]. wp_run.
  all: settle_output.
Qed.

Ltac wp_spec ::=
  lazymatch goal with
  | |- wp (VideoDownloader.fixFilePermissions _ _) _ _ =>
      eapply wp_mono; [apply fixFilePermissions_spec | intros ? ? ? (-> & ? & ? & ?)]
  | |- wp (VideoDownloader.convertWithHEVC_from _ ?n _ _) _ _ =>
      subst n; eapply wp_mono; [apply software_attempt_leaves_output | intros ? ? ? (? & ? & ?)]
  end.

(** [convertWithHEVC] settles. It resolves only with its output path,
    and then a file exists at this path; it starts ffmpeg once or
    twice; its only call on the files is the [chmod] of the output to
    [0o664]. *)
Theorem convertWithHEVC_leaves_the_output inputPath outputPath useFallback w :
  let r := VideoDownloader.convertWithHEVC E inputPath outputPath useFallback w in
  out r <> Pending /\
  (forall p, out r = Resolved p ->
     p = outputPath /\ present (fs (final r) !! outputPath) = true) /\
  (forall op res, EvFs op res ∈ trace r -> op = OpChmod outputPath 436) /\
  (0 < length (ffmpeg_runs (trace r)) <= 2)%nat.
Proof.
  intros r.
  assert (leaves_output outputPath (out r) (final r) (trace r)) as (Hres & Hcalls & Hp).
  { subst r. apply wp_run. unfold VideoDownloader.convertWithHEVC.
    destruct useFallback; [apply software_attempt_leaves_output|].
    change 1%nat with (S 0). remember 0%nat as n eqn:Hn.
    cbn [VideoDownloader.convertWithHEVC_from]. wp_run.
    all: try settle_output.
    all: try match goal with
         | |- match ?o with _ => _ end =>
             destruct o as [?|?|]; [wp_run|wp_run|congruence];
             norm_trace; unfold leaves_output;
             (split; [discriminate|split; [|discriminate]]);
             intros op res Hin; rewrite ?app_nil_r in Hin;
             match goal with H : forall _ _, _ -> _ = OpChmod _ _ |- _ => by eapply H end
         end.
    all: norm_trace; unfold leaves_output; (split; [assumption|]); (split; [|assumption]).
    all: intros op res Hin; match goal with H : forall _ _, _ -> _ = OpChmod _ _ |- _ => by eapply H end. }
  split; [exact Hp|]. split; [exact Hres|]. split.
  { intros op res Hin. apply fs_calls_elem in Hin. by eapply Hcalls. }
  subst r. destruct useFallback.
  - pose proof (software_attempt_spec E inputPath outputPath w) as H. unfold wp in H.
    cbv zeta in H. destruct H as [-> _]. cbn. lia.
  - pose proof (convertWithHEVC_spec E inputPath outputPath w) as H. unfold wp in H.
    cbv zeta in H.
    destruct H as [(_ & -> & _)|[(? & _ & _ & -> & _)|[(? & ? & _ & _ & -> & _)|(_ & _ & _ & -> & _)]]];
      cbn; lia.
Qed.

Lemma convertToMov_shortcut inputPath w :
  present (fs w !! JS.replace_ext inputPath ".mov") = true ->
  VideoDownloader.convertToMov E inputPath w =
  mkRun (Resolved (JS.replace_ext inputPath ".mov")) w [EvLog LvSuccess MovAlreadyExists].
Proof.
  intros Hp. unfold VideoDownloader.convertToMov.
  rewrite bind_run. unfold existsSync at 1. cbn [out final trace]. cbv zeta. rewrite Hp.
  rewrite bind_run, log_run. reflexivity.
Qed.

(** When the [.mov] file already exists, [convertToMov] returns its
    path at once: it probes nothing, starts nothing and changes
    nothing. *)
Theorem convertToMov_reuses_the_output inputPath w :
  let output := JS.replace_ext inputPath ".mov" in
  present (fs w !! output) = true ->
  VideoDownloader.convertToMov E inputPath w =
  mkRun (Resolved output) w [EvLog LvSuccess MovAlreadyExists].
Proof. apply convertToMov_shortcut. Qed.

(** When the probe of the duration fails, nothing is converted:
    [convertToMov] fails with the error of the probe and [extendVideo]
    with that error wrapped, and neither starts ffmpeg nor touches a
    file. *)
Theorem probe_failure_stops_the_conversion inputPath minDuration w e :
  let r := VideoDownloader.convertToMov E inputPath w in
  let x := VideoDownloader.extendVideo E inputPath minDuration w in
  out (VideoDownloader.getVideoDuration E inputPath w) = Rejected e ->
  (present (fs w !! JS.replace_ext inputPath ".mov") = false ->
     out r = Rejected e /\ trace r = [EvSpawn "ffprobe" (probe_args inputPath)] /\
     fs (final r) = fs w) /\
  out x = Rejected (DurationFailed e) /\ ffmpeg_runs (trace x) = [] /\
  fs_calls (trace x) = [] /\ fs (final x) = fs w.
Proof.
  intros r x He. split.
  - intros Hout. subst r.
    apply (wp_run (VideoDownloader.convertToMov E inputPath) w
             (fun o w' t => o = Rejected e /\ t = [EvSpawn "ffprobe" (probe_args inputPath)] /\
                            fs w' = fs w)).
    unfold VideoDownloader.convertToMov.
    apply wp_bind, wp_existsSync. rewrite Hout. wp_rule.
    apply wp_bind, wp_named.
    pose proof (getVideoDuration_spec E inputPath w) as (Hw & Ht & _). unfold wp in Hw, Ht.
    rewrite He, Hw, Ht. wp_rule. auto.
  - pose proof (extendVideo_spec E inputPath minDuration w) as H. unfold wp in H.
    cbv zeta in H. rewrite He in H. fold x in H. tauto.
Qed.

End ConversionMore.
(** * The extender on its own *)

Section ExtenderMore.
Variable E : Env.

(** [extendVideo] settles. It makes no call on the files itself and
    starts ffmpeg at most once, to loop the input into
    [<name>_extended.mp4]; without that run no file changes. It
    resolves only with the path of the extended copy, and then a file
    exists there. *)
Theorem extendVideo_writes_only_the_copy inputPath minDuration w :
  let x := VideoDownloader.extendVideo E inputPath minDuration w in
  let args := VideoDownloader.extend_args inputPath minDuration (extended_path inputPath) in
  out x <> Pending /\
  fs_calls (trace x) = [] /\
  (ffmpeg_runs (trace x) = [] \/ ffmpeg_runs (trace x) = [args]) /\
  (ffmpeg_runs (trace x) = [] -> fs (final x) = fs w) /\
  (ffmpeg_runs (trace x) = [args] -> fs (final x) = snd (ffmpeg E args (step w))) /\
  (forall p, out x = Resolved p ->
     p = extended_path inputPath /\ present (fs (final x) !! p) = true).
Proof.
  intros x args.
  pose proof (extendVideo_spec E inputPath minDuration w) as H.
  unfold wp in H. cbv zeta in H. fold x args in H.
  destruct (out (VideoDownloader.getVideoDuration E inputPath w)) as [d|e|]; [| |done].
  - destruct H as (Hruns & Hcalls & Hfs & Hout). rewrite Hruns, Hcalls, Hfs.
    assert (out x <> Pending /\
            forall p, out x = Resolved p ->
              p = extended_path inputPath /\
              present (snd (ffmpeg E args (step w)) !! p) = true) as (Hp & Hres).
    { destruct (fst (ffmpeg E args (step w))) as [code|m].
      - destruct (VideoDownloader.is_zero code).
        + destruct Hout as [(Hthere & ->)|(_ & ->)]; split; try discriminate.
          by intros p [= <-].
        + rewrite Hout. split; discriminate.
      - rewrite Hout. split; discriminate. }
    split; [exact Hp|]. split; [reflexivity|]. split; [by right|].
    split; [discriminate|]. split; [reflexivity|exact Hres].
  - destruct H as (Hruns & Hcalls & Hfs & ->). rewrite Hruns, Hcalls, Hfs.
    split; [discriminate|]. split; [reflexivity|]. split; [by left|].
    split; [reflexivity|]. split; discriminate.
Qed.

End ExtenderMore.
(** * [utils.js]: strings

    [sanitizeInput] is read on the UTF-8 bytes of its input: the eleven
    characters it removes are ASCII, and in a UTF-8 text an ASCII byte
    stands for that character and nothing else. The functions that count
    characters or look for white space are read on the UTF-16 code units
    of their inputs, which is how JavaScript counts and matches. *)

Module UtilsText.

(** The characters [sanitizeInput] removes: [;&|`$(){}[]]. *)
Definition is_shell_char (c : ascii) : bool :=
  existsb (Ascii.eqb c)
    [";"; "&"; "|"; "`"; "$"; "("; ")"; "{"; "}"; "["; "]"]%char.

(** [input.replace(/[;&|`$(){}[\]]/g, '')]. *)
Definition sanitizeInput (input : string) : string :=
  JS.str (List.filter (fun c => negb (is_shell_char c)) (JS.chars input)).

(** [\w] on bytes: letters, digits and the underscore. *)
Definition is_word (c : ascii) : bool :=
  let n := nat_of_ascii c in
  (Nat.leb 48 n && Nat.leb n 57) || (Nat.leb 65 n && Nat.leb n 90) ||
  (Nat.leb 97 n && Nat.leb n 122) || Nat.eqb n 95.

(** A JavaScript string as the sequence of its UTF-16 code units. *)
Definition text : Type := list N.

(** The code units of a string of ASCII characters. *)
Definition units (s : string) : text := map N_of_ascii (JS.chars s).

(** The later of the two [formatDate] of the class, which is the one in
    force: [YYYYMMDD] becomes [YYYY-MM-DD]; an empty string is falsy.
    [length] counts code units. *)
Definition formatDate (dateString : text) : text :=
  match dateString with
  | [] => units "Unknown date"
  | _ =>
      if Nat.eqb (length dateString) 8 then
        let year := take 4 dateString in
        let month := take 2 (drop 4 dateString) in
        let day := take 2 (drop 6 dateString) in
        year ++ units "-" ++ month ++ units "-" ++ day
      else dateString
  end.

(** [\w] without the [u] and [i] flags: [A-Za-z0-9_]. *)
Definition is_word_unit (u : N) : bool :=
  ((48 <=? u) && (u <=? 57) || (65 <=? u) && (u <=? 90) ||
   (97 <=? u) && (u <=? 122) || (u =? 95))%N.

(** [\s], and what [trim] removes: the white space and the line
    terminators of ECMAScript. TAB to CR, SP, NBSP, U+1680, U+2000 to
    U+200A, U+2028, U+2029, U+202F, U+205F, U+3000 and U+FEFF. *)
Definition is_white (u : N) : bool :=
  ((9 <=? u) && (u <=? 13) || (u =? 32) || (u =? 160) || (u =? 5760) ||
   (8192 <=? u) && (u <=? 8202) || (u =? 8232) || (u =? 8233) || (u =? 8239) ||
   (u =? 8287) || (u =? 12288) || (u =? 65279))%N.

(** What [/[^\w\s-]/g] leaves. *)
Definition is_title_unit (u : N) : bool :=
  (is_word_unit u || is_white u || (u =? 45))%N.

(** [s.replace(/\s+/g, '_')]: every maximal run of white space becomes
    one underscore. [in_run] tells that the code unit before was white
    space. *)
Fixpoint underscore_runs (in_run : bool) (l : text) : text :=
  match l with
  | [] => []
  | u :: l' =>
      if is_white u then
        if in_run then underscore_runs true l'
        else 95%N :: underscore_runs true l'
      else u :: underscore_runs false l'
  end.

(** [l] without the white space it begins with. *)
Fixpoint skip_white (l : text) : text :=
  match l with
  | [] => []
  | u :: l' => if is_white u then skip_white l' else l
  end.

(** [s.trim()]. *)
Definition trim (l : text) : text := rev (skip_white (rev (skip_white l))).

(** [CONFIG.FILE_NAMING.maxTitleLength]. *)
Definition maxTitleLength : nat := 50.

(** The title part of [createSafeFilename]:
    [title.replace(invalidChars, '').replace(/\s+/g, '_').substring(0, 50).trim()]. *)
Definition safeTitle (title : text) : text :=
  trim (take maxTitleLength (underscore_runs false (List.filter is_title_unit title))).

Fixpoint starts_with (pattern s : text) : bool :=
  match pattern, s with
  | [], _ => true
  | a :: pattern', b :: s' => N.eqb a b && starts_with pattern' s'
  | _ :: _, [] => false
  end.

(** [s.replace(pattern, replacement)] for a pattern that is a string:
    the first occurrence is replaced. The replacement is taken
    literally, which is how JavaScript reads it when it holds no [$]. *)
Fixpoint replace_first (pattern replacement s : text) : text :=
  if starts_with pattern s then replacement ++ drop (length pattern) s
  else
    match s with
    | [] => []
    | u :: s' => u :: replace_first pattern replacement s'
    end.

(** [CONFIG.FILE_NAMING.template]. *)
Definition template : text := units "{title}_{quality}.{ext}".

Definition createSafeFilename (title quality extension : text) : text :=
  replace_first (units "{ext}") extension
    (replace_first (units "{quality}") quality
       (replace_first (units "{title}") (safeTitle title) template)).

End UtilsText.

Section UtilsTextFacts.
Import UtilsText.

Lemma forall_filter_id {A} (p : A -> bool) l :
  Forall (fun c => p c = true) l -> List.filter p l = l.
Proof.
  induction 1 as [|c l Hc _ IH]; [reflexivity|]. cbn. by rewrite Hc, IH.
Qed.

Lemma is_shell_char_elem c :
  is_shell_char c = true <->
  c ∈ [";"; "&"; "|"; "`"; "$"; "("; ")"; "{"; "}"; "["; "]"]%char.
Proof.
  unfold is_shell_char. rewrite existsb_exists. split.
  - intros (x & Hin & Hx). apply Ascii.eqb_eq in Hx as <-. by apply list_elem_of_In.
  - intros Hin. exists c. split; [by apply list_elem_of_In|apply Ascii.eqb_refl].
Qed.

(** [sanitizeInput] removes the eleven characters [;&|`$(){}[]] and
    nothing else: a character is in the result exactly when it is in
    the input and is none of them, the characters that stay keep their
    order, a string that has none of them is returned as it is (so that
    sanitizing twice is sanitizing once), and the function works piece
    by piece. *)
Theorem sanitizeInput_removes_shell_characters s :
  let shell := [";"; "&"; "|"; "`"; "$"; "("; ")"; "{"; "}"; "["; "]"]%char in
  (forall c, c ∈ JS.chars (sanitizeInput s) <-> c ∈ JS.chars s /\ c ∉ shell) /\
  JS.chars (sanitizeInput s) = List.filter (fun c => bool_decide (c ∉ shell)) (JS.chars s) /\
  sanitizeInput (sanitizeInput s) = sanitizeInput s /\
  (Forall (fun c => c ∉ shell) (JS.chars s) -> sanitizeInput s = s) /\
  (forall t, sanitizeInput (s +:+ t) = sanitizeInput s +:+ sanitizeInput t).
Proof.
  intros shell.
  assert (forall c, negb (is_shell_char c) = bool_decide (c ∉ shell)) as Hdec.
  { intros c. destruct (is_shell_char c) eqn:Hc; cbn.
    - symmetry. apply bool_decide_eq_false. intros Hn. apply Hn.
      by apply is_shell_char_elem.
    - symmetry. apply bool_decide_eq_true. intros Hin.
      apply is_shell_char_elem in Hin. congruence. }
  assert (forall l, List.filter (fun c => negb (is_shell_char c)) l =
                    List.filter (fun c => bool_decide (c ∉ shell)) l) as Hfilter.
  { intros l. apply List.filter_ext. exact Hdec. }
  assert (forall l, Forall (fun c => c ∉ shell) l ->
                    List.filter (fun c => negb (is_shell_char c)) l = l) as Hid.
  { intros l Hl. apply forall_filter_id. eapply Forall_impl; [exact Hl|].
    intros c Hc. cbv beta. rewrite Hdec. by apply bool_decide_eq_true. }
  assert (forall c, c ∈ JS.chars (sanitizeInput s) <-> c ∈ JS.chars s /\ c ∉ shell) as Helem.
  { intros c. unfold sanitizeInput.
    rewrite chars_str, Hfilter, list_elem_of_In, filter_In, <- list_elem_of_In.
    cbv beta. by rewrite bool_decide_eq_true. }
  assert (Forall (fun c => c ∉ shell) (JS.chars (sanitizeInput s))) as Hsafe.
  { apply Forall_forall. intros c Hc. by apply Helem in Hc as [_ ?]. }
  split; [exact Helem|]. split; [|split; [|split]].
  - unfold sanitizeInput. by rewrite chars_str, Hfilter.
  - unfold sanitizeInput at 1. rewrite (Hid _ Hsafe). apply str_chars.
  - intros Hs. unfold sanitizeInput. rewrite (Hid _ Hs). apply str_chars.
  - intros t. apply chars_inj. unfold sanitizeInput.
    rewrite chars_append, !chars_str, chars_append, !chars_str. apply List.filter_app.
Qed.

Lemma length_8 {A} (s : list A) :
  length s = 8%nat -> exists a b c d e f g h, s = [a; b; c; d; e; f; g; h].
Proof.
  intros H.
  repeat (destruct s as [|? s]; [discriminate H|]).
  destruct s; [|discriminate H]. eauto 10.
Qed.

(** [formatDate] turns the eight code units [YYYYMMDD] into the ten
    code units [YYYY-MM-DD], from which the input is read back by
    leaving out the dashes; it returns [Unknown date] for the empty
    string and any other string as it is; and formatting twice is
    formatting once. The length is counted in UTF-16 code units. *)
Theorem formatDate_inserts_dashes (s : text) :
  (length s = 8%nat ->
     formatDate s = take 4 s ++ [45%N] ++ take 2 (drop 4 s) ++ [45%N] ++ drop 6 s /\
     length (formatDate s) = 10%nat /\
     take 4 (formatDate s) ++ take 2 (drop 5 (formatDate s)) ++ drop 8 (formatDate s) = s) /\
  (s <> [] -> length s <> 8%nat -> formatDate s = s) /\
  formatDate [] = units "Unknown date" /\
  formatDate (formatDate s) = formatDate s.
Proof.
  assert (forall t : text, t <> [] -> length t <> 8%nat -> formatDate t = t) as Hother.
  { intros t Ht Hlen. unfold formatDate. destruct t; [done|].
    apply Nat.eqb_neq in Hlen. by rewrite Hlen. }
  split; [|split; [apply Hother|split; [reflexivity|]]].
  - intros H. destruct (length_8 s H) as (a & b & c & d & e & f & g & h & ->).
    repeat split; reflexivity.
  - destruct (decide (length s = 8%nat)) as [H|H].
    + destruct (length_8 s H) as (a & b & c & d & e & f & g & h & ->). reflexivity.
    + destruct s as [|u s]; [reflexivity|]. rewrite (Hother (u :: s)) by done.
      by apply Hother.
Qed.

(** A letter, a digit, an underscore or a hyphen. *)
Definition is_safe_unit (u : N) : Prop :=
  (48 <= u <= 57 \/ 65 <= u <= 90 \/ 97 <= u <= 122 \/ u = 95 \/ u = 45)%N.

Lemma is_word_unit_safe u : is_word_unit u = true -> is_safe_unit u.
Proof.
  unfold is_word_unit, is_safe_unit.
  rewrite !orb_true_iff, !andb_true_iff, !N.leb_le, N.eqb_eq. lia.
Qed.

Lemma is_safe_unit_not_white u : is_safe_unit u -> is_white u = false.
Proof.
  unfold is_safe_unit, is_white.
  rewrite !orb_false_iff, !andb_false_iff, !N.leb_gt, !N.eqb_neq. lia.
Qed.

Lemma underscore_runs_safe b l :
  Forall (fun u => is_title_unit u = true) l -> Forall is_safe_unit (underscore_runs b l).
Proof.
  intros H. revert b. induction H as [|u l Hu _ IH]; intros b; cbn; [constructor|].
  destruct (is_white u) eqn:Hw.
  - destruct b; [apply IH|]. constructor; [|apply IH]. unfold is_safe_unit. lia.
  - constructor; [|apply IH].
    unfold is_title_unit in Hu. rewrite Hw, orb_false_r in Hu.
    apply orb_true_iff in Hu as [Hu|Hu]; [by apply is_word_unit_safe|].
    apply N.eqb_eq in Hu. unfold is_safe_unit. lia.
Qed.

Lemma skip_white_safe l : Forall is_safe_unit l -> skip_white l = l.
Proof.
  destruct 1 as [|u l Hu _]; [reflexivity|]. cbn. by rewrite (is_safe_unit_not_white u Hu).
Qed.

Lemma trim_safe l : Forall is_safe_unit l -> trim l = l.
Proof.
  intros H. unfold trim. rewrite (skip_white_safe l H).
  rewrite skip_white_safe by (by apply Forall_rev). apply rev_involutive.
Qed.

Lemma underscore_runs_from b l :
  Forall (fun u => u = 95%N \/ u ∈ l) (underscore_runs b l).
Proof.
  revert b. induction l as [|u l IH]; intros b; cbn; [constructor|].
  assert (forall b', Forall (fun v => v = 95%N \/ v ∈ u :: l) (underscore_runs b' l)) as IH'.
  { intros b'. eapply Forall_impl; [apply IH|]. intros v [?|?]; [by left|right].
    by apply list_elem_of_further. }
  destruct (is_white u); [destruct b; [apply IH'|constructor; [by left|apply IH']]|].
  constructor; [right; apply list_elem_of_here|apply IH'].
Qed.

Lemma safeTitle_safe title :
  let t := safeTitle title in
  (length t <= 50)%nat /\
  Forall is_safe_unit t /\
  Forall (fun u => u = 95%N \/ u ∈ title) t /\
  t = take 50 (underscore_runs false (List.filter is_title_unit title)).
Proof.
  intros t.
  assert (Forall is_safe_unit
            (take 50 (underscore_runs false (List.filter is_title_unit title)))) as Hsafe.
  { apply Forall_take, underscore_runs_safe, Forall_forall. intros c Hc.
    by apply list_elem_of_In, filter_In in Hc as [_ Hc]. }
  assert (t = take 50 (underscore_runs false (List.filter is_title_unit title))) as Ht.
  { unfold t, safeTitle. by apply trim_safe. }
  split; [|split; [|split; [|exact Ht]]].
  - rewrite Ht, length_take. lia.
  - by rewrite Ht.
  - rewrite Ht. apply Forall_take.
    eapply Forall_impl; [apply underscore_runs_from|].
    intros u [?|Hin]; [by left|right].
    by apply list_elem_of_In, filter_In in Hin as [Hin _]; apply list_elem_of_In.
Qed.

(** The title that [createSafeFilename] puts into the file name has at
    most 50 code units, all of them ASCII letters, digits, underscores
    or hyphens, each one an underscore or a code unit of the title: the
    white space of the title, Unicode spaces included, has become
    underscores, so that the final [trim] has nothing to remove. *)
Theorem safeTitle_is_safe (title : text) :
  let t := safeTitle title in
  (length t <= 50)%nat /\
  Forall (fun u => (48 <= u <= 57 \/ 65 <= u <= 90 \/ 97 <= u <= 122 \/ u = 95 \/ u = 45)%N) t /\
  Forall (fun u => u = 95%N \/ u ∈ title) t /\
  t = take 50 (underscore_runs false (List.filter is_title_unit title)).
Proof. apply safeTitle_safe. Qed.

Lemma starts_with_app p l : starts_with p (p ++ l) = true.
Proof.
  induction p as [|a p IH]; [reflexivity|]. cbn. by rewrite N.eqb_refl.
Qed.

Lemma replace_first_eq pattern replacement s :
  replace_first pattern replacement s =
  if starts_with pattern s then replacement ++ drop (length pattern) s
  else
    match s with
    | [] => []
    | c :: s' => c :: replace_first pattern replacement s'
    end.
Proof. by destruct s. Qed.

(** The first occurrence of a pattern that begins with a code unit the
    text before it does not have. *)
Lemma replace_first_at h pattern replacement pre post :
  Forall (fun c => c <> h) pre ->
  replace_first (h :: pattern) replacement (pre ++ (h :: pattern) ++ post) =
  pre ++ replacement ++ post.
Proof.
  induction 1 as [|c pre Hc _ IH]; rewrite replace_first_eq.
  - cbn [app]. change (h :: pattern ++ post) with ((h :: pattern) ++ post).
    by rewrite starts_with_app, drop_app_length.
  - cbn [app starts_with].
    assert (N.eqb h c = false) as -> by (apply N.eqb_neq; congruence).
    cbn [andb]. cbn [app] in IH. by rewrite IH.
Qed.

Lemma not_brace_safe u : is_safe_unit u -> u <> 123%N.
Proof. unfold is_safe_unit. lia. Qed.

(** For a quality label without an opening brace, and with no [$] in
    the label and the extension (which [replace] would read as a
    pattern), [createSafeFilename] is the safe title, an underscore,
    the label, a dot and the extension. *)
Theorem createSafeFilename_fills_the_template (title quality extension : text) :
  123%N ∉ quality -> 36%N ∉ quality -> 36%N ∉ extension ->
  createSafeFilename title quality extension =
  safeTitle title ++ [95%N] ++ quality ++ [46%N] ++ extension.
Proof.
  intros Hq _ _. unfold createSafeFilename.
  destruct (safeTitle_safe title) as (_ & Hsafe & _). cbv zeta in Hsafe.
  set (t := safeTitle title) in *.
  assert (Forall (fun c => c <> 123%N) t) as Ht.
  { eapply Forall_impl; [exact Hsafe|]. apply not_brace_safe. }
  assert (Forall (fun c => c <> 123%N) quality) as Hq'.
  { apply Forall_forall. intros c Hc ->. contradiction. }
  change template with ([] ++ units "{title}" ++ units "_{quality}.{ext}").
  change (units "{title}") with (123%N :: units "title}").
  rewrite replace_first_at by constructor. cbn [app].
  change (units "_{quality}.{ext}")
    with ([95%N] ++ units "{quality}" ++ units ".{ext}").
  rewrite (app_assoc t).
  change (units "{quality}") with (123%N :: units "quality}").
  rewrite replace_first_at.
  2: { apply Forall_app_2; [exact Ht|]. repeat constructor. discriminate. }
  replace ((t ++ [95%N]) ++ quality ++ units ".{ext}")
    with (((t ++ [95%N]) ++ quality ++ [46%N]) ++ (123%N :: units "ext}") ++ [])
    by (by rewrite <- !app_assoc).
  change (units "{ext}") with (123%N :: units "ext}").
  rewrite replace_first_at.
  2: { repeat apply Forall_app_2; first [exact Ht | exact Hq' | by repeat constructor]. }
  by rewrite app_nil_r, <- !app_assoc.
Qed.

End UtilsTextFacts.

Section UtilsTextSamples.
Import UtilsText.

(** A title with a no-break space, punctuation and a run of spaces. *)
Lemma createSafeFilename_fills_the_template_sample :
  createSafeFilename (units "Monaco" ++ [160%N] ++ units "GP: 2024 (4K)!  onboard")
    (units "2160p_60fps") (units "mp4") =
  units "Monaco_GP_2024_4K_onboard_2160p_60fps.mp4".
Proof.
  rewrite createSafeFilename_fills_the_template.
  - vm_compute. reflexivity.
  - intros H. vm_compute in H.
    repeat (apply elem_of_cons in H as [H|H]; [discriminate H|]). by apply elem_of_nil in H.
  - intros H. vm_compute in H.
    repeat (apply elem_of_cons in H as [H|H]; [discriminate H|]). by apply elem_of_nil in H.
  - intros H. vm_compute in H.
    repeat (apply elem_of_cons in H as [H|H]; [discriminate H|]). by apply elem_of_nil in H.
Defined.

End UtilsTextSamples.
(** * The download: existing files, fresh names and retries

    The log lines of these functions are left out, as are the fields
    [isDownloading] and [currentProcess], which only [cancelDownload]
    reads. A rejected download is a value of [download_error]. *)

Module Download.

(** What [checkExistingVideo] returns. *)
Record existing := mkExisting {
  found : bool;               (* exists *)
  at_path : option string;    (* path; None is null *)
  needsConversion : bool
}.

Inductive download_error :=
| DownloadExit (code : option Z)          (* Download failed with exit code <code> *)
| DownloadProcessError (message : string) (* Download process error: <message> *)
| DownloadGaveUp (attempts : nat) (last : download_error).
                                          (* Download failed after <n> attempts. Last error: ... *)

(** [CONFIG.DOWNLOAD_SETTINGS]. *)
Definition retryAttempts : nat := 3.
Definition mergeOutputFormat : string := "mp4".
Definition embedSubtitles : bool := false.
Definition embedThumbnail : bool := false.

Section Download.
Variable E : Env.
(** [path.dirname] and [path.join] of Node. *)
Variable dirname : string -> string.
Variable join : string -> string -> string.
(** A run of yt-dlp: what it reports and the files it leaves. *)
Variable ytdlp : list string -> World -> proc_event * gmap string inode.

Definition checkExistingVideo (outputPath : string) : M existing :=
  let movPath := JS.replace_ext outputPath ".mov" in
  foundMov <- existsSync movPath ;;
  if foundMov then
    stats <- statSync movPath ;;
    ret (mkExisting true (Some movPath) false)
  else
    foundSource <- existsSync outputPath ;;
    if foundSource then
      stats <- statSync outputPath ;;
      ret (mkExisting true (Some outputPath) true)
    else ret (mkExisting false None false).

(** The [counter]-th alternative to [basePath]:
    [path.join(dir, `${name}_${counter}${ext}`)], where [name] is
    [path.basename(basePath, ext)]. *)
Definition candidate (basePath : string) (counter : nat) : string :=
  let dir := dirname basePath in
  let ext := JS.extname basePath in
  let name := JS.parse_name basePath in
  join dir (name +:+ "_" +:+ pretty counter +:+ ext).

(** The [do ... while] of [getUniqueFilename], from [counter] on. Each
    round finds one more path that exists, so that more rounds than
    there are files are never needed: [fuel] counts them. *)
Fixpoint nextFree (fuel : nat) (basePath : string) (counter : nat) : M string :=
  match fuel with
  | O => fun w => mkRun Pending w []
  | S fuel' =>
      let newPath := candidate basePath counter in
      taken <- existsSync newPath ;;
      if taken then nextFree fuel' basePath (S counter)
      else ret newPath
  end.

Definition getUniqueFilename (basePath : string) : M string :=
  taken <- existsSync basePath ;;
  if negb taken then ret basePath
  else fun w => nextFree (S (size (fs w))) basePath 1 w.

Definition spawn_ytdlp (args : list string) : M proc_event := fun w =>
  let '(ev, files) := ytdlp args w in
  mkRun (Resolved ev) (with_fs files w) [EvSpawn "yt-dlp" args].

(** The arguments of yt-dlp, for the formats [video] and [audio]. *)
Definition download_args (url video audio finalOutputPath : string) : list string :=
  [ "-f"; video +:+ "+" +:+ audio;
    "-o"; finalOutputPath;
    "--merge-output-format"; mergeOutputFormat;
    "--progress"; "--newline" ]
  ++ (if embedSubtitles then ["--embed-subs"] else [])
  ++ (if embedThumbnail then ["--embed-thumbnail"] else [])
  ++ [url].

Definition downloadVideo (url video audio outputPath : string)
  : M (download_error + string) :=
  finalOutputPath <- getUniqueFilename outputPath ;;
  ev <- spawn_ytdlp (download_args url video audio finalOutputPath) ;;
  match ev with
  | ProcClose code =>
      if VideoDownloader.is_zero code then ret (inr finalOutputPath)
      else ret (inl (DownloadExit code))
  | ProcError m _ => ret (inl (DownloadProcessError m))
  end.

(** The loop of [downloadWithRetry], from the attempt [attempt] on,
    with [remaining] attempts left, this one included. *)
Fixpoint retryFrom (remaining attempt : nat) (url video audio outputPath : string)
  : M (download_error + string) :=
  match remaining with
  | O => fun w => mkRun Pending w []
  | S remaining' =>
      (if Nat.ltb 1 attempt then sleep E 2000 else ret tt) ;;
      result <- downloadVideo url video audio outputPath ;;
      match result with
      | inr path => ret (inr path)
      | inl error =>
          if Nat.eqb attempt retryAttempts then ret (inl (DownloadGaveUp retryAttempts error))
          else retryFrom remaining' (S attempt) url video audio outputPath
      end
  end.

Definition downloadWithRetry (url video audio outputPath : string)
  : M (download_error + string) :=
  retryFrom retryAttempts 1 url video audio outputPath.

End Download.
End Download.
(** * Fresh names and retries *)

Section DownloadFacts.
Import Download.
Variable E : Env.
Variable dirname : string -> string.
Variable join : string -> string -> string.
Variable ytdlp : list string -> World -> proc_event * gmap string inode.

Local Abbreviation candidate := (Download.candidate dirname join).
Local Abbreviation nextFree := (Download.nextFree dirname join).
Local Abbreviation getUniqueFilename := (Download.getUniqueFilename dirname join).
Local Abbreviation downloadVideo := (Download.downloadVideo dirname join ytdlp).
Local Abbreviation retryFrom := (Download.retryFrom E dirname join ytdlp).
Local Abbreviation downloadWithRetry := (Download.downloadWithRetry E dirname join ytdlp).

(** More distinct paths than there are files: one of them is free. *)
Lemma one_is_free (files : gmap string inode) (f : nat -> string) (c : nat) :
  (forall k k', f k = f k' -> k = k') ->
  ~ (forall j, (c <= j < c + S (size files))%nat -> present (files !! f j) = true).
Proof.
  intros Hinj Hall.
  set (l := f <$> seq c (S (size files))).
  assert (NoDup l) as Hnodup.
  { apply NoDup_fmap_2_strong; [|apply NoDup_seq]. intros x y _ _. apply Hinj. }
  assert (list_to_set l ⊆@{gset string} dom files) as Hsub.
  { intros p Hp. apply elem_of_list_to_set, list_elem_of_fmap in Hp as (j & -> & Hj).
    apply elem_of_seq in Hj. apply elem_of_dom.
    specialize (Hall j Hj). by destruct (files !! f j). }
  apply subseteq_size in Hsub.
  rewrite size_list_to_set, size_dom in Hsub by exact Hnodup.
  unfold l in Hsub. rewrite length_fmap, length_seq in Hsub. lia.
Qed.

Lemma nextFree_spec fuel basePath c w :
  wp (nextFree fuel basePath c) w
     (fun o w' t =>
        w' = w /\ t = [] /\
        match o with
        | Resolved p =>
            exists k, (c <= k < c + fuel)%nat /\ p = candidate basePath k /\
              present (fs w !! p) = false /\
              forall j, (c <= j < k)%nat -> present (fs w !! candidate basePath j) = true
        | Pending =>
            forall j, (c <= j < c + fuel)%nat -> present (fs w !! candidate basePath j) = true
        | Rejected _ => False
        end).
Proof.
  revert c. induction fuel as [|fuel IH]; intros c; cbn [Download.nextFree].
  - unfold wp. cbn. split; [done|]. split; [done|]. intros j Hj. lia.
  - apply wp_bind, wp_existsSync. wp_rule.
    destruct (present (fs w !! candidate basePath c)) eqn:Hc.
    + eapply wp_mono; [apply IH|]. intros o w' t (-> & -> & Ho).
      split; [done|]. split; [done|].
      destruct o as [p|e|]; [|done|].
      * destruct Ho as (k & Hk & -> & Hfree & Hbelow). exists k.
        split; [lia|]. split; [done|]. split; [done|].
        intros j Hj. destruct (decide (j = c)) as [->|Hne]; [exact Hc|]. apply Hbelow. lia.
      * intros j Hj. destruct (decide (j = c)) as [->|Hne]; [exact Hc|]. apply Ho. lia.
    + wp_run. split; [done|]. split; [done|]. exists c.
      split; [lia|]. split; [done|]. split; [exact Hc|]. intros j Hj. lia.
Qed.

Lemma getUniqueFilename_is_fresh_aux basePath w :
  (forall k k', candidate basePath k = candidate basePath k' -> k = k') ->
  let r := getUniqueFilename basePath w in
  final r = w /\ trace r = [] /\
  exists p, out r = Resolved p /\ present (fs w !! p) = false /\
    (present (fs w !! basePath) = false -> p = basePath) /\
    (present (fs w !! basePath) = true ->
       exists k, (1 <= k)%nat /\ p = candidate basePath k /\
         forall j, (1 <= j < k)%nat -> present (fs w !! candidate basePath j) = true).
Proof.
  intros Hinj r. subst r.
  apply (wp_run (getUniqueFilename basePath) w
           (fun o w' t =>
              w' = w /\ t = [] /\
              exists p, o = Resolved p /\ present (fs w !! p) = false /\
                (present (fs w !! basePath) = false -> p = basePath) /\
                (present (fs w !! basePath) = true ->
                   exists k, (1 <= k)%nat /\ p = candidate basePath k /\
                     forall j, (1 <= j < k)%nat ->
                               present (fs w !! candidate basePath j) = true))).
  unfold Download.getUniqueFilename. apply wp_bind, wp_existsSync. wp_rule.
  destruct (present (fs w !! basePath)) eqn:Hbase; cbn [negb].
  - pose proof (nextFree_spec (S (size (fs w))) basePath 1 w) as Hnext.
    unfold wp in Hnext |- *. cbv beta. destruct Hnext as (Hw & Ht & Ho).
    rewrite Hw, Ht. split; [done|]. split; [by rewrite app_nil_r|].
    destruct (out (nextFree (S (size (fs w))) basePath 1 w)) as [p|e|]; [|done|].
    + destruct Ho as (k & Hk & -> & Hfree & Hbelow). eexists. split; [done|].
      split; [exact Hfree|]. split; [done|]. intros _. exists k. split; [lia|]. done.
    + by apply one_is_free in Ho.
  - wp_run. split; [done|]. split; [done|]. exists basePath. repeat split; auto. done.
Qed.

(** [getUniqueFilename] returns a path at which no file exists, and
    touches nothing: the path it is given when that is free, and
    otherwise the first free one among the alternatives numbered from
    1, all the earlier ones being taken. It always returns, as long as
    alternatives with different numbers are different paths. *)
Theorem getUniqueFilename_is_fresh basePath w :
  (forall k k', candidate basePath k = candidate basePath k' -> k = k') ->
  let r := getUniqueFilename basePath w in
  final r = w /\ trace r = [] /\
  exists p, out r = Resolved p /\ present (fs w !! p) = false /\
    (present (fs w !! basePath) = false -> p = basePath) /\
    (present (fs w !! basePath) = true ->
       exists k, (1 <= k)%nat /\ p = candidate basePath k /\
         forall j, (1 <= j < k)%nat -> present (fs w !! candidate basePath j) = true).
Proof. apply getUniqueFilename_is_fresh_aux. Qed.

(** One download: a fresh path, one run of yt-dlp that writes there. *)
Lemma downloadVideo_spec url video audio outputPath w :
  (forall k k', candidate outputPath k = candidate outputPath k' -> k = k') ->
  wp (downloadVideo url video audio outputPath) w
     (fun o w' t =>
        exists p,
          out (getUniqueFilename outputPath w) = Resolved p /\
          present (fs w !! p) = false /\
          let args := download_args url video audio p in
          t = [EvSpawn "yt-dlp" args] /\
          fs w' = snd (ytdlp args w) /\ stdin w' = stdin w /\
          o = Resolved
                match fst (ytdlp args w) with
                | ProcClose code =>
                    if VideoDownloader.is_zero code then inr p else inl (DownloadExit code)
                | ProcError m _ => inl (DownloadProcessError m)
                end).
Proof.
  intros Hinj. unfold Download.downloadVideo. apply wp_bind, wp_named.
  destruct (getUniqueFilename_is_fresh_aux outputPath w Hinj) as (Hw & Ht & p & Hp & Hfree).
  rewrite Hp, Hw, Ht. wp_rule. apply wp_bind. unfold Download.spawn_ytdlp, wp.
  destruct (ytdlp (download_args url video audio p) w) as [ev files] eqn:Hrun.
  cbn [out final trace after]. unfold wp.
  exists p. rewrite Hrun. cbn [fst snd].
  destruct Hfree as (Hfree & _).
  destruct ev as [code|m]; [destruct (VideoDownloader.is_zero code)|]; cbn; repeat split; auto.
Qed.

(** [downloadVideo] settles, after one run of yt-dlp. The path it
    tells yt-dlp to write to is one at which no file exists, so that a
    download overwrites nothing; and this is the path it resolves with,
    exactly when yt-dlp exits with code 0. *)
Theorem downloadVideo_never_overwrites url video audio outputPath w :
  (forall k k', candidate outputPath k = candidate outputPath k' -> k = k') ->
  let r := downloadVideo url video audio outputPath w in
  exists p result,
    out r = Resolved result /\
    spawned (trace r) = [("yt-dlp", download_args url video audio p)] /\
    present (fs w !! p) = false /\
    (present (fs w !! outputPath) = false -> p = outputPath) /\
    (result = inr p <->
     fst (ytdlp (download_args url video audio p) w) = ProcClose (Some 0)) /\
    (forall q, result = inr q -> q = p).
Proof.
  intros Hinj r.
  pose proof (downloadVideo_spec url video audio outputPath w Hinj) as H.
  unfold wp in H. fold r in H. cbv zeta in H.
  destruct H as (p & Hp & Hfree & Ht & _ & _ & Ho).
  destruct (getUniqueFilename_is_fresh_aux outputPath w Hinj)
    as (_ & _ & p' & Hp' & _ & Hbase & _).
  rewrite Hp in Hp'. injection Hp' as <-.
  exists p. eexists. split; [exact Ho|]. split; [by rewrite Ht|]. split; [exact Hfree|].
  split; [exact Hbase|].
  destruct (fst (ytdlp (download_args url video audio p) w)) as [[[| |]|]|m]; cbn;
    (split; [split; congruence|]); congruence.
Qed.

(** The runs of yt-dlp of a trace: the paths they write to. *)
Definition is_download (url video audio : string) (c : string * list string) : Prop :=
  fst c = "yt-dlp" /\ exists p, snd c = download_args url video audio p.

(** What the retry loop ends with after [n] runs out of [remaining]. *)
Definition retried (url video audio : string) (remaining : nat)
    (o : outcome (download_error + string)) (t : list event) : Prop :=
  let n := length (spawned t) in
  (1 <= n <= remaining)%nat /\
  Forall (is_download url video audio) (spawned t) /\
  exists result, o = Resolved result /\
    match result with
    | inr p =>
        exists before, spawned t = before ++ [("yt-dlp", download_args url video audio p)]
    | inl e =>
        n = remaining /\ exists last, e = DownloadGaveUp retryAttempts last
    end.

Lemma retryFrom_spec url video audio outputPath remaining attempt w :
  (forall k k', candidate outputPath k = candidate outputPath k' -> k = k') ->
  (1 <= attempt)%nat -> (1 <= remaining)%nat -> (attempt + remaining = S retryAttempts)%nat ->
  wp (retryFrom remaining attempt url video audio outputPath) w
     (fun o w' t =>
        retried url video audio remaining o t /\
        sleeps t = (if Nat.ltb 1 attempt then [2000] else []) ++
                   replicate (length (spawned t) - 1) 2000).
Proof.
  intros Hinj. revert attempt w.
  induction remaining as [|remaining IH]; intros attempt w Ha Hr Hsum; [lia|].
  cbn [Download.retryFrom]. apply wp_bind.
  assert (forall w0 (pre : list event),
    spawned pre = [] -> sleeps pre = (if Nat.ltb 1 attempt then [2000] else []) ->
    wp (result <- downloadVideo url video audio outputPath ;;
        match result with
        | inr path => ret (inr path)
        | inl error =>
            if Nat.eqb attempt retryAttempts
            then ret (inl (DownloadGaveUp retryAttempts error))
            else retryFrom remaining (S attempt) url video audio outputPath
        end) w0
       (fun o w' t =>
          retried url video audio (S remaining) o (pre ++ t) /\
          sleeps (pre ++ t) = (if Nat.ltb 1 attempt then [2000] else []) ++
                     replicate (length (spawned (pre ++ t)) - 1) 2000)) as Hround.
  { intros w0 pre Hpre Hsl. apply wp_bind.
    eapply wp_mono; [by apply downloadVideo_spec|].
    intros o w1 t (p & _ & _ & Ht & _ & _ & ->). cbv zeta in Ht. subst t. wp_rule.
    set (args := download_args url video audio p).
    assert (is_download url video audio ("yt-dlp", args)) as Hd.
    { split; [reflexivity|]. by exists p. }
    destruct (match fst (ytdlp args w0) with
              | ProcClose code =>
                  if VideoDownloader.is_zero code then inr p else inl (DownloadExit code)
              | ProcError m _ => inl (DownloadProcessError m)
              end) as [err|path] eqn:Hres.
    - destruct (Nat.eqb attempt retryAttempts) eqn:Hlast.
      + apply Nat.eqb_eq in Hlast. wp_run. unfold retried.
        rewrite !spawned_app, !sleeps_app, Hpre, Hsl. cbn. rewrite app_nil_r.
        split; [|reflexivity]. split; [lia|]. split; [by apply Forall_cons_2|].
        eexists. split; [reflexivity|]. split; [|eauto].
        unfold retryAttempts in *. lia.
      + apply Nat.eqb_neq in Hlast.
        eapply wp_mono; [apply IH; unfold retryAttempts in *; lia|].
        intros o w2 t2 ((Hn & Hall & result & -> & Hresult) & Hs).
        assert (Nat.ltb 1 (S attempt) = true) as Hlt by (apply Nat.ltb_lt; lia).
        rewrite Hlt in Hs. unfold retried.
        rewrite !spawned_app, !sleeps_app, Hpre, Hsl, Hs. cbn [app spawned omap list_omap sleeps].
        change (spawned [EvSpawn "yt-dlp" args]) with [("yt-dlp", args)].
        change (sleeps [EvSpawn "yt-dlp" args]) with (@nil Z).
        cbn [app length]. split.
        * split; [lia|]. split; [by apply Forall_cons_2|].
          exists result. split; [reflexivity|].
          destruct result as [e|q].
          -- destruct Hresult as [-> Hlastr]. split; [reflexivity|exact Hlastr].
          -- destruct Hresult as (before & ->). by exists (("yt-dlp", args) :: before).
        * f_equal.
          destruct (length (spawned t2)) as [|m] eqn:Hlen; [lia|].
          cbn. by rewrite Nat.sub_0_r.
    - wp_run. unfold retried.
      rewrite !spawned_app, !sleeps_app, Hpre, Hsl. cbn. rewrite app_nil_r.
      split; [|reflexivity]. split; [lia|]. split; [by apply Forall_cons_2|].
      eexists. split; [reflexivity|].
      assert (path = p) as ->.
      { destruct (fst (ytdlp args w0)) as [code|m]; [|discriminate].
        destruct (VideoDownloader.is_zero code); congruence. }
      by exists []. }
  destruct (Nat.ltb 1 attempt) eqn:Hlt.
  - apply wp_sleep. wp_rule. by apply Hround.
  - wp_rule. wp_rule. by apply (Hround w []).
Qed.

(** [downloadWithRetry] settles after one, two or three runs of
    yt-dlp, each asked to write the same formats of the same address,
    with a pause of 2000 ms before the second and before the third. It
    resolves with the path of the last run, which succeeded; or, all
    three having failed, with the error that names the three attempts. *)
Theorem downloadWithRetry_three_attempts url video audio outputPath w :
  (forall k k', candidate outputPath k = candidate outputPath k' -> k = k') ->
  let r := downloadWithRetry url video audio outputPath w in
  let n := length (spawned (trace r)) in
  (1 <= n <= 3)%nat /\
  sleeps (trace r) = replicate (n - 1) 2000 /\
  Forall (is_download url video audio) (spawned (trace r)) /\
  exists result, out r = Resolved result /\
    match result with
    | inr p =>
        exists before,
          spawned (trace r) = before ++ [("yt-dlp", download_args url video audio p)]
    | inl e => n = 3%nat /\ exists last, e = DownloadGaveUp 3 last
    end.
Proof.
  intros Hinj r n.
  pose proof (retryFrom_spec url video audio outputPath retryAttempts 1 w Hinj) as H.
  unfold wp in H. fold (downloadWithRetry url video audio outputPath w) in H. fold r in H.
  destruct H as ((Hn & Hall & Hres) & Hs); [done|unfold retryAttempts; lia|done|].
  auto.
Qed.

(** [checkExistingVideo] changes no file, starts nothing and never
    throws. It reports
    the [.mov] version of the output path whenever that exists, as
    needing no conversion, which is the path [convertToMov] then returns
    at once; otherwise the output path itself when that exists, as
    needing conversion; otherwise nothing. A path it reports exists. *)
Theorem checkExistingVideo_prefers_the_mov outputPath w :
  let r := Download.checkExistingVideo outputPath w in
  let movPath := JS.replace_ext outputPath ".mov" in
  fs (final r) = fs w /\ fs_calls (trace r) = [] /\ spawned (trace r) = [] /\
  out r = Resolved
            (if present (fs w !! movPath) then mkExisting true (Some movPath) false
             else if present (fs w !! outputPath) then mkExisting true (Some outputPath) true
             else mkExisting false None false) /\
  (forall x p, out r = Resolved x -> at_path x = Some p -> present (fs w !! p) = true) /\
  (forall x, out r = Resolved x -> found x = true -> needsConversion x = false ->
     at_path x = Some movPath /\
     out (VideoDownloader.convertToMov E outputPath w) = Resolved movPath /\
     spawned (trace (VideoDownloader.convertToMov E outputPath w)) = []).
Proof.
  intros r movPath.
  assert (final r = w /\ trace r = [] /\
          out r = Resolved
            (if present (fs w !! movPath) then mkExisting true (Some movPath) false
             else if present (fs w !! outputPath) then mkExisting true (Some outputPath) true
             else mkExisting false None false)) as (Hw & Ht & Ho).
  { subst r movPath.
    apply (wp_run (Download.checkExistingVideo outputPath) w
             (fun o w' t => w' = w /\ t = [] /\
                o = Resolved
                  (if present (fs w !! JS.replace_ext outputPath ".mov")
                   then mkExisting true (Some (JS.replace_ext outputPath ".mov")) false
                   else if present (fs w !! outputPath)
                        then mkExisting true (Some outputPath) true
                        else mkExisting false None false))).
    unfold Download.checkExistingVideo. wp_run.
    all: try done.
    all: match goal with
         | Hn : _ = None, Hp : present _ = true |- _ => by rewrite Hn in Hp
         end. }
  split; [by rewrite Hw|]. split; [by rewrite Ht|]. split; [by rewrite Ht|].
  split; [exact Ho|].
  rewrite Ho. split.
  - intros x p [= <-].
    destruct (present (fs w !! movPath)) eqn:Hmov; cbn; [by intros [= <-]|].
    destruct (present (fs w !! outputPath)) eqn:Hout; cbn; [by intros [= <-]|discriminate].
  - intros x [= <-].
    destruct (present (fs w !! movPath)) eqn:Hmov;
      cbn [found needsConversion at_path].
    + intros _ _. split; [reflexivity|].
      rewrite (convertToMov_shortcut E outputPath w Hmov). by cbn.
    + destruct (present (fs w !! outputPath)); cbn [found needsConversion at_path];
        discriminate.
Qed.

End DownloadFacts.
(** * Waiting for the first wallpaper, refreshing, extending *)

Section Housekeeping.
Import WallpaperManager.
Variable E : Env.

(** [waitForWallpaperSetup] looks at the target directory at most 30
    times, 1000 ms apart, and asks and writes nothing. It returns the
    newest wallpaper of the first look that finds one, without a further
    pause; after 30 empty looks and 30 pauses it fails with the
    timeout. *)
Theorem waitForWallpaperSetup_gives_up_after_thirty w :
  let r := waitForWallpaperSetup E w in
  exists k, (k <= 30)%nat /\
    sleeps (trace r) = replicate k 1000 /\
    final r = poll_world E k w /\
    (forall i, (i < k)%nat -> scan (poll_world E i w) = []) /\
    match out r with
    | Resolved x => (k < 30)%nat /\ exists rest, scan (poll_world E k w) = x :: rest
    | Rejected e => e = SeedTimeout /\ k = 30%nat
    | Pending => False
    end /\
    dialogue (trace r) = [] /\ fs_calls (trace r) = [].
Proof.
  intros r. subst r. unfold waitForWallpaperSetup.
  pose proof (waitLoop_spec E retryAttempts w) as Hspec. unfold wp in Hspec.
  destruct Hspec as (_ & _ & Hd & Hfs & _).
  destruct (waitLoop_run E retryAttempts w)
    as [(Hall & Hout & Hsl & Hfin)|(k & x & rest & Hk & Hall & Hk' & Hout & Hsl & Hfin)].
  - exists 30%nat. rewrite Hout. repeat split; auto.
  - exists k. rewrite Hout. unfold retryAttempts in Hk. repeat split; eauto with lia.
Qed.

(** [refreshWallpaperSystem] never throws and never waits for the
    user. It runs [launchctl unload] and [launchctl load], then the
    picture rotation script, and the [touch] of the [.mov] files only
    when that script failed. No file is created, removed or given other
    bytes: at most the modification times of the wallpapers change, and
    only when the script failed and [touch] succeeded. *)
Theorem refreshWallpaperSystem_best_effort w :
  let r := refreshWallpaperSystem E w in
  let rotationFailed := exec_error E PictureRotation (step (step w)) in
  let touched :=
    rotationFailed && negb (exec_error E (TouchMovFiles targetDir) (step (step (step w)))) in
  out r = Resolved tt /\
  commands (trace r) =
    [LaunchctlUnload; LaunchctlLoad; PictureRotation]
    ++ (if rotationFailed then [TouchMovFiles targetDir] else []) /\
  dialogue (trace r) = [] /\ fs_calls (trace r) = [] /\
  spawned (trace r) = [] /\ sleeps (trace r) = [] /\
  stdin (final r) = stdin w /\ clock (final r) = clock w /\
  fs (final r) = (if touched then touch_movs targetDir (clock w) (fs w) else fs w) /\
  (forall p, data <$> fs (final r) !! p = data <$> fs w !! p).
Proof.
  intros r rotationFailed touched. subst r rotationFailed touched.
  apply (wp_run (refreshWallpaperSystem E) w
    (fun o w' t =>
       o = Resolved tt /\
       commands t =
         [LaunchctlUnload; LaunchctlLoad; PictureRotation]
         ++ (if exec_error E PictureRotation (step (step w))
             then [TouchMovFiles targetDir] else []) /\
       dialogue t = [] /\ fs_calls t = [] /\ spawned t = [] /\ sleeps t = [] /\
       stdin w' = stdin w /\ clock w' = clock w /\
       fs w' = (if exec_error E PictureRotation (step (step w)) &&
                   negb (exec_error E (TouchMovFiles targetDir) (step (step (step w))))
                then touch_movs targetDir (clock w) (fs w) else fs w) /\
       (forall p, data <$> fs w' !! p = data <$> fs w !! p))).
  unfold refreshWallpaperSystem, restartWallpaperDaemon, forceWallpaperRefresh.
  wp_run.
  all: cbv [with_fs step] in *; cbn [fs clock stdin tick] in *.
  all: repeat match goal with H : exec_error _ _ _ = _ |- _ => rewrite ?H; clear H end.
  all: cbn [andb negb].
  all: repeat (split; [reflexivity|]).
  all: intros p; try reflexivity.
  all: destruct (fs w !! p) as [i|] eqn:Hp;
       [ destruct (touch_movs_data targetDir (clock w) (fs w) p i Hp) as (i' & -> & Hd);
         cbn; by rewrite Hd
       | unfold touch_movs; by rewrite map_lookup_imap, Hp ].
Qed.

End Housekeeping.
(** * [utils.js]: the addresses of videos *)

Module Url.

(** The regular expressions of [validateYouTubeUrl] and
    [extractVideoId], without their anchors and groups. *)
Inductive regex :=
| Lit (s : string)              (* the characters of [s] *)
| Opt (r : regex)               (* [r?] *)
| Plus (cls : ascii -> bool)    (* [[cls]+] *)
| Or (a b : regex)              (* [a|b] *)
| Then (a b : regex).           (* [ab] *)

(** [[cls]+] at the head of [s], then [k] on what is left: the longest
    run first, then the shorter ones. *)
Fixpoint plus {A} (cls : ascii -> bool) (s : string) (k : string -> option A) : option A :=
  match s with
  | String c s' =>
      if cls c then
        match plus cls s' k with
        | Some x => Some x
        | None => k s'
        end
      else None
  | EmptyString => None
  end.

(** The backtracking matcher: [r] at the head of [s], then [k] on what
    is left; the alternatives are tried in the order of the engine. *)
Fixpoint run {A} (r : regex) (s : string) (k : string -> option A) : option A :=
  match r with
  | Lit l =>
      match strip_prefix l s with
      | Some rest => k rest
      | None => None
      end
  | Opt r' =>
      match run r' s k with
      | Some x => Some x
      | None => k s
      end
  | Plus cls => plus cls s k
  | Or a b =>
      match run a s k with
      | Some x => Some x
      | None => run b s k
      end
  | Then a b => run a s (fun rest => run b rest k)
  end.

(** [/^r/.test(s)]. *)
Definition test (r : regex) (s : string) : bool :=
  match run r s (fun _ => Some tt) with
  | Some _ => true
  | None => false
  end.

(** A pattern without [^]: the first position of [s] where it
    matches. *)
Fixpoint search {A} (r : regex) (s : string) (k : string -> option A) : option A :=
  match run r s k with
  | Some x => Some x
  | None =>
      match s with
      | String _ s' => search r s' k
      | EmptyString => None
      end
  end.

(** [[\w-]]. *)
Definition word_or_dash (c : ascii) : bool :=
  UtilsText.is_word c || Ascii.eqb c "-"%char.

(** [/^https?:\/\/(www\.)?<page>[\w-]+/]. *)
Definition page (p : string) : regex :=
  Then (Lit "http") (Then (Opt (Lit "s")) (Then (Lit "://")
    (Then (Opt (Lit "www.")) (Then (Lit p) (Plus word_or_dash))))).

Definition patterns : list regex :=
  [ page "youtube.com/watch?v=";
    page "youtu.be/";
    page "youtube.com/embed/";
    page "youtube.com/v/" ].

(** [patterns.some(pattern => pattern.test(url))]. *)
Definition validateYouTubeUrl (url : string) : bool :=
  existsb (fun pattern => test pattern url) patterns.

(** [[^&\n?#]]. *)
Definition is_id_char (c : ascii) : bool :=
  negb (existsb (Ascii.eqb c) ["&"; "010"; "?"; "#"]%char).

(** A group [([cls]+)] that ends a pattern: the longest run, of one
    character at least, is captured. *)
Definition group (cls : ascii -> bool) (s : string) : option string :=
  match fst (JS.span cls (JS.chars s)) with
  | [] => None
  | x => Some (JS.str x)
  end.

(** [(?:youtube\.com\/watch\?v=|youtu\.be\/|youtube\.com\/embed\/|youtube\.com\/v\/)]. *)
Definition places : regex :=
  Or (Lit "youtube.com/watch?v=")
     (Or (Lit "youtu.be/") (Or (Lit "youtube.com/embed/") (Lit "youtube.com/v/"))).

(** [url.match(pattern)], then [match[1]]; [None] is [null]. *)
Definition extractVideoId (url : string) : option string :=
  search places url (group is_id_char).

End Url.
(** * Valid addresses and their video ids *)

Section UrlFacts.
Import Url.

(** [r] matches a head of [s] and leaves [rest]. *)
Inductive matches : regex -> string -> string -> Prop :=
| matches_lit l rest : matches (Lit l) (l +:+ rest) rest
| matches_opt r s rest : matches r s rest -> matches (Opt r) s rest
| matches_skip r s : matches (Opt r) s s
| matches_one cls c s : cls c = true -> matches (Plus cls) (String c s) s
| matches_more cls c s rest :
    cls c = true -> matches (Plus cls) s rest -> matches (Plus cls) (String c s) rest
| matches_left a b s rest : matches a s rest -> matches (Or a b) s rest
| matches_right a b s rest : matches b s rest -> matches (Or a b) s rest
| matches_then a b s mid rest :
    matches a s mid -> matches b mid rest -> matches (Then a b) s rest.

Lemma strip_prefix_append l s rest : strip_prefix l s = Some rest <-> s = l +:+ rest.
Proof.
  revert s. induction l as [|a l IH]; intros s; cbn.
  - split; [by intros [= ->]|by intros ->].
  - destruct s as [|b s]; [split; discriminate|].
    destruct (Ascii.eqb_spec a b) as [->|Hne].
    + rewrite IH. split; [by intros ->|by intros [= ->]].
    + split; [discriminate|]. intros [= -> _]. done.
Qed.

Lemma plus_sound {A} cls s (k : string -> option A) x :
  plus cls s k = Some x -> exists rest, matches (Plus cls) s rest /\ k rest = Some x.
Proof.
  induction s as [|c s IH]; cbn; [discriminate|].
  destruct (cls c) eqn:Hc; [|discriminate].
  destruct (plus cls s k) as [y|] eqn:Hp.
  - intros [= ->]. destruct (IH eq_refl) as (rest & Hm & Hk).
    exists rest. split; [by apply matches_more|exact Hk].
  - intros Hk. exists s. split; [by apply matches_one|exact Hk].
Qed.

(** What the matcher finds is a match. *)
Lemma run_sound {A} r : forall s (k : string -> option A) x,
  run r s k = Some x -> exists rest, matches r s rest /\ k rest = Some x.
Proof.
  induction r as [l|r IH|cls|a IHa b IHb|a IHa b IHb]; intros s k x; cbn.
  - destruct (strip_prefix l s) as [rest|] eqn:Hs; [|discriminate].
    apply strip_prefix_append in Hs as ->. intros Hk. exists rest. split; [constructor|exact Hk].
  - destruct (run r s k) as [y|] eqn:Hr.
    + intros [= ->]. destruct (IH _ _ _ Hr) as (rest & Hm & Hk).
      exists rest. split; [by apply matches_opt|exact Hk].
    + intros Hk. exists s. split; [apply matches_skip|exact Hk].
  - apply plus_sound.
  - destruct (run a s k) as [y|] eqn:Hr.
    + intros [= ->]. destruct (IHa _ _ _ Hr) as (rest & Hm & Hk).
      exists rest. split; [by apply matches_left|exact Hk].
    + intros Hr'. destruct (IHb _ _ _ Hr') as (rest & Hm & Hk).
      exists rest. split; [by apply matches_right|exact Hk].
  - intros Hr. destruct (IHa _ _ _ Hr) as (mid & Hm & Hr').
    destruct (IHb _ _ _ Hr') as (rest & Hm' & Hk).
    exists rest. split; [by eapply matches_then|exact Hk].
Qed.

(** The matcher misses no match. *)
Lemma run_complete {A} r s rest :
  matches r s rest -> forall k : string -> option A, is_Some (k rest) -> is_Some (run r s k).
Proof.
  induction 1 as [l rest|r s rest _ IH|r s|cls c s Hc|cls c s rest Hc _ IH
                 |a b s rest _ IH|a b s rest _ IH|a b s mid rest _ IHa _ IHb];
    intros k Hk; cbn.
  - by rewrite (proj2 (strip_prefix_append l (l +:+ rest) rest) eq_refl).
  - destruct (IH k Hk) as [x ->]. eauto.
  - destruct (run r s k); eauto.
  - rewrite Hc. destruct (plus cls s k); eauto.
  - rewrite Hc. destruct (IH k Hk) as [x Hx]. cbn in Hx. rewrite Hx. eauto.
  - destruct (IH k Hk) as [x ->]. eauto.
  - destruct (run a s k); eauto.
  - apply IHa, IHb, Hk.
Qed.

Lemma search_sound {A} r s (k : string -> option A) x :
  search r s k = Some x ->
  exists pre suffix rest, s = pre +:+ suffix /\ matches r suffix rest /\ k rest = Some x.
Proof.
  induction s as [|c s IH]; cbn [search].
  - destruct (run r _ k) as [y|] eqn:Hr; [|discriminate].
    intros [= ->]. destruct (run_sound _ _ _ _ Hr) as (rest & Hm & Hk).
    exists "", "", rest. auto.
  - destruct (run r _ k) as [y|] eqn:Hr.
    + intros [= ->]. destruct (run_sound _ _ _ _ Hr) as (rest & Hm & Hk).
      exists "", (String c s), rest. auto.
    + intros Hs. destruct (IH Hs) as (pre & suffix & rest & -> & Hm & Hk).
      exists (String c pre), suffix, rest. auto.
Qed.

Lemma search_complete {A} r pre suffix (k : string -> option A) :
  is_Some (run r suffix k) -> is_Some (search r (pre +:+ suffix) k).
Proof.
  intros [x Hr]. induction pre as [|c pre IH].
  - change ("" +:+ suffix) with suffix.
    assert (search r suffix k = Some x) as ->; [|eauto].
    destruct suffix; cbn [search]; by rewrite Hr.
  - change (String c pre +:+ suffix) with (String c (pre +:+ suffix)).
    cbn [search]. destruct (run r (String c (pre +:+ suffix)) k); [eauto|exact IH].
Qed.

Definition lits : list string :=
  ["youtube.com/watch?v="; "youtu.be/"; "youtube.com/embed/"; "youtube.com/v/"].

Definition origins : list string :=
  ["http://"; "https://"; "http://www."; "https://www."].

Lemma matches_places s rest :
  matches places s rest <-> exists l, l ∈ lits /\ s = l +:+ rest.
Proof.
  unfold places, lits. split.
  - intros H.
    repeat match goal with
           | H : matches (Or _ _) _ _ |- _ => inversion H; subst; clear H
           | H : matches (Lit _) _ _ |- _ => inversion H; subst; clear H
           end;
      eexists; (split; [|reflexivity]); elem.
  - intros (l & Hl & ->).
    repeat (apply elem_of_cons in Hl as [->|Hl]);
      [ apply matches_left | apply matches_right, matches_left
      | do 2 apply matches_right; apply matches_left
      | do 3 apply matches_right | by apply elem_of_nil in Hl ];
      constructor.
Qed.

Lemma matches_page p s rest :
  matches (page p) s rest ->
  exists o c tail, o ∈ origins /\ word_or_dash c = true /\ s = o +:+ p +:+ String c tail.
Proof.
  unfold page, origins. intros H.
  repeat match goal with
         | H : matches (Then _ _) _ _ |- _ => inversion H; subst; clear H
         | H : matches (Opt _) _ _ |- _ => inversion H; subst; clear H
         | H : matches (Lit _) _ _ |- _ => inversion H; subst; clear H
         end.
  all: match goal with
       | H : matches (Plus _) ?s _ |- _ =>
           assert (exists c tail, word_or_dash c = true /\ s = String c tail) as (c & tail & Hc & ->)
             by (inversion H; subst; eauto)
       end.
  all: first [ exists "http://", c, tail; split; [|split; [exact Hc|reflexivity]]
             | exists "https://", c, tail; split; [|split; [exact Hc|reflexivity]]
             | exists "http://www.", c, tail; split; [|split; [exact Hc|reflexivity]]
             | exists "https://www.", c, tail; split; [|split; [exact Hc|reflexivity]] ].
  all: elem.
Qed.

Lemma page_matches o p c tail :
  o ∈ origins -> word_or_dash c = true ->
  exists rest, matches (page p) (o +:+ p +:+ String c tail) rest.
Proof.
  unfold origins. intros Ho Hc. exists tail.
  assert (matches (Then (Lit p) (Plus word_or_dash)) (p +:+ String c tail) tail) as Hp.
  { eapply matches_then; [constructor|by apply matches_one]. }
  unfold page.
  repeat (apply elem_of_cons in Ho as [->|Ho]); [| | | |by apply elem_of_nil in Ho].
  - eapply matches_then; [apply (matches_lit "http")|].
    eapply matches_then; [apply matches_skip|].
    eapply matches_then; [apply (matches_lit "://")|].
    eapply matches_then; [apply matches_skip|exact Hp].
  - eapply matches_then; [apply (matches_lit "http")|].
    eapply matches_then; [apply matches_opt, (matches_lit "s")|].
    eapply matches_then; [apply (matches_lit "://")|].
    eapply matches_then; [apply matches_skip|exact Hp].
  - eapply matches_then; [apply (matches_lit "http")|].
    eapply matches_then; [apply matches_skip|].
    eapply matches_then; [apply (matches_lit "://")|].
    eapply matches_then; [apply matches_opt, (matches_lit "www.")|exact Hp].
  - eapply matches_then; [apply (matches_lit "http")|].
    eapply matches_then; [apply matches_opt, (matches_lit "s")|].
    eapply matches_then; [apply (matches_lit "://")|].
    eapply matches_then; [apply matches_opt, (matches_lit "www.")|exact Hp].
Qed.

Lemma test_matches r s : test r s = true <-> exists rest, matches r s rest.
Proof.
  unfold test. split.
  - destruct (run r s (fun _ => Some tt)) as [[]|] eqn:Hr; [|discriminate].
    intros _. destruct (run_sound _ _ _ _ Hr) as (rest & Hm & _). eauto.
  - intros (rest & Hm).
    destruct (run_complete r s rest Hm (fun _ => Some tt)) as [x ->]; eauto.
Qed.

Lemma validateYouTubeUrl_shape url :
  validateYouTubeUrl url = true <->
  exists o p c tail,
    o ∈ origins /\ p ∈ lits /\ word_or_dash c = true /\ url = o +:+ p +:+ String c tail.
Proof.
  unfold validateYouTubeUrl, patterns, lits. cbn [existsb]. rewrite !orb_true_iff, !test_matches.
  split.
  - intros [(rest & H)|[(rest & H)|[(rest & H)|[(rest & H)|H]]]]; [| | | |done].
    all: apply matches_page in H as (o & c & tail & Ho & Hc & ->).
    all: eexists o, _, c, tail; (split; [exact Ho|]); (split; [|split; [exact Hc|reflexivity]]).
    all: elem.
  - intros (o & p & c & tail & Ho & Hp & Hc & ->).
    repeat (apply elem_of_cons in Hp as [->|Hp]); [| | | |by apply elem_of_nil in Hp].
    + left. by apply page_matches.
    + right; left. by apply page_matches.
    + right; right; left. by apply page_matches.
    + right; right; right; left. by apply page_matches.
Qed.

(** [validateYouTubeUrl] accepts exactly the addresses that start with
    [http://] or [https://], then possibly [www.], then one of the four
    places of a video, then a letter, a digit, [_] or [-]. What comes
    after is not looked at. *)
Theorem validateYouTubeUrl_accepts url :
  validateYouTubeUrl url = true <->
  exists o p c tail,
    o ∈ origins /\ p ∈ lits /\ word_or_dash c = true /\ url = o +:+ p +:+ String c tail.
Proof. apply validateYouTubeUrl_shape. Qed.

Lemma word_or_dash_id_char c : word_or_dash c = true -> is_id_char c = true.
Proof.
  unfold is_id_char. cbn [existsb]. intros Hc.
  destruct (Ascii.eqb_spec c "&") as [->|_]; [discriminate Hc|].
  destruct (Ascii.eqb_spec c "010") as [->|_]; [discriminate Hc|].
  destruct (Ascii.eqb_spec c "?") as [->|_]; [discriminate Hc|].
  destruct (Ascii.eqb_spec c "#") as [->|_]; [discriminate Hc|].
  reflexivity.
Qed.

Lemma span_all p l : Forall (fun c => p c = true) (fst (JS.span p l)).
Proof.
  induction l as [|a l IH]; cbn; [constructor|].
  destruct (p a) eqn:Hp; [|constructor].
  destruct (JS.span p l) as [x y]. cbn in *. by constructor.
Qed.

Lemma span_run p x y :
  Forall (fun c => p c = true) x ->
  (y = [] \/ exists c y', y = c :: y' /\ p c = false) ->
  JS.span p (x ++ y) = (x, y).
Proof.
  intros Hx Hy. induction Hx as [|a x Ha _ IH]; cbn.
  - destruct Hy as [->|(c & y' & -> & Hc)]; cbn; [done|by rewrite Hc].
  - by rewrite Ha, IH.
Qed.

(** What the group captures: the longest run of its characters at the
    head of the string. *)
Lemma group_captures cls s id :
  group cls s = Some id ->
  id <> "" /\ Forall (fun c => cls c = true) (JS.chars id) /\
  exists post, s = id +:+ post /\
    (post = "" \/ exists c post', post = String c post' /\ cls c = false).
Proof.
  unfold group. destruct (JS.span cls (JS.chars s)) as [x y] eqn:Hspan. cbn [fst].
  pose proof (span_all cls (JS.chars s)) as Hall. rewrite Hspan in Hall. cbn [fst] in Hall.
  destruct x as [|a x]; [discriminate|]. intros Hid.
  assert (id = JS.str (a :: x)) as -> by congruence. clear Hid.
  split; [discriminate|]. rewrite chars_str. split; [exact Hall|].
  exists (JS.str y). split.
  - apply chars_inj. rewrite chars_append, !chars_str. by apply span_app in Hspan.
  - destruct y as [|c y']; [by left|]. right. exists c, (JS.str y').
    split; [reflexivity|]. by apply span_head in Hspan.
Qed.

Lemma group_run cls id post :
  id <> "" -> Forall (fun c => cls c = true) (JS.chars id) ->
  (post = "" \/ exists c post', post = String c post' /\ cls c = false) ->
  group cls (id +:+ post) = Some id.
Proof.
  intros Hid Hall Hpost. unfold group. rewrite chars_append, (span_run cls _ _ Hall).
  - cbn [fst]. destruct (JS.chars id) eqn:Hc.
    + destruct id; [done|discriminate].
    + by rewrite <- Hc, str_chars.
  - destruct Hpost as [->|(c & post' & -> & Hc)]; [by left|].
    right. exists c, (JS.chars post'). done.
Qed.

Lemma extractVideoId_shape url id :
  extractVideoId url = Some id ->
  exists pre p post,
    url = pre +:+ p +:+ id +:+ post /\ p ∈ lits /\
    id <> "" /\ Forall (fun c => is_id_char c = true) (JS.chars id) /\
    (post = "" \/ exists c post', post = String c post' /\ is_id_char c = false).
Proof.
  unfold extractVideoId. intros H.
  apply search_sound in H as (pre & suffix & rest & -> & Hm & Hk).
  apply matches_places in Hm as (p & Hp & ->).
  apply group_captures in Hk as (Hid & Hall & post & -> & Hpost).
  exists pre, p, post. auto.
Qed.

Lemma extractVideoId_found pre p c tail :
  p ∈ lits -> is_id_char c = true ->
  is_Some (extractVideoId (pre +:+ p +:+ String c tail)).
Proof.
  intros Hp Hc. unfold extractVideoId. apply search_complete.
  apply (run_complete places _ (String c tail)).
  - apply matches_places. eauto.
  - unfold group. cbn [JS.chars list_ascii_of_string JS.span]. rewrite Hc.
    destruct (JS.span is_id_char _). cbn. eauto.
Qed.

(** An address that [validateYouTubeUrl] accepts has a video id:
    [extractVideoId] does not return [null] on it, and what it returns
    is not empty and holds none of [&], [?], [#] and the line feed. *)
Theorem valid_address_has_an_id url :
  validateYouTubeUrl url = true ->
  exists id, extractVideoId url = Some id /\ id <> "" /\
    Forall (fun c => is_id_char c = true) (JS.chars id).
Proof.
  intros Hv. apply validateYouTubeUrl_shape in Hv as (o & p & c & tail & _ & Hp & Hc & ->).
  destruct (extractVideoId_found o p c tail Hp (word_or_dash_id_char c Hc)) as [id Hid].
  exists id. split; [exact Hid|].
  apply extractVideoId_shape in Hid as (_ & _ & _ & _ & _ & Hne & Hall & _). auto.
Qed.

(** The id that [extractVideoId] returns stands in the address right
    after one of the four places of a video, and runs up to the end of
    the address or to the first [&], [?], [#] or line feed. *)
Theorem extractVideoId_is_what_follows url id :
  extractVideoId url = Some id ->
  exists pre p post,
    url = pre +:+ p +:+ id +:+ post /\ p ∈ lits /\
    id <> "" /\ Forall (fun c => is_id_char c = true) (JS.chars id) /\
    (post = "" \/ exists c post', post = String c post' /\ is_id_char c = false).
Proof. apply extractVideoId_shape. Qed.

Lemma places_start_with_y s rest : matches places s rest -> exists s', s = String "y" s'.
Proof.
  intros H. apply matches_places in H as (p & Hp & ->). unfold lits in Hp.
  repeat (apply elem_of_cons in Hp as [->|Hp]); [| | | |by apply elem_of_nil in Hp]; cbn; eauto.
Qed.

Lemma search_skips {A} r pre s (k : string -> option A) :
  (forall suffix rest, matches r suffix rest -> exists s', suffix = String "y" s') ->
  "y"%char ∉ JS.chars pre ->
  search r (pre +:+ s) k = search r s k.
Proof.
  intros Hy. induction pre as [|c pre IH]; intros Hpre; [reflexivity|].
  change (String c pre +:+ s) with (String c (pre +:+ s)). cbn [search].
  destruct (run r (String c (pre +:+ s)) k) as [x|] eqn:Hr.
  - exfalso. apply run_sound in Hr as (rest & Hm & _).
    apply Hy in Hm as (s' & [= -> _]). apply Hpre. cbn. apply list_elem_of_here.
  - apply IH. intros Hin. apply Hpre. cbn. by apply list_elem_of_further.
Qed.

(** From an address made of a start without the letter [y] (such as
    [https://www.]), one of the four places of a video, an id and
    possibly more after [&], [?], [#] or a line feed,
    [extractVideoId] returns the id. *)
Theorem extractVideoId_round_trip pre p id post :
  "y"%char ∉ JS.chars pre ->
  p ∈ lits ->
  id <> "" ->
  Forall (fun c => is_id_char c = true) (JS.chars id) ->
  (post = "" \/ exists c post', post = String c post' /\ is_id_char c = false) ->
  extractVideoId (pre +:+ p +:+ id +:+ post) = Some id.
Proof.
  intros Hpre Hp Hid Hall Hpost. unfold extractVideoId.
  rewrite (search_skips places pre _ _ places_start_with_y Hpre).
  pose proof (group_run is_id_char id post Hid Hall Hpost) as Hg.
  unfold lits in Hp.
  repeat (apply elem_of_cons in Hp as [->|Hp]); [| | | |by apply elem_of_nil in Hp].
  all: revert Hg; generalize (group is_id_char); intros k Hg.
  all: unfold places; simpl.
  all: change ("" +:+ id +:+ post) with (id +:+ post); by rewrite Hg.
Qed.

End UrlFacts.
(** * Sample runs of the remaining functions *)

Section MoreSamples.
Import Examples WallpaperManager Download.

Ltac run := vm_compute; reflexivity.

(** An environment whose ffprobe exits with code 1. *)
Definition broken_probe : Env :=
  mkEnv no_fault (ffmpeg_writes 0 "hevc")
        (fun _ _ => (ProcClose (Some 1), ""))
        (fun _ => None)
        (fun _ _ => ProcClose (Some 0))
        (fun _ _ => false)
        fs
        ∅
        "/work"
        (fun _ => "2024-01-01T00:00:00.000Z").

(** [path.dirname] of a path of several segments that does not end in
    a separator: what comes before the last separator. *)
Definition parent (p : string) : string :=
  JS.str (rev (drop 1 (snd (JS.span JS.not_slash (rev (JS.chars p)))))).

(** A yt-dlp that fails before the time [ready] and from then on
    writes the video where [-o] says. *)
Definition ytdlp_after (ready : Z) (args : list string) (w : World)
  : proc_event * gmap string inode :=
  if (clock w <? ready)%Z then (ProcClose (Some 1), fs w)
  else (ProcClose (Some 0), <[nth 3 args "" := file "video" (clock w)]> (fs w)).

Definition mp4 : string := "/work/outputs/clip.mp4".

(** Two earlier downloads of the same video. *)
Definition downloads : gmap string inode :=
  <[mp4 := file "first" 3]>
  (<["/work/outputs/clip_1.mp4" := file "second" 4]> one_wallpaper).

(** With [path.join] on an absolute directory, alternatives with
    different numbers are different paths. *)
Lemma candidate_inj (dirname : string -> string) basePath k k' :
  candidate dirname JS.path_join basePath k = candidate dirname JS.path_join basePath k' ->
  k = k'.
Proof.
  unfold candidate. intros H. apply path_join_inj in H.
  apply (f_equal JS.chars) in H. rewrite !chars_append in H.
  do 2 apply app_inv_head in H. apply app_inv_tail in H.
  apply chars_inj in H. by apply (inj pretty) in H.
Qed.

Lemma setupWallpaper_without_access_sample :
  let r := setupWallpaper desk clip (world ∅ ["y"]) in
  out (checkCustomerDirectory desk (world ∅ ["y"])) = Resolved false /\
  out r = Resolved false /\ fs (final r) = ∅ /\
  List.last (trace r) (EvSleep 0) = EvLog LvError (SetupFailed CannotAccess).
Proof.
  cbv zeta.
  assert (out (checkCustomerDirectory desk (world ∅ ["y"])) = Resolved false) as Hchk by run.
  destruct (setupWallpaper_without_access desk clip (world ∅ ["y"]) Hchk) as (Hout & Hw & Ht).
  split; [exact Hchk|]. split; [exact Hout|]. split; [rewrite Hw; run|].
  rewrite Ht. by rewrite last_last.
Defined.

Lemma convertToMov_reuses_the_output_sample :
  VideoDownloader.convertToMov desk mp4 (world one_wallpaper []) =
  mkRun (Resolved clip) (world one_wallpaper []) [EvLog LvSuccess MovAlreadyExists].
Proof.
  apply (convertToMov_reuses_the_output desk mp4 (world one_wallpaper [])). run.
Defined.

Lemma probe_failure_stops_the_conversion_sample :
  let w := world downloads [] in
  let r := VideoDownloader.convertToMov broken_probe "/work/outputs/clip_1.mp4" w in
  let x := VideoDownloader.extendVideo broken_probe "/work/outputs/clip_1.mp4" 60 w in
  out r = Rejected (ProbeFailed (Some 1)) /\ fs (final r) = downloads /\
  out x = Rejected (DurationFailed (ProbeFailed (Some 1))) /\ fs (final x) = downloads.
Proof.
  cbv zeta.
  assert (out (VideoDownloader.getVideoDuration broken_probe "/work/outputs/clip_1.mp4"
                 (world downloads [])) = Rejected (ProbeFailed (Some 1))) as Hprobe by run.
  destruct (probe_failure_stops_the_conversion broken_probe "/work/outputs/clip_1.mp4" 60
              (world downloads []) _ Hprobe) as (Hr & Hx & _ & _ & Hfs).
  destruct Hr as (Hout & _ & Hfs'); [run|]. auto.
Defined.

Lemma getUniqueFilename_is_fresh_sample :
  let r := getUniqueFilename parent JS.path_join mp4 (world downloads []) in
  out r = Resolved "/work/outputs/clip_2.mp4" /\
  exists p, out r = Resolved p /\ downloads !! p = None.
Proof.
  cbv zeta. split; [run|].
  destruct (getUniqueFilename_is_fresh parent JS.path_join mp4 (world downloads [])
              (candidate_inj parent mp4)) as (_ & _ & p & Hp & Hfree & _).
  exists p. split; [exact Hp|]. cbn [fs world] in Hfree. by destruct (downloads !! p).
Defined.

Lemma downloadVideo_never_overwrites_sample :
  let w := world downloads [] in
  let r := downloadVideo parent JS.path_join (ytdlp_after 0) "https://youtu.be/abc" "137" "140"
             mp4 w in
  out r = Resolved (inr "/work/outputs/clip_2.mp4") /\
  fs (final r) !! mp4 = Some (file "first" 3) /\
  exists p result, out r = Resolved result /\
    spawned (trace r) = [("yt-dlp", download_args "https://youtu.be/abc" "137" "140" p)] /\
    downloads !! p = None.
Proof.
  cbv zeta. split; [run|]. split; [run|].
  destruct (downloadVideo_never_overwrites parent JS.path_join (ytdlp_after 0)
              "https://youtu.be/abc" "137" "140" mp4 (world downloads [])
              (candidate_inj parent mp4)) as (p & result & Ho & Ht & Hfree & _).
  exists p, result. split; [exact Ho|]. split; [exact Ht|].
  cbn [fs world] in Hfree. by destruct (downloads !! p).
Defined.

Lemma downloadWithRetry_three_attempts_sample :
  let w := world one_wallpaper [] in
  let r := downloadWithRetry desk parent JS.path_join (ytdlp_after 2000)
             "https://youtu.be/abc" "137" "140" mp4 w in
  out r = Resolved (inr mp4) /\ length (spawned (trace r)) = 2%nat /\
  sleeps (trace r) = replicate (length (spawned (trace r)) - 1) 2000.
Proof.
  cbv zeta. split; [run|]. split; [run|].
  destruct (downloadWithRetry_three_attempts desk parent JS.path_join (ytdlp_after 2000)
              "https://youtu.be/abc" "137" "140" mp4 (world one_wallpaper [])
              (candidate_inj parent mp4)) as (_ & Hs & _).
  exact Hs.
Defined.

End MoreSamples.
(** * Sample addresses *)

Section UrlSamples.
Import Url.

Definition watch_address : string := "https://www.youtube.com/watch?v=dQw4w9WgXcQ&t=42s".

Lemma valid_address_has_an_id_sample :
  validateYouTubeUrl watch_address = true /\
  exists id, extractVideoId watch_address = Some id /\ id <> "".
Proof.
  assert (validateYouTubeUrl watch_address = true) as Hv by (vm_compute; reflexivity).
  split; [exact Hv|].
  destruct (valid_address_has_an_id watch_address Hv) as (id & Hid & Hne & _).
  exists id. auto.
Defined.

Lemma extractVideoId_is_what_follows_sample :
  extractVideoId "see youtu.be/abc_123#top" = Some "abc_123" /\
  exists pre p post, "see youtu.be/abc_123#top" = pre +:+ p +:+ "abc_123" +:+ post /\ p ∈ lits.
Proof.
  assert (extractVideoId "see youtu.be/abc_123#top" = Some "abc_123") as Hid
    by (vm_compute; reflexivity).
  split; [exact Hid|].
  destruct (extractVideoId_is_what_follows _ _ Hid) as (pre & p & post & Hurl & Hp & _).
  exists pre, p, post. auto.
Defined.

Lemma extractVideoId_round_trip_sample :
  extractVideoId watch_address = Some "dQw4w9WgXcQ".
Proof.
  apply (extractVideoId_round_trip "https://www." "youtube.com/watch?v=" "dQw4w9WgXcQ" "&t=42s").
  - intros H. cbn in H.
    repeat (apply elem_of_cons in H as [H|H]; [discriminate H|]). by apply elem_of_nil in H.
  - apply list_elem_of_here.
  - discriminate.
  - cbn. repeat constructor.
  - right. exists "&"%char, "t=42s". split; reflexivity.
Defined.

End UrlSamples.
